(** * The FilterResult pipeline of [src/core/SkImageFilterTypes.cpp]

    A shallow embedding of the layer-space geometry, of the [Mapping]
    helpers and of the [FilterResult] operations ([applyCrop],
    [applyColorFilter], [applyTransform], [resolve], [rescale]), followed by
    the properties stated about them.

    Conventions.
    - [int] values are mathematical integers ([Z]); the conversions that
      saturate in the source ([sk_float_saturate2int] and friends) saturate
      here as well.  The one shift that can reach the sign bit of an [int]
      ([1 << (steps - 1)] in [downscale_step_count]) wraps to 32 bits.
    - [float] and [double] are IEEE-754 binary32 and binary64 values,
      computed with the round-to-nearest-even operations of [SpecFloat].
    - The mutable statistics sink of the [Context] is threaded explicitly.
    - Pixel production (devices, shaders, drawing) lives behind the [Backend]
      interface and is represented by a record of functions. *)

From Stdlib Require Import ZArith Bool List Lia.
From Stdlib Require Import Floats.SpecFloat.
Import ListNotations.

Local Open Scope Z_scope.
Local Open Scope bool_scope.

Set Implicit Arguments.

(* ===================================================================== *)
(** ** IEEE-754 scalars *)
(* ===================================================================== *)

(** The signed integer value [(-1)^s * m]. *)
Definition signed_mantissa (s : bool) (m : positive) : Z :=
  if s then Z.neg m else Z.pos m.

(** [floorf]/[floor] read as an integer; infinities and NaN have none. *)
Definition SFfloorZ (x : spec_float) : option Z :=
  match x with
  | S754_zero _ => Some 0
  | S754_finite s m e =>
      Some (if 0 <=? e then signed_mantissa s m * 2 ^ e
            else signed_mantissa s m / 2 ^ (- e))
  | _ => None
  end.

(** [ceilf]/[ceil] read as an integer. *)
Definition SFceilZ (x : spec_float) : option Z :=
  match x with
  | S754_zero _ => Some 0
  | S754_finite s m e =>
      Some (if 0 <=? e then signed_mantissa s m * 2 ^ e
            else - ((- signed_mantissa s m) / 2 ^ (- e)))
  | _ => None
  end.

(** The cast [(int) x] of a finite scalar truncates toward zero. *)
Definition SFtruncZ (x : spec_float) : option Z :=
  match x with
  | S754_finite true _ _ => SFceilZ x
  | _ => SFfloorZ x
  end.

(** [lo <= v <= hi] pinning, as [SkTPin]. *)
Definition SkTPin (v lo hi : Z) : Z := Z.max lo (Z.min v hi).

(** Saturating conversion of an already integral scalar: values beyond
    [hi] (and NaN, for which every comparison is false) become [hi], values
    below [lo] become [lo]. *)
Definition saturate2int (lo hi : Z) (x : spec_float) : Z :=
  match x with
  | S754_nan => hi
  | S754_infinity s => if s then lo else hi
  | _ => match SFtruncZ x with
         | Some v => SkTPin v lo hi
         | None => hi
         end
  end.

Definition SK_MaxS32 : Z := 2147483647.
Definition SK_MinS32 : Z := - SK_MaxS32.
Definition SK_MaxS32FitsInFloat : Z := 2147483520.
Definition SK_MinS32FitsInFloat : Z := - SK_MaxS32FitsInFloat.

(** binary32, the type of [float] and [SkScalar]. *)
Module F32.
Definition prec : Z := 24.
Definition emax : Z := 128.
Definition of_Z (n : Z) : spec_float := binary_normalize prec emax n 0 false.
Definition add := SFadd prec emax.
Definition sub := SFsub prec emax.
Definition mul := SFmul prec emax.
Definition div := SFdiv prec emax.
Definition opp := SFopp.
Definition abs := SFabs.
Definition eqb := SFeqb.
Definition ltb := SFltb.
Definition leb := SFleb.
Definition zero : spec_float := S754_zero false.
Definition one : spec_float := of_Z 1.
(** The literal written [a/b] in decimal, e.g. [1e-3f] is [lit 1 1000]:
    the binary32 value nearest to the quotient. *)
Definition lit (a b : Z) : spec_float := div (of_Z a) (of_Z b).
(** [sk_float_floor2int], [sk_float_ceil2int]: round, then saturate. *)
Definition floor2int (x : spec_float) : Z :=
  match SFfloorZ x with
  | Some v => SkTPin v SK_MinS32FitsInFloat SK_MaxS32FitsInFloat
  | None => saturate2int SK_MinS32FitsInFloat SK_MaxS32FitsInFloat x
  end.
Definition ceil2int (x : spec_float) : Z :=
  match SFceilZ x with
  | Some v => SkTPin v SK_MinS32FitsInFloat SK_MaxS32FitsInFloat
  | None => saturate2int SK_MinS32FitsInFloat SK_MaxS32FitsInFloat x
  end.
Definition is_finite (x : spec_float) : bool :=
  match x with
  | S754_zero _ | S754_finite _ _ _ => true
  | _ => false
  end.
End F32.

(** binary64, the type of [double]. *)
Module F64.
Definition prec : Z := 53.
Definition emax : Z := 1024.
Definition of_Z (n : Z) : spec_float := binary_normalize prec emax n 0 false.
(** Widening a [float]: every binary32 value is a binary64 value; only the
    canonical exponent changes. *)
Definition of_F32 (x : spec_float) : spec_float :=
  match x with
  | S754_finite s m e => binary_round prec emax s m e
  | _ => x
  end.
(** Narrowing a [double] to [float] rounds to nearest. *)
Definition to_F32 (x : spec_float) : spec_float :=
  match x with
  | S754_finite s m e => binary_round F32.prec F32.emax s m e
  | _ => x
  end.
Definition add := SFadd prec emax.
Definition sub := SFsub prec emax.
Definition mul := SFmul prec emax.
Definition div := SFdiv prec emax.
Definition opp := SFopp.
Definition eqb := SFeqb.
Definition ltb := SFltb.
Definition leb := SFleb.
(** [std::min(a, b)] is [(b < a) ? b : a]; [std::max(a, b)] is
    [(a < b) ? b : a]. *)
Definition min (a b : spec_float) : spec_float := if ltb b a then b else a.
Definition max (a b : spec_float) : spec_float := if ltb a b then b else a.
(** [sk_double_floor2int], [sk_double_ceil2int], [sk_double_saturate2int]
    after [sk_double_floor] / [sk_double_ceil]. *)
Definition floor2int (x : spec_float) : Z :=
  match SFfloorZ x with
  | Some v => SkTPin v SK_MinS32 SK_MaxS32
  | None => saturate2int SK_MinS32 SK_MaxS32 x
  end.
Definition ceil2int (x : spec_float) : Z :=
  match SFceilZ x with
  | Some v => SkTPin v SK_MinS32 SK_MaxS32
  | None => saturate2int SK_MinS32 SK_MaxS32 x
  end.
End F64.

(** [kRoundEpsilon = 1e-3f]. *)
Definition kRoundEpsilon : spec_float := F32.lit 1 1000.

(* ===================================================================== *)
(** ** Step count of the multi-pass downscale *)
(* ===================================================================== *)

(** Modelled from the spec: [SkNextLog2] of [src/base/SkMathPriv.h] is not
    part of the sources at hand; the spec names it [nextLog2].  It is
    [32 - SkCLZ(value - 1)] on a 32-bit unsigned value, i.e. the bit length of
    [value - 1]. *)
Definition SkNextLog2 (value : Z) : Z :=
  let x := (value - 1) mod 2 ^ 32 in
  if x =? 0 then 0 else Z.log2 x + 1.

Definition kMultiPassLimit : spec_float := F32.lit 8 10.
Definition kNearIdentityLimit : spec_float := F32.sub F32.one kRoundEpsilon.

(** The value an [int] holds when the mathematical result is [z]: two's
    complement on 32 bits. *)
Definition wrap_int32 (z : Z) : Z := (z + 2 ^ 31) mod 2 ^ 32 - 2 ^ 31.

(** [static int downscale_step_count(float netScaleFactor)].  [steps] can be
    32 (when the reciprocal does not round up to a positive [int]); the [int]
    [1 << (steps - 1)] is then [INT_MIN]. *)
Definition downscale_step_count (netScaleFactor : spec_float) : Z :=
  let steps := SkNextLog2 (F32.ceil2int (F32.div F32.one netScaleFactor)) in
  if 0 <? steps then
    let finalStepScale :=
      F32.mul netScaleFactor (F32.of_Z (wrap_int32 (Z.shiftl 1 (steps - 1)))) in
    let limit := if steps =? 1 then kNearIdentityLimit else kMultiPassLimit in
    if F32.leb limit finalStepScale then steps - 1 else steps
  else steps.

(* ===================================================================== *)
(** ** Integer and scalar geometry *)
(* ===================================================================== *)

Record SkIPoint := { ipX : Z; ipY : Z }.
Record SkISize := { isWidth : Z; isHeight : Z }.

(** Modelled from the spec: [SkIRect] of [include/core/SkRect.h], a half-open
    integer rectangle [[left, right) x [top, bottom)], empty iff
    [right <= left] or [bottom <= top]. *)
Record SkIRect := { fLeft : Z; fTop : Z; fRight : Z; fBottom : Z }.

Module IRect.
Definition MakeEmpty : SkIRect := Build_SkIRect 0 0 0 0.
Definition MakeLTRB (l t r b : Z) : SkIRect := Build_SkIRect l t r b.
Definition MakeXYWH (x y w h : Z) : SkIRect := Build_SkIRect x y (x + w) (y + h).
Definition MakeWH (w h : Z) : SkIRect := Build_SkIRect 0 0 w h.
Definition MakeSize (s : SkISize) : SkIRect := MakeWH (isWidth s) (isHeight s).
Definition width (r : SkIRect) : Z := fRight r - fLeft r.
Definition height (r : SkIRect) : Z := fBottom r - fTop r.
Definition size (r : SkIRect) : SkISize := Build_SkISize (width r) (height r).
Definition topLeft (r : SkIRect) : SkIPoint := Build_SkIPoint (fLeft r) (fTop r).
Definition isEmpty (r : SkIRect) : bool :=
  (fRight r <=? fLeft r) || (fBottom r <=? fTop r).
(** [bool intersect(const SkIRect&)]: on success the receiver becomes the
    intersection; on failure ([None]) it is left as it was. *)
Definition meet (a b : SkIRect) : SkIRect :=
  Build_SkIRect (Z.max (fLeft a) (fLeft b)) (Z.max (fTop a) (fTop b))
                (Z.min (fRight a) (fRight b)) (Z.min (fBottom a) (fBottom b)).
Definition intersect (a b : SkIRect) : option SkIRect :=
  let tmp := meet a b in
  if isEmpty tmp then None else Some tmp.
Definition contains (a r : SkIRect) : bool :=
  negb (isEmpty r) && negb (isEmpty a) &&
  (fLeft a <=? fLeft r) && (fTop a <=? fTop r) &&
  (fRight r <=? fRight a) && (fBottom r <=? fBottom a).
Definition outset (r : SkIRect) (d : SkISize) : SkIRect :=
  Build_SkIRect (fLeft r - isWidth d) (fTop r - isHeight d)
                (fRight r + isWidth d) (fBottom r + isHeight d).
Definition eqb (a b : SkIRect) : bool :=
  (fLeft a =? fLeft b) && (fTop a =? fTop b) &&
  (fRight a =? fRight b) && (fBottom a =? fBottom b).
(** Set inclusion of the pixels of [r] in those of [a], coordinate-wise. *)
Definition within (r a : SkIRect) : Prop :=
  fLeft a <= fLeft r /\ fTop a <= fTop r /\
  fRight r <= fRight a /\ fBottom r <= fBottom a.
End IRect.

(** Modelled from the spec: [SkRectPriv::ClosestDisjointEdge] of
    [src/core/SkRectPriv.h] is not part of the sources at hand.  For a
    destination that the source does not overlap it selects "the closest
    row/column/corner" of the source: per axis, the last pixel column when the
    source lies before the destination, the first one when it lies after, and
    the pinned interval otherwise. *)
Definition ClosestDisjointEdge (src dst : SkIRect) : SkIRect :=
  if IRect.isEmpty src || IRect.isEmpty dst then IRect.MakeEmpty
  else
    let '(l, r) :=
      if fRight src <=? fLeft dst then (fRight src - 1, fRight src)
      else if fRight dst <=? fLeft src then (fLeft src, fLeft src + 1)
      else (SkTPin (fLeft src) (fLeft dst) (fRight dst),
            SkTPin (fRight src) (fLeft dst) (fRight dst)) in
    let '(t, b) :=
      if fBottom src <=? fTop dst then (fBottom src - 1, fBottom src)
      else if fBottom dst <=? fTop src then (fTop src, fTop src + 1)
      else (SkTPin (fTop src) (fTop dst) (fBottom dst),
            SkTPin (fBottom src) (fTop dst) (fBottom dst)) in
    IRect.MakeLTRB l t r b.

Inductive SkTileMode := kClamp | kRepeat | kMirror | kDecal.

Definition SkTileMode_eqb (a b : SkTileMode) : bool :=
  match a, b with
  | kClamp, kClamp | kRepeat, kRepeat | kMirror, kMirror | kDecal, kDecal => true
  | _, _ => false
  end.

(** [LayerSpace<SkIRect>::relevantSubset(dstRect, tileMode)] *)
Definition relevantSubset (this dstRect : SkIRect) (tileMode : SkTileMode) : SkIRect :=
  match tileMode with
  | kDecal | kClamp =>
      match IRect.intersect this dstRect with
      | Some fittedSrc => fittedSrc
      | None =>
          match tileMode with
          | kDecal => IRect.MakeEmpty
          | _ => ClosestDisjointEdge this dstRect
          end
      end
  | _ => this
  end.

(** Scalar rectangles ([SkRect]): four binary32 edges. *)
Record SkRect := { rLeft : spec_float; rTop : spec_float;
                   rRight : spec_float; rBottom : spec_float }.

Module Rect.
Definition MakeEmpty : SkRect := Build_SkRect F32.zero F32.zero F32.zero F32.zero.
Definition Make (r : SkIRect) : SkRect :=
  Build_SkRect (F32.of_Z (fLeft r)) (F32.of_Z (fTop r))
               (F32.of_Z (fRight r)) (F32.of_Z (fBottom r)).
Definition MakeWH (w h : spec_float) : SkRect := Build_SkRect F32.zero F32.zero w h.
Definition width (r : SkRect) : spec_float := F32.sub (rRight r) (rLeft r).
Definition height (r : SkRect) : spec_float := F32.sub (rBottom r) (rTop r).
Definition isEmpty (r : SkRect) : bool :=
  negb (F32.ltb (rLeft r) (rRight r) && F32.ltb (rTop r) (rBottom r)).
Definition makeInset (r : SkRect) (dx dy : spec_float) : SkRect :=
  Build_SkRect (F32.add (rLeft r) dx) (F32.add (rTop r) dy)
               (F32.sub (rRight r) dx) (F32.sub (rBottom r) dy).
Definition makeOutset (r : SkRect) (dx dy : spec_float) : SkRect :=
  Build_SkRect (F32.sub (rLeft r) dx) (F32.sub (rTop r) dy)
               (F32.add (rRight r) dx) (F32.add (rBottom r) dy).
Definition fmax (a b : spec_float) : spec_float := if F32.ltb a b then b else a.
Definition fmin (a b : spec_float) : spec_float := if F32.ltb b a then b else a.
Definition intersect (a b : SkRect) : option SkRect :=
  let l := fmax (rLeft a) (rLeft b) in
  let t := fmax (rTop a) (rTop b) in
  let r := fmin (rRight a) (rRight b) in
  let bt := fmin (rBottom a) (rBottom b) in
  if F32.ltb l r && F32.ltb t bt then Some (Build_SkRect l t r bt) else None.
Definition roundOut (r : SkRect) : SkIRect :=
  Build_SkIRect (F32.floor2int (rLeft r)) (F32.floor2int (rTop r))
                (F32.ceil2int (rRight r)) (F32.ceil2int (rBottom r)).
Definition roundIn (r : SkRect) : SkIRect :=
  Build_SkIRect (F32.ceil2int (rLeft r)) (F32.ceil2int (rTop r))
                (F32.floor2int (rRight r)) (F32.floor2int (rBottom r)).
End Rect.

(** [SkIRect RoundOut(SkRect r)] and [SkIRect RoundIn(SkRect r)] *)
Definition RoundOut (r : SkRect) : SkIRect :=
  Rect.roundOut (Rect.makeInset r kRoundEpsilon kRoundEpsilon).
Definition RoundIn (r : SkRect) : SkIRect :=
  Rect.roundIn (Rect.makeOutset r kRoundEpsilon kRoundEpsilon).

(* ===================================================================== *)
(** ** Matrices and sampling options *)
(* ===================================================================== *)

(** [SkMatrix]: nine scalars in row-major order. *)
Record SkMatrix := {
  kMScaleX : spec_float; kMSkewX : spec_float; kMTransX : spec_float;
  kMSkewY : spec_float; kMScaleY : spec_float; kMTransY : spec_float;
  kMPersp0 : spec_float; kMPersp1 : spec_float; kMPersp2 : spec_float }.

Module Matrix.
Definition MakeAll (a b c d e f g h i : spec_float) : SkMatrix :=
  Build_SkMatrix a b c d e f g h i.
Definition ScaleTranslate (sx sy tx ty : spec_float) : SkMatrix :=
  MakeAll sx F32.zero tx F32.zero sy ty F32.zero F32.zero F32.one.
Definition I : SkMatrix := ScaleTranslate F32.one F32.one F32.zero F32.zero.
(** [SkMatrix::Translate(int, int)]: the integers become scalars. *)
Definition Translate (x y : Z) : SkMatrix :=
  ScaleTranslate F32.one F32.one (F32.of_Z x) (F32.of_Z y).
Definition entries (m : SkMatrix) : list spec_float :=
  [kMScaleX m; kMSkewX m; kMTransX m; kMSkewY m; kMScaleY m; kMTransY m;
   kMPersp0 m; kMPersp1 m; kMPersp2 m].
(** Modelled from the spec: the classification of [SkMatrix] ("Identity,
    Translation, ScaleTranslate, ...") is computed in [SkMatrix.cpp], which
    is not part of the sources at hand.  A matrix is scale-translate when it
    has neither skew nor perspective. *)
Definition isScaleTranslate (m : SkMatrix) : bool :=
  F32.eqb (kMSkewX m) F32.zero && F32.eqb (kMSkewY m) F32.zero &&
  F32.eqb (kMPersp0 m) F32.zero && F32.eqb (kMPersp1 m) F32.zero &&
  F32.eqb (kMPersp2 m) F32.one.
Definition isIdentity (m : SkMatrix) : bool :=
  isScaleTranslate m &&
  F32.eqb (kMScaleX m) F32.one && F32.eqb (kMScaleY m) F32.one &&
  F32.eqb (kMTransX m) F32.zero && F32.eqb (kMTransY m) F32.zero.
End Matrix.

Inductive SkFilterMode := kNearest | kLinear.
Inductive SkMipmapMode := kNone | kNearestMip | kLinearMip.

Record SkSamplingOptions := {
  maxAniso : Z;
  useCubic : bool;
  cubicB : spec_float;
  cubicC : spec_float;
  filter : SkFilterMode;
  mipmap : SkMipmapMode }.

Module Sampling.
Definition isAniso (s : SkSamplingOptions) : bool := negb (maxAniso s =? 0).
Definition Make (f : SkFilterMode) (m : SkMipmapMode) : SkSamplingOptions :=
  Build_SkSamplingOptions 0 false F32.zero F32.zero f m.
Definition Aniso (n : Z) : SkSamplingOptions :=
  Build_SkSamplingOptions (Z.max n 1) false F32.zero F32.zero kNearest kNone.
Definition filter_eqb (a b : SkFilterMode) : bool :=
  match a, b with kNearest, kNearest | kLinear, kLinear => true | _, _ => false end.
Definition mipmap_eqb (a b : SkMipmapMode) : bool :=
  match a, b with
  | kNone, kNone | kNearestMip, kNearestMip | kLinearMip, kLinearMip => true
  | _, _ => false
  end.
(** [operator==] *)
Definition eqb (a b : SkSamplingOptions) : bool :=
  (maxAniso a =? maxAniso b) && Bool.eqb (useCubic a) (useCubic b) &&
  F32.eqb (cubicB a) (cubicB b) && F32.eqb (cubicC a) (cubicC b) &&
  filter_eqb (filter a) (filter b) && mipmap_eqb (mipmap a) (mipmap b).
End Sampling.

(** [FilterResult::kDefaultSampling]: linear filtering, no mipmaps. *)
Definition kDefaultSampling : SkSamplingOptions := Sampling.Make kLinear kNone.
(** [SkSamplingOptions{}]: nearest neighbour. *)
Definition kNearestNeighbor : SkSamplingOptions := Sampling.Make kNearest kNone.

(** Modelled from the spec: the scalar helpers of
    [include/private/base/SkFloatingPoint.h] and [include/core/SkScalar.h] are
    not part of the sources at hand.  [SkScalarNearlyEqual] compares "with
    tolerance"; [SkScalarRoundToScalar] is "round", computed as
    [floor(x + 0.5)] in double precision. *)
Definition SkScalarNearlyEqual (x y tol : spec_float) : bool :=
  F32.leb (F32.abs (F32.sub x y)) tol.

Definition SkScalarRoundToScalar (x : spec_float) : spec_float :=
  match SFfloorZ (F64.add (F64.of_F32 x) (F64.div (F64.of_Z 1) (F64.of_Z 2))) with
  | Some v => F32.of_Z v
  | None => x
  end.

(** [bool is_nearly_integer_translation(m, out)]: [Some out] stands for
    [true]. *)
Definition is_nearly_integer_translation (m : SkMatrix) : option SkIPoint :=
  let tx := SkScalarRoundToScalar (F32.div (kMTransX m) (kMPersp2 m)) in
  let ty := SkScalarRoundToScalar (F32.div (kMTransY m) (kMPersp2 m)) in
  let expected := Matrix.MakeAll F32.one F32.zero tx
                                 F32.zero F32.one ty
                                 F32.zero F32.zero F32.one in
  if forallb (fun p => SkScalarNearlyEqual (fst p) (snd p) kRoundEpsilon)
             (combine (Matrix.entries expected) (Matrix.entries m))
  then Some (Build_SkIPoint (saturate2int SK_MinS32 SK_MaxS32 tx)
                            (saturate2int SK_MinS32 SK_MaxS32 ty))
  else None.

(** The "normalized periodic coordinates of 'output' relative to the 'crop'
    being tiled" along one axis: [periodL]/[periodT] for the low edge of the
    output and [periodR]/[periodB] for its high edge. *)
Definition period_low (cropLo cropHi outLo : Z) : Z :=
  let cropL := F64.of_Z cropLo in
  let cropWidth := F64.sub (F64.of_Z cropHi) cropL in
  F64.floor2int (F64.div (F64.sub (F64.of_Z outLo) cropL) cropWidth).

Definition period_high (cropLo cropHi outHi : Z) : Z :=
  let cropL := F64.of_Z cropLo in
  let cropWidth := F64.sub (F64.of_Z cropHi) cropL in
  F64.ceil2int (F64.div (F64.sub (F64.of_Z outHi) cropL) cropWidth).

(** Whether an axis is flipped: "if (tileMode == SkTileMode::kMirror) { if
    (periodL % 2 != 0) ..." *)
Definition axis_flipped (tileMode : SkTileMode) (period : Z) : bool :=
  SkTileMode_eqb tileMode kMirror && Z.odd period.

(** The scale [sx] and the double-precision translation [tx] of one axis. *)
Definition axis_scale (tileMode : SkTileMode) (period : Z) : spec_float :=
  if axis_flipped tileMode period then F32.opp F32.one else F32.one.

Definition axis_translate (tileMode : SkTileMode) (cropLo cropHi period : Z)
  : spec_float :=
  let cropL := F64.of_Z cropLo in
  let cropWidth := F64.sub (F64.of_Z cropHi) cropL in
  let tx0 := F64.opp cropL in
  let tx1 := if axis_flipped tileMode period then F64.sub cropWidth tx0 else tx0 in
  F64.add tx1 (F64.add (F64.mul (F64.of_Z period) cropWidth) cropL).

(** "sk_double_saturate2int(tx) != (float) tx" is false. *)
Definition round_trips_as_float (t : spec_float) : bool :=
  F32.eqb (F32.of_Z (saturate2int SK_MinS32 SK_MaxS32 t)) (F64.to_F32 t).

(** [periodic_axis_transform(tileMode, crop, output)] *)
Definition periodic_axis_transform (tileMode : SkTileMode) (crop output : SkIRect)
  : option SkMatrix :=
  match tileMode with
  | kClamp | kDecal => None
  | _ =>
    let periodL := period_low (fLeft crop) (fRight crop) (fLeft output) in
    let periodT := period_low (fTop crop) (fBottom crop) (fTop output) in
    let periodR := period_high (fLeft crop) (fRight crop) (fRight output) in
    let periodB := period_high (fTop crop) (fBottom crop) (fBottom output) in
    if (periodR - periodL <=? 1) && (periodB - periodT <=? 1) then
      let sx := axis_scale tileMode periodL in
      let sy := axis_scale tileMode periodT in
      let tx := axis_translate tileMode (fLeft crop) (fRight crop) periodL in
      let ty := axis_translate tileMode (fTop crop) (fBottom crop) periodT in
      if negb (round_trips_as_float tx) || negb (round_trips_as_float ty)
      then None
      else Some (Matrix.ScaleTranslate sx sy (F64.to_F32 tx) (F64.to_F32 ty))
    else None
  end.

(* ===================================================================== *)
(** ** Colours, images and the functions of Skia used from outside *)
(* ===================================================================== *)

Record SkColor4f := { cR : spec_float; cG : spec_float; cB : spec_float; cA : spec_float }.

Definition kTransparent : SkColor4f :=
  Build_SkColor4f F32.zero F32.zero F32.zero F32.zero.

Definition SkColor4f_eqb (a b : SkColor4f) : bool :=
  F32.eqb (cR a) (cR b) && F32.eqb (cG a) (cG b) &&
  F32.eqb (cB a) (cB b) && F32.eqb (cA a) (cA b).

(** A colour filter is the function it computes on (premultiplied) colours. *)
Definition SkColorFilter := SkColor4f -> SkColor4f.

(** [SkColorFilterBase::affectsTransparentBlack()] *)
Definition affectsTransparentBlack (cf : SkColorFilter) : bool :=
  negb (SkColor4f_eqb (cf kTransparent) kTransparent).

(** Modelled from the spec: [SkColorFilters::Compose(outer, inner)] of
    [src/core/SkColorFilter.cpp] is not part of the sources at hand.  The
    composition applies [inner] first and [outer] to its result; a null
    operand leaves the other one. *)
Definition Compose (outer inner : option SkColorFilter) : option SkColorFilter :=
  match outer, inner with
  | None, _ => inner
  | Some o, None => Some o
  | Some o, Some i => Some (fun x => o (i x))
  end.

(** Modelled from the spec: the [SkSpecialImage] interface
    ([dimensions], [subset], [backingStoreDimensions], [getColorSpace],
    [makeSubset], [isExactFit]).  An image is a window [imgSubset] onto a
    backing store of pixels. *)
Record SkSpecialImage := {
  imgPixels : Z -> Z -> SkColor4f;
  imgSubset : SkIRect;
  imgBacking : SkISize;
  imgColorType : Z;
  imgColorSpace : Z }.

Module Image.
Definition width (i : SkSpecialImage) : Z := IRect.width (imgSubset i).
Definition height (i : SkSpecialImage) : Z := IRect.height (imgSubset i).
Definition dimensions (i : SkSpecialImage) : SkISize := IRect.size (imgSubset i).
(** [makeSubset(subset)]: [subset] is relative to the current window. *)
Definition makeSubset (i : SkSpecialImage) (subset : SkIRect) : SkSpecialImage :=
  Build_SkSpecialImage (imgPixels i)
    (Build_SkIRect (fLeft subset + fLeft (imgSubset i)) (fTop subset + fTop (imgSubset i))
                   (fRight subset + fLeft (imgSubset i)) (fBottom subset + fTop (imgSubset i)))
    (imgBacking i) (imgColorType i) (imgColorSpace i).
Definition isExactFit (i : SkSpecialImage) : bool :=
  IRect.eqb (imgSubset i) (IRect.MakeSize (imgBacking i)).
(** The colour of the pixel [(u, v)] of the window. *)
Definition pixel (i : SkSpecialImage) (u v : Z) : SkColor4f :=
  imgPixels i (u + fLeft (imgSubset i)) (v + fTop (imgSubset i)).
End Image.

(** The geometric predicates and matrix routines of [SkRectPriv],
    [SkMatrixPriv] and [SkMatrix] that the filter code calls but that are
    defined in files outside the sources at hand.  The development is
    parametric in them. *)
Record Externals := {
  (** [SkMatrix::mapRect] *)
  sk_mapRect : SkMatrix -> SkRect -> SkRect;
  (** [SkMatrixPriv::InverseMapRect]; [None] when not invertible *)
  sk_InverseMapRect : SkMatrix -> SkRect -> option SkRect;
  (** [SkMatrix::Concat] for operands that are not both scale-translate *)
  sk_ConcatGeneral : SkMatrix -> SkMatrix -> SkMatrix;
  (** [SkRectPriv::QuadContainsRect(SkMatrix, SkIRect, SkIRect, tol)] *)
  sk_QuadContainsIRect : SkMatrix -> SkIRect -> SkIRect -> spec_float -> bool;
  (** [SkRectPriv::QuadContainsRect(SkM44, SkRect, SkRect, tol)] *)
  sk_QuadContainsRect : SkMatrix -> SkRect -> SkRect -> spec_float -> bool;
  (** [SkRectPriv::QuadContainsRectMask], edges ordered T, R, B, L *)
  sk_QuadContainsRectMask :
    SkMatrix -> SkRect -> SkRect -> spec_float -> bool * bool * bool * bool;
  (** [SkMatrix::getMinMaxScales] *)
  sk_getMinMaxScales : SkMatrix -> option (spec_float * spec_float) }.

(** Modelled from the spec: [SkMatrix::Concat(a, b)] is defined in
    [SkMatrix.cpp].  The product [a * b] keeps an identity operand's partner
    unchanged and multiplies scale-translate operands entry-wise in single
    precision. *)
Definition Concat (ext : Externals) (a b : SkMatrix) : SkMatrix :=
  if Matrix.isIdentity a then b
  else if Matrix.isIdentity b then a
  else if Matrix.isScaleTranslate a && Matrix.isScaleTranslate b then
    Matrix.ScaleTranslate
      (F32.mul (kMScaleX a) (kMScaleX b))
      (F32.mul (kMScaleY a) (kMScaleY b))
      (F32.add (F32.mul (kMScaleX a) (kMTransX b)) (kMTransX a))
      (F32.add (F32.mul (kMScaleY a) (kMTransY b)) (kMTransY a))
  else sk_ConcatGeneral ext a b.

(** [LayerSpace<SkMatrix>::postConcat(m)]: [this = m * this]. *)
Definition postConcat (ext : Externals) (this m : SkMatrix) : SkMatrix :=
  Concat ext m this.

(* ===================================================================== *)
(** ** Mapping *)
(* ===================================================================== *)

(** The scale-translate branch of [Mapping::map<SkIRect>] and of
    [inverseMapRect]: round the double-precision edges with the epsilon
    guard. *)
Definition round_edges (l r t b : spec_float) : SkIRect :=
  let eps := F64.of_F32 kRoundEpsilon in
  Build_SkIRect
    (F64.floor2int (F64.add (F64.min l r) eps))
    (F64.floor2int (F64.add (F64.min t b) eps))
    (F64.ceil2int (F64.sub (F64.max l r) eps))
    (F64.ceil2int (F64.sub (F64.max t b) eps)).

(** The branch "if (matrix.isScaleTranslate())" of [Mapping::map<SkIRect>]:
    the edges are mapped in double precision and rounded with the guard. *)
Definition map_scale_translate (geom : SkIRect) (matrix : SkMatrix) : SkIRect :=
  let sx := F64.of_F32 (kMScaleX matrix) in
  let sy := F64.of_F32 (kMScaleY matrix) in
  let tx := F64.of_F32 (kMTransX matrix) in
  let ty := F64.of_F32 (kMTransY matrix) in
  let l := F64.add (F64.mul sx (F64.of_Z (fLeft geom))) tx in
  let r := F64.add (F64.mul sx (F64.of_Z (fRight geom))) tx in
  let t := F64.add (F64.mul sy (F64.of_Z (fTop geom))) ty in
  let b := F64.add (F64.mul sy (F64.of_Z (fBottom geom))) ty in
  round_edges l r t b.

(** [template<> SkIRect Mapping::map<SkIRect>(geom, matrix)] *)
Definition map_SkIRect (ext : Externals) (geom : SkIRect) (matrix : SkMatrix) : SkIRect :=
  if IRect.isEmpty geom then IRect.MakeEmpty
  else if Matrix.isScaleTranslate matrix then map_scale_translate geom matrix
  else RoundOut (sk_mapRect ext matrix (Rect.Make geom)).

(** [LayerSpace<SkMatrix>::mapRect(const LayerSpace<SkIRect>&)] *)
Definition mapRect (ext : Externals) (m : SkMatrix) (r : SkIRect) : SkIRect :=
  map_SkIRect ext r m.

(** [bool LayerSpace<SkMatrix>::inverseMapRect(const LayerSpace<SkIRect>&,
    LayerSpace<SkIRect>* out)]: [Some out] stands for [true]. *)
Definition inverseMapRect (ext : Externals) (fData : SkMatrix) (rect : SkIRect)
  : option SkIRect :=
  if IRect.isEmpty rect then Some IRect.MakeEmpty
  else if Matrix.isScaleTranslate fData then
    if F32.eqb (kMScaleX fData) F32.zero || F32.eqb (kMScaleY fData) F32.zero then None
    else
      let sx := F64.of_F32 (kMScaleX fData) in
      let sy := F64.of_F32 (kMScaleY fData) in
      let tx := F64.of_F32 (kMTransX fData) in
      let ty := F64.of_F32 (kMTransY fData) in
      let l := F64.div (F64.sub (F64.of_Z (fLeft rect)) tx) sx in
      let r := F64.div (F64.sub (F64.of_Z (fRight rect)) tx) sx in
      let t := F64.div (F64.sub (F64.of_Z (fTop rect)) ty) sy in
      let b := F64.div (F64.sub (F64.of_Z (fBottom rect)) ty) sy in
      Some (round_edges l r t b)
  else
    match sk_InverseMapRect ext fData (Rect.Make rect) with
    | Some mapped => Some (RoundOut mapped)
    | None => None
    end.

(* ===================================================================== *)
(** ** Context, statistics and surfaces *)
(* ===================================================================== *)

(** [skif::Stats]: the sink that a [Context] updates while filters run. *)
Record Stats := {
  fNumVisitedImageFilters : Z;
  fNumCacheHits : Z;
  fNumOffscreenSurfaces : Z;
  fNumShaderClampedDraws : Z;
  fNumShaderBasedTilingDraws : Z }.

(** Computations that update the statistics. *)
Definition M (A : Type) : Type := Stats -> A * Stats.
Definition ret {A : Type} (a : A) : M A := fun st => (a, st).
Definition bind {A B : Type} (c : M A) (k : A -> M B) : M B :=
  fun st => let '(a, st') := c st in k a st'.

Declare Scope stats_scope.
Delimit Scope stats_scope with stats.
Notation "x <- c ;; k" := (bind c (fun x => k))
  (at level 61, c at next level, right associativity) : stats_scope.
Notation "c ;;; k" := (bind c (fun _ => k))
  (at level 61, right associativity) : stats_scope.
Local Open Scope stats_scope.

(** [Context::markNewSurface()] *)
Definition markNewSurface : M unit := fun st =>
  (tt, Build_Stats (fNumVisitedImageFilters st) (fNumCacheHits st)
                   (fNumOffscreenSurfaces st + 1)
                   (fNumShaderClampedDraws st) (fNumShaderBasedTilingDraws st)).

(** [Context::markShaderBasedTilingRequired(tileMode)] *)
Definition markShaderBasedTilingRequired (tileMode : SkTileMode) : M unit := fun st =>
  (tt, match tileMode with
       | kClamp =>
           Build_Stats (fNumVisitedImageFilters st) (fNumCacheHits st)
                       (fNumOffscreenSurfaces st)
                       (fNumShaderClampedDraws st + 1) (fNumShaderBasedTilingDraws st)
       | _ =>
           Build_Stats (fNumVisitedImageFilters st) (fNumCacheHits st)
                       (fNumOffscreenSurfaces st)
                       (fNumShaderClampedDraws st) (fNumShaderBasedTilingDraws st + 1)
       end).

(** [FilterResult]: "a lazy description of an image plus a pending
    axis-aligned transform, sampling policy, tile mode, color filter, and
    layer-space crop rectangle". *)
Record FilterResult := {
  fImage : option SkSpecialImage;
  fSamplingOptions : SkSamplingOptions;
  fTileMode : SkTileMode;
  fTransform : SkMatrix;
  fColorFilter : option SkColorFilter;
  fLayerBounds : SkIRect }.

(** [enum class BoundsAnalysis], one boolean per flag. *)
Record BoundsAnalysis := {
  kRequiresLayerCrop : bool;
  kDstBoundsNotCovered : bool;
  kHasLayerFillingEffect : bool;
  kRequiresShaderTiling : bool;
  kRequiresDecalInLayerSpace : bool }.

(** What a surface is asked to draw before it is snapped. *)
Inductive DrawCmd :=
| DrawFilterResult (f : FilterResult) (localToDevice : SkMatrix)
                   (sampling : SkSamplingOptions) (analysis : BoundsAnalysis)
| DrawImageShader (image : SkSpecialImage) (tileMode : SkTileMode)
                  (origin : SkIPoint) (localToDevice : SkMatrix)
| DrawFilteredColor (color : SkColor4f) (cf : SkColorFilter).

(** The [Backend] interface: device allocation (which "may return none"),
    the backing-store size of a device of a requested size, and the pixels a
    device holds after a draw into the given layer-space bounds. *)
Record Backend := {
  bkMakeDevice : SkISize -> option SkISize;
  bkColorType : Z;
  bkRender : SkIRect -> DrawCmd -> Z -> Z -> SkColor4f }.

(** [Context]: the desired output, the backend and the target colour
    space. *)
Record Context := {
  desiredOutput : SkIRect;
  backend : Backend;
  colorSpace : Z }.

(** [FilterResult::AutoSurface]: the layer-space bounds it was made for and
    the backing store of its device; [None] when no device was created. *)
Record AutoSurface := {
  surfDstBounds : SkIRect;
  surfDevice : option SkISize }.

(** The constructor of [AutoSurface]. *)
Definition AutoSurface_make (ctx : Context) (dstBounds : SkIRect) : M AutoSurface :=
  markNewSurface ;;;
  ret (Build_AutoSurface dstBounds
         (if IRect.isEmpty dstBounds then None
          else bkMakeDevice (backend ctx) (IRect.size dstBounds))).

(** [AutoSurface::snap()], given what was drawn. *)
Definition snap (ctx : Context) (surface : AutoSurface) (drawn : DrawCmd)
  : option SkSpecialImage * SkIPoint :=
  match surfDevice surface with
  | Some backing =>
      (Some (Build_SkSpecialImage
               (bkRender (backend ctx) (surfDstBounds surface) drawn)
               (IRect.MakeWH (IRect.width (surfDstBounds surface))
                             (IRect.height (surfDstBounds surface)))
               backing (bkColorType (backend ctx)) (colorSpace ctx)),
       IRect.topLeft (surfDstBounds surface))
  | None => (None, Build_SkIPoint 0 0)
  end.

(* ===================================================================== *)
(** ** FilterResult *)
(* ===================================================================== *)

(** Modelled from the spec: the constructor [FilterResult(image, origin)] is
    declared in [SkImageFilterTypes.h], which is not part of the sources at
    hand.  The result is decal-tiled with default sampling and no colour
    filter; its transform translates the image to [origin], and its layer
    bounds are what that transform makes of the image's pixel rectangle: the
    transform "maps the image's pixel rectangle [[0, w) x [0, h)] into layer
    space", and the layer bounds include "the image mapped by the original
    fTransform" (an empty rectangle without an image).  The transform is a
    translation, so [mapRect] takes the scale-translate branch; the origin
    reaches the bounds through its [float] value. *)
Definition FilterResult_make (image : option SkSpecialImage) (origin : SkIPoint)
  : FilterResult :=
  let transform := Matrix.Translate (ipX origin) (ipY origin) in
  let dimensions :=
    IRect.MakeSize (match image with
                    | Some i => Image.dimensions i
                    | None => Build_SkISize 0 0
                    end) in
  Build_FilterResult image kDefaultSampling kDecal transform None
    (if IRect.isEmpty dimensions then IRect.MakeEmpty
     else map_scale_translate dimensions transform).

(** The default-constructed, empty [FilterResult] ([return {};]). *)
Definition FilterResult_empty : FilterResult :=
  FilterResult_make None (Build_SkIPoint 0 0).

(** The implicit conversion of an (image, origin) pair. *)
Definition FilterResult_of_pair (p : option SkSpecialImage * SkIPoint) : FilterResult :=
  FilterResult_make (fst p) (snd p).

Definition kSimple : BoundsAnalysis := Build_BoundsAnalysis false false false false false.

(** [extract_subset(image, origin, dstBounds, clampSrcIfDisjoint)] *)
Definition extract_subset (image : SkSpecialImage) (origin : SkIPoint)
           (dstBounds : SkIRect) (clampSrcIfDisjoint : bool)
  : option SkSpecialImage * SkIPoint :=
  let imageBounds0 := IRect.MakeXYWH (ipX origin) (ipY origin)
                                     (Image.width image) (Image.height image) in
  let imageBounds := relevantSubset imageBounds0 dstBounds
                       (if clampSrcIfDisjoint then kClamp else kDecal) in
  if IRect.isEmpty imageBounds then (None, Build_SkIPoint 0 0)
  else
    let subset := Build_SkIRect (fLeft imageBounds - ipX origin)
                                (fTop imageBounds - ipY origin)
                                (fRight imageBounds - ipX origin)
                                (fBottom imageBounds - ipY origin) in
    (Some (Image.makeSubset image subset), IRect.topLeft imageBounds).

Section Pipeline.
Variable ext : Externals.

(** Whether a tile mode or a colour filter paints beyond the image:
    [fillsLayerBounds] of [analyzeBounds]. *)
Definition fillsLayerBounds (f : FilterResult) : bool :=
  negb (SkTileMode_eqb (fTileMode f) kDecal) ||
  match fColorFilter f with
  | Some cf => affectsTransparentBlack cf
  | None => false
  end.

(** [FilterResult::analyzeBounds(xtraTransform, dstBounds)]; [image] is the
    receiver's non-null [fImage]. *)
Definition analyzeBounds (f : FilterResult) (image : SkSpecialImage)
           (xtraTransform : SkMatrix) (dstBounds : SkIRect) : BoundsAnalysis :=
  let kHalfPixel := F32.lit 1 2 in
  let kCubicRadius := F32.lit 3 2 in
  let fills := fillsLayerBounds f in
  (* 1. Is the layer geometry visible in dstBounds *)
  let requireLayerCrop :=
    if sk_QuadContainsIRect ext xtraTransform (fLayerBounds f) dstBounds kRoundEpsilon
    then false
    else if fills then true
    else negb (IRect.contains (fLayerBounds f)
                 (mapRect ext (fTransform f) (IRect.MakeSize (Image.dimensions image)))) in
  let pixelCenterBounds :=
    if requireLayerCrop then
      match Rect.intersect (Rect.Make dstBounds)
              (Rect.Make (map_SkIRect ext (fLayerBounds f) xtraTransform)) with
      | Some r => r
      | None => Rect.Make dstBounds
      end
    else Rect.Make dstBounds in
  (* 2. Are the tiling and deferred color filter effects visible *)
  let imageBounds := Rect.Make (IRect.MakeSize (Image.dimensions image)) in
  let netTransform := postConcat ext (fTransform f) xtraTransform in
  let notCovered :=
    negb (sk_QuadContainsRect ext netTransform imageBounds pixelCenterBounds kRoundEpsilon) in
  (* 3. Would image pixels outside of its subset be sampled *)
  let sampleRadius := if useCubic (fSamplingOptions f) then kCubicRadius else kHalfPixel in
  let safeImageBounds0 := Rect.makeInset imageBounds sampleRadius sampleRadius in
  let safeImageBounds :=
    if Sampling.eqb (fSamplingOptions f) kDefaultSampling &&
       negb (match is_nearly_integer_translation netTransform with
             | Some _ => true | None => false end)
    then Rect.makeInset safeImageBounds0 kRoundEpsilon kRoundEpsilon
    else safeImageBounds0 in
  let pixelCenterBounds' := Rect.makeInset pixelCenterBounds kHalfPixel kHalfPixel in
  let '(eT, eR, eB, eL) :=
    sk_QuadContainsRectMask ext netTransform safeImageBounds pixelCenterBounds'
                            kRoundEpsilon in
  let allInside := eT && eR && eB && eL in
  let hT := fTop (imgSubset image) =? 0 in
  let hR := fRight (imgSubset image) =? isWidth (imgBacking image) in
  let hB := fBottom (imgSubset image) =? isHeight (imgBacking image) in
  let hL := fLeft (imgSubset image) =? 0 in
  let '(hT', hR', hB', hL') :=
    match fTileMode f with
    | kRepeat | kMirror => (hT && hB, hR && hL, hB && hT, hL && hR)
    | _ => (hT, hR, hB, hL)
    end in
  let shaderTiling :=
    negb allInside && negb ((eT || hT') && (eR || hR') && (eB || hB') && (eL || hL')) in
  let decalInLayer :=
    negb allInside && SkTileMode_eqb (fTileMode f) kDecal &&
    negb (Sampling.eqb (fSamplingOptions f) kNearestNeighbor) &&
    negb (match sk_getMinMaxScales ext netTransform with
          | Some (s0, s1) =>
              SkScalarNearlyEqual s0 F32.one (F32.lit 2 10) &&
              SkScalarNearlyEqual s1 F32.one (F32.lit 2 10)
          | None => false
          end) in
  Build_BoundsAnalysis requireLayerCrop notCovered (notCovered && fills)
                       shaderTiling decalInLayer.

(** [void FilterResult::updateTileMode(ctx, tileMode)] *)
Definition updateTileMode (ctx : Context) (f : FilterResult) (tileMode : SkTileMode)
  : FilterResult :=
  match fImage f with
  | Some _ =>
      Build_FilterResult (fImage f) (fSamplingOptions f) tileMode (fTransform f)
        (fColorFilter f)
        (match tileMode with
         | kDecal => fLayerBounds f
         | _ => desiredOutput ctx
         end)
  | None => f
  end.

(** The statistics updated by [getAnalyzedShaderView]; the shader itself is
    pixel production. *)
Definition getAnalyzedShaderView_stats (f : FilterResult) (analysis : BoundsAnalysis)
  : M unit :=
  let effectiveTileMode :=
    if negb (kDstBoundsNotCovered analysis) || kRequiresDecalInLayerSpace analysis
    then kClamp else fTileMode f in
  if kRequiresShaderTiling analysis
  then markShaderBasedTilingRequired effectiveTileMode
  else ret tt.

(** [FilterResult::draw(ctx, device, preserveDeviceState, blender)] with a
    null blender, as [resolve] calls it: the statistics it updates and the
    draw it issues to the device. *)
Definition draw (f : FilterResult) (image : SkSpecialImage)
           (localToDevice : SkMatrix) (devClipBounds : SkIRect) : M DrawCmd :=
  let analysis := analyzeBounds f image localToDevice devClipBounds in
  let sampling :=
    if Sampling.eqb (fSamplingOptions f) kDefaultSampling &&
       match is_nearly_integer_translation (fTransform f),
             is_nearly_integer_translation localToDevice with
       | Some _, Some _ => true
       | _, _ => false
       end
    then kNearestNeighbor else fSamplingOptions f in
  (if kHasLayerFillingEffect analysis then getAnalyzedShaderView_stats f analysis
   else if kRequiresShaderTiling analysis then markShaderBasedTilingRequired kClamp
   else ret tt) ;;;
  ret (DrawFilterResult f localToDevice sampling analysis).

(** The local-to-device matrix and the device clip of the device that an
    [AutoSurface] for [dstBounds] wraps. *)
Definition surface_localToDevice (dstBounds : SkIRect) : SkMatrix :=
  Matrix.Translate (- fLeft dstBounds) (- fTop dstBounds).
Definition surface_devClipBounds (dstBounds : SkIRect) : SkIRect :=
  IRect.MakeWH (IRect.width dstBounds) (IRect.height dstBounds).

(** [FilterResult::resolve(ctx, dstBounds, preserveTransparency)] *)
Definition resolve (ctx : Context) (f : FilterResult) (dstBounds : SkIRect)
           (preserveTransparency : bool) : M (option SkSpecialImage * SkIPoint) :=
  match fImage f with
  | None => ret (None, Build_SkIPoint 0 0)
  | Some image =>
      match (if preserveTransparency then Some dstBounds
             else IRect.intersect dstBounds (fLayerBounds f)) with
      | None => ret (None, Build_SkIPoint 0 0)
      | Some dstBounds =>
          let subsetCompatible :=
            match fColorFilter f with None => true | Some _ => false end &&
            SkTileMode_eqb (fTileMode f) kDecal && negb preserveTransparency in
          match (if subsetCompatible then is_nearly_integer_translation (fTransform f)
                 else None) with
          | Some origin => ret (extract_subset image origin dstBounds false)
          | None =>
              surface <- AutoSurface_make ctx dstBounds ;;
              match surfDevice surface with
              | Some _ =>
                  drawn <- draw f image (surface_localToDevice dstBounds)
                                        (surface_devClipBounds dstBounds) ;;
                  ret (snap ctx surface drawn)
              | None => ret (None, Build_SkIPoint 0 0)
              end
          end
      end
  end.

(** [compatible_sampling(currentSampling, currentXformWontAffectNearest,
    nextSampling, nextXformWontAffectNearest)]: [Some s] stands for [true]
    with [*nextSampling = s]. *)
Definition compatible_sampling (currentSampling : SkSamplingOptions)
           (currentXformWontAffectNearest : bool)
           (nextSampling : SkSamplingOptions)
           (nextXformWontAffectNearest : bool) : option SkSamplingOptions :=
  let isLinear s := Sampling.filter_eqb (filter s) kLinear in
  let isNearest s := Sampling.filter_eqb (filter s) kNearest in
  if Sampling.isAniso currentSampling && Sampling.isAniso nextSampling then
    Some (Sampling.Aniso (Z.max (maxAniso currentSampling) (maxAniso nextSampling)))
  else if Sampling.isAniso currentSampling && isLinear nextSampling then
    Some currentSampling
  else if Sampling.isAniso nextSampling && isLinear currentSampling then
    Some nextSampling
  else if useCubic currentSampling &&
          (isLinear nextSampling ||
           (useCubic nextSampling &&
            F32.eqb (cubicB currentSampling) (cubicB nextSampling) &&
            F32.eqb (cubicC currentSampling) (cubicC nextSampling))) then
    Some currentSampling
  else if useCubic nextSampling && isLinear currentSampling then
    Some nextSampling
  else if isLinear currentSampling && isLinear nextSampling then
    Some nextSampling
  else if isNearest nextSampling && currentXformWontAffectNearest then
    Some nextSampling
  else if isNearest currentSampling && nextXformWontAffectNearest then
    Some currentSampling
  else None.

Definition isSome {A : Type} (o : option A) : bool :=
  match o with Some _ => true | None => false end.

(** The tail of [applyTransform], from "transformed.fSamplingOptions =
    nextSampling;" on: concatenate, map the layer bounds and restrict them
    to the desired output. *)
Definition applyTransform_finish (ctx : Context) (transformed : FilterResult)
           (transform : SkMatrix) (nextSampling : SkSamplingOptions) : FilterResult :=
  match IRect.intersect (mapRect ext transform (fLayerBounds transformed))
                        (desiredOutput ctx) with
  | None => FilterResult_empty
  | Some bounds =>
      Build_FilterResult (fImage transformed) nextSampling (fTileMode transformed)
        (postConcat ext (fTransform transformed) transform)
        (fColorFilter transformed) bounds
  end.

(** [FilterResult::applyTransform(ctx, transform, sampling)] *)
Definition applyTransform (ctx : Context) (f : FilterResult) (transform : SkMatrix)
           (sampling : SkSamplingOptions) : M FilterResult :=
  match fImage f with
  | None => ret FilterResult_empty
  | Some image =>
    if IRect.isEmpty (desiredOutput ctx) then ret FilterResult_empty
    else
      let currentXformIsInteger := isSome (is_nearly_integer_translation (fTransform f)) in
      let nextXformIsInteger := isSome (is_nearly_integer_translation transform) in
      let nextSampling0 := if nextXformIsInteger then kDefaultSampling else sampling in
      let isCropped :=
        negb nextXformIsInteger &&
        kRequiresLayerCrop (analyzeBounds f image transform (desiredOutput ctx)) in
      match (if isCropped then None
             else compatible_sampling (fSamplingOptions f) currentXformIsInteger
                                      nextSampling0 nextXformIsInteger) with
      | Some nextSampling => ret (applyTransform_finish ctx f transform nextSampling)
      | None =>
          match inverseMapRect ext transform (desiredOutput ctx) with
          | Some tightBounds =>
              p <- resolve ctx f tightBounds false ;;
              match fst p with
              | Some _ =>
                  ret (applyTransform_finish ctx (FilterResult_of_pair p)
                                             transform nextSampling0)
              | None => ret FilterResult_empty
              end
          | None => ret FilterResult_empty
          end
      end
  end.

Definition with_layerBounds (f : FilterResult) (b : SkIRect) : FilterResult :=
  Build_FilterResult (fImage f) (fSamplingOptions f) (fTileMode f) (fTransform f)
                     (fColorFilter f) b.

Definition with_colorFilter (f : FilterResult) (cf : option SkColorFilter)
  : FilterResult :=
  Build_FilterResult (fImage f) (fSamplingOptions f) (fTileMode f) (fTransform f)
                     cf (fLayerBounds f).

(** The normalisation step of [applyCrop] ("bool preserveTransparencyInCrop
    = false; if (tileMode == SkTileMode::kDecal) ..."): the tile mode, the
    fitted crop, the crop content and the flag it leaves. *)
Definition normalize_crop (ctx : Context) (f : FilterResult) (tileMode : SkTileMode)
           (fittedCrop cropContent : SkIRect)
  : SkTileMode * SkIRect * SkIRect * bool :=
  if SkTileMode_eqb tileMode kDecal then
    (tileMode, cropContent, cropContent, false)
  else if IRect.contains fittedCrop (desiredOutput ctx) then
    (kDecal, desiredOutput ctx, cropContent, false)
  else if negb (IRect.contains cropContent fittedCrop) then
    if SkTileMode_eqb (fTileMode f) kDecal && SkTileMode_eqb tileMode kClamp then
      let cropContent' := IRect.outset cropContent (Build_SkISize 1 1) in
      (tileMode,
       match IRect.intersect fittedCrop cropContent' with
       | Some r => r
       | None => fittedCrop
       end,
       cropContent', true)
    else (tileMode, fittedCrop, cropContent, true)
  else (tileMode, fittedCrop, cropContent, false).

(** [FilterResult::applyCrop(ctx, crop, tileMode)] *)
Definition applyCrop (ctx : Context) (f : FilterResult) (crop : SkIRect)
           (tileMode : SkTileMode) : M FilterResult :=
  if IRect.isEmpty crop || IRect.isEmpty (desiredOutput ctx) then ret FilterResult_empty
  else
    match fImage f with
    | None => ret FilterResult_empty
    | Some image =>
      match IRect.intersect crop (fLayerBounds f) with
      | None => ret FilterResult_empty
      | Some cropContent0 =>
        let fittedCrop0 := relevantSubset crop (desiredOutput ctx) tileMode in
        match IRect.intersect cropContent0 fittedCrop0 with
        | None => ret FilterResult_empty
        | Some cropContent1 =>
          match periodic_axis_transform tileMode fittedCrop0 (desiredOutput ctx) with
          | Some periodicTransform =>
              applyTransform ctx f periodicTransform kDefaultSampling
          | None =>
            let '(tileMode', fittedCrop, _, preserveTransparencyInCrop) :=
              normalize_crop ctx f tileMode fittedCrop0 cropContent1 in
            let doubleClamp :=
              SkTileMode_eqb (fTileMode f) kClamp && SkTileMode_eqb tileMode' kClamp in
            match (if preserveTransparencyInCrop then None
                   else match is_nearly_integer_translation (fTransform f) with
                        | Some origin =>
                            if doubleClamp ||
                               negb (kHasLayerFillingEffect
                                       (analyzeBounds f image Matrix.I fittedCrop))
                            then Some origin else None
                        | None => None
                        end) with
            | Some origin =>
                let restrictedOutput :=
                  FilterResult_of_pair (extract_subset image origin fittedCrop doubleClamp) in
                ret (updateTileMode ctx
                       (with_colorFilter restrictedOutput (fColorFilter f)) tileMode')
            | None =>
                if SkTileMode_eqb tileMode' kDecal then
                  ret (with_layerBounds f fittedCrop)
                else
                  p <- resolve ctx f fittedCrop true ;;
                  ret (updateTileMode ctx (FilterResult_of_pair p) tileMode')
            end
          end
        end
      end
    end.

(** [FilterResult::applyColorFilter(ctx, colorFilter)] *)
Definition applyColorFilter (ctx : Context) (f : FilterResult) (colorFilter : SkColorFilter)
  : M FilterResult :=
  if IRect.isEmpty (desiredOutput ctx) then ret FilterResult_empty
  else
    let visible :=
      match fImage f with
      | Some image =>
          match IRect.intersect (fLayerBounds f) (desiredOutput ctx) with
          | Some b => Some (image, b)
          | None => None
          end
      | None => None
      end in
    let composed (newLayerBounds : SkIRect) : FilterResult :=
      Build_FilterResult (fImage f) (fSamplingOptions f) (fTileMode f) (fTransform f)
        (Compose (Some colorFilter) (fColorFilter f)) newLayerBounds in
    if affectsTransparentBlack colorFilter then
      match visible with
      | None =>
          let dst := IRect.MakeXYWH (fLeft (desiredOutput ctx)) (fTop (desiredOutput ctx)) 1 1 in
          surface <- AutoSurface_make ctx dst ;;
          let solidColor :=
            FilterResult_of_pair
              (snap ctx surface (DrawFilteredColor kTransparent colorFilter)) in
          ret (updateTileMode ctx solidColor kClamp)
      | Some (image, newLayerBounds) =>
          if kRequiresLayerCrop (analyzeBounds f image Matrix.I (desiredOutput ctx)) then
            let outset := IRect.outset newLayerBounds (Build_SkISize 1 1) in
            let newLayerBounds' :=
              match IRect.intersect outset (desiredOutput ctx) with
              | Some b => b
              | None => outset
              end in
            p <- resolve ctx f newLayerBounds' true ;;
            ret (updateTileMode ctx
                   (with_colorFilter (FilterResult_of_pair p) (Some colorFilter)) kClamp)
          else ret (composed (desiredOutput ctx))
      end
    else
      match visible with
      | None => ret FilterResult_empty
      | Some (_, newLayerBounds) => ret (composed newLayerBounds)
      end.

(** Modelled from the spec: [SkMatrix::RectToRect(src, dst)] of
    [SkMatrix.cpp] is not part of the sources at hand; it is the
    scale-translate matrix "that maps" [src] onto [dst] (the identity for
    an empty [src]). *)
Definition RectToRect (src dst : SkRect) : SkMatrix :=
  if Rect.isEmpty src then Matrix.I
  else if Rect.isEmpty dst then
    Matrix.MakeAll F32.zero F32.zero F32.zero F32.zero F32.zero F32.zero
                   F32.zero F32.zero F32.one
  else
    let sx := F32.div (Rect.width dst) (Rect.width src) in
    let sy := F32.div (Rect.height dst) (Rect.height src) in
    Matrix.ScaleTranslate sx sy
      (F32.sub (rLeft dst) (F32.mul (rLeft src) sx))
      (F32.sub (rTop dst) (F32.mul (rTop src) sy)).

(** How the [while] loop of [rescale] ends. *)
Inductive LoopResult :=
| LoopOutOfFuel
| LoopNoSurface
| LoopDone (image : option SkSpecialImage) (origin : SkIPoint)
           (tileMode : SkTileMode) (stepBoundsF : SkRect).

(** One axis of "float sx = 1.f; if (xSteps > 0) { ... xSteps--; }". *)
Definition step_scale (steps srcLen : Z) (scaleLen stepLen : spec_float)
  : spec_float * Z :=
  if 0 <? steps then
    (if 1 <? steps then F32.lit 1 2
     else F32.div (F32.mul (F32.of_Z srcLen) scaleLen) stepLen,
     steps - 1)
  else (F32.one, steps).

(** The padding "int px = std::max(1, sk_float_ceil2int((sx*srcFracX -
    dstFracX)))" of one axis. *)
Definition step_padding (s : spec_float) (stepPixelEdge dstPixelEdge : Z)
           (stepEdgeF dstEdgeF : spec_float) : Z :=
  let half := F32.lit 1 2 in
  let srcFrac := F32.sub (F32.sub (F32.of_Z stepPixelEdge) stepEdgeF) half in
  let dstFrac := F32.sub (F32.sub (F32.of_Z dstPixelEdge) dstEdgeF) half in
  Z.max 1 (F32.ceil2int (F32.sub (F32.mul s srcFrac) dstFrac)).

(** The loop "while(!image || xSteps > 0 || ySteps > 0)" of [rescale]. *)
Fixpoint rescale_loop (fuel : nat) (ctx : Context) (f : FilterResult)
         (image0 : SkSpecialImage) (srcRect : SkIRect) (scaleW scaleH : spec_float)
         (image : option SkSpecialImage) (origin : SkIPoint) (xSteps ySteps : Z)
         (tileMode : SkTileMode) (stepBoundsF : SkRect) (stepPixelBounds : SkIRect)
  : M LoopResult :=
  if negb (negb (isSome image) || (0 <? xSteps) || (0 <? ySteps)) then
    ret (LoopDone image origin tileMode stepBoundsF)
  else
    match fuel with
    | O => ret LoopOutOfFuel
    | S fuel' =>
      let '(sx, xSteps') :=
        step_scale xSteps (IRect.width srcRect) scaleW (Rect.width stepBoundsF) in
      let '(sy, ySteps') :=
        step_scale ySteps (IRect.height srcRect) scaleH (Rect.height stepBoundsF) in
      let dstBoundsF := Rect.MakeWH (F32.mul (Rect.width stepBoundsF) sx)
                                    (F32.mul (Rect.height stepBoundsF) sy) in
      let dstPixelBounds0 := RoundOut dstBoundsF in
      let dstPixelBounds :=
        match tileMode with
        | kClamp | kDecal =>
            let px := step_padding sx (fRight stepPixelBounds) (fRight dstPixelBounds0)
                                   (rRight stepBoundsF) (rRight dstBoundsF) in
            let py := step_padding sy (fBottom stepPixelBounds) (fBottom dstPixelBounds0)
                                   (rBottom stepBoundsF) (rBottom dstBoundsF) in
            IRect.outset dstPixelBounds0 (Build_SkISize px py)
        | _ => dstPixelBounds0
        end in
      surface <- AutoSurface_make ctx dstPixelBounds ;;
      match surfDevice surface with
      | None => ret LoopNoSurface
      | Some _ =>
        let scaleXform := RectToRect stepBoundsF dstBoundsF in
        let ctm := Concat ext (surface_localToDevice dstPixelBounds) scaleXform in
        drawn <-
          match image with
          | None =>
              let a := analyzeBounds f image0 scaleXform dstPixelBounds in
              let analysis :=
                Build_BoundsAnalysis (kRequiresLayerCrop a) (kDstBoundsNotCovered a)
                  (kHasLayerFillingEffect a) (kRequiresShaderTiling a) false in
              getAnalyzedShaderView_stats f analysis ;;;
              ret (DrawFilterResult f ctm (fSamplingOptions f) analysis)
          | Some prior =>
              (if Image.isExactFit prior then ret tt
               else markShaderBasedTilingRequired tileMode) ;;;
              ret (DrawImageShader prior tileMode origin ctm)
          end ;;
        let tileMode' := match tileMode with kDecal => kClamp | _ => tileMode end in
        let '(image', origin') := snap ctx surface drawn in
        rescale_loop fuel' ctx f image0 srcRect scaleW scaleH
                     image' origin' xSteps' ySteps' tileMode' dstBoundsF dstPixelBounds
      end
    end.

(** [FilterResult::rescale(ctx, scale, enforceDecal)]; [None] would mean
    that the loop did not finish within its bound (it always does, see
    [rescale_total] below). *)
Definition rescale (ctx : Context) (f : FilterResult) (scaleW scaleH : spec_float)
           (enforceDecal : bool) : M (option FilterResult) :=
  match fImage f with
  | None => ret (Some FilterResult_empty)
  | Some image0 =>
    match IRect.intersect (fLayerBounds f) (desiredOutput ctx) with
    | None => ret (Some FilterResult_empty)
    | Some visibleLayerBounds =>
      if F32.leb scaleW F32.zero || F32.leb scaleH F32.zero
      then ret (Some FilterResult_empty)
      else
        let xSteps := downscale_step_count scaleW in
        let ySteps := downscale_step_count scaleH in
        let aligned := is_nearly_integer_translation (fTransform f) in
        let pixelAligned := isSome aligned in
        let origin := match aligned with Some o => o | None => Build_SkIPoint 0 0 end in
        let analysis := analyzeBounds f image0 Matrix.I (desiredOutput ctx) in
        let canDeferTiling :=
          pixelAligned && negb (kRequiresLayerCrop analysis) &&
          negb (enforceDecal && kHasLayerFillingEffect analysis) in
        let hasEffectsToApply :=
          negb canDeferTiling || isSome (fColorFilter f) ||
          negb (imgColorType image0 =? bkColorType (backend ctx)) ||
          negb (imgColorSpace image0 =? colorSpace ctx) in
        if (xSteps =? 0) && (ySteps =? 0) && negb hasEffectsToApply then
          if kHasLayerFillingEffect analysis
          then ret (Some (with_layerBounds f visibleLayerBounds))
          else ret (Some (FilterResult_of_pair
                            (extract_subset image0 origin visibleLayerBounds false)))
        else
          let '(srcRect0, tileMode) :=
            if canDeferTiling && kHasLayerFillingEffect analysis
            then (IRect.MakeXYWH (ipX origin) (ipY origin)
                                 (Image.width image0) (Image.height image0),
                  fTileMode f)
            else (visibleLayerBounds, kDecal) in
          let srcRect := relevantSubset srcRect0 (desiredOutput ctx) tileMode in
          if IRect.isEmpty srcRect then ret (Some FilterResult_empty)
          else
            let fuel := S (Z.to_nat (Z.max xSteps ySteps)) in
            r <- rescale_loop fuel ctx f image0 srcRect scaleW scaleH
                              None origin xSteps ySteps tileMode
                              (Rect.Make srcRect)
                              (IRect.outset srcRect (Build_SkISize 1 1)) ;;
            match r with
            | LoopOutOfFuel => ret None
            | LoopNoSurface => ret (Some FilterResult_empty)
            | LoopDone image origin' tileMode' stepBoundsF =>
                let result := FilterResult_make image origin' in
                ret (Some (Build_FilterResult
                             (fImage result) (fSamplingOptions result)
                             (if enforceDecal then kDecal else tileMode')
                             (postConcat ext (fTransform result)
                                (RectToRect stepBoundsF (Rect.Make srcRect)))
                             (fColorFilter result) visibleLayerBounds))
            end
  end
  end.

End Pipeline.

(* ===================================================================== *)
(** ** FilterResult::Builder *)
(* ===================================================================== *)

(** Modelled from the spec: [SkIRect::join] and [LayerSpace<SkIRect>::Union]
    are defined in headers that are not part of the sources at hand.  The
    union is the bounding box; "empty rectangles are absorbing under
    intersection and neutral under union". *)
Definition IRect_join (a b : SkIRect) : SkIRect :=
  if IRect.isEmpty b then a
  else if IRect.isEmpty a then b
  else Build_SkIRect (Z.min (fLeft a) (fLeft b)) (Z.min (fTop a) (fTop b))
                     (Z.max (fRight a) (fRight b)) (Z.max (fBottom a) (fBottom b)).

Definition Union (bounds : list SkIRect) : SkIRect :=
  match bounds with
  | [] => IRect.MakeEmpty
  | b :: rest => fold_left IRect_join rest b
  end.

(** [FilterResult::Builder::outputBounds(explicitOutput)] *)
Definition Builder_outputBounds (ctx : Context) (explicitOutput : option SkIRect)
  : SkIRect :=
  match explicitOutput with
  | Some explicit =>
      match IRect.intersect (desiredOutput ctx) explicit with
      | Some output => output
      | None => IRect.MakeEmpty
      end
  | None => desiredOutput ctx
  end.

Section Builder.
Variable ext : Externals.

(** The pixels that a device holds after a sequence of draws, in order. *)
Variable renderAll : Backend -> SkIRect -> list DrawCmd -> Z -> Z -> SkColor4f.

(** "for (const SampledFilterResult& input : fInputs) input.fImage.draw(...)":
    a result without an image draws nothing. *)
Fixpoint draw_inputs (inputs : list FilterResult) (localToDevice : SkMatrix)
         (devClipBounds : SkIRect) : M (list DrawCmd) :=
  match inputs with
  | [] => ret []
  | input :: rest =>
      match fImage input with
      | None => draw_inputs rest localToDevice devClipBounds
      | Some image =>
          drawn <- draw ext input image localToDevice devClipBounds ;;
          more <- draw_inputs rest localToDevice devClipBounds ;;
          ret (drawn :: more)
      end
  end.

(** [AutoSurface::snap()] after several draws. *)
Definition snap_all (ctx : Context) (surface : AutoSurface) (drawn : list DrawCmd)
  : option SkSpecialImage * SkIPoint :=
  match surfDevice surface with
  | Some backing =>
      (Some (Build_SkSpecialImage
               (renderAll (backend ctx) (surfDstBounds surface) drawn)
               (IRect.MakeWH (IRect.width (surfDstBounds surface))
                             (IRect.height (surfDstBounds surface)))
               backing (bkColorType (backend ctx)) (colorSpace ctx)),
       IRect.topLeft (surfDstBounds surface))
  | None => (None, Build_SkIPoint 0 0)
  end.

(** [FilterResult::Builder::merge()] over the inputs added to the builder. *)
Definition Builder_merge (ctx : Context) (inputs : list FilterResult) : M FilterResult :=
  match inputs with
  | [only] => ret only
  | _ =>
      let mergedBounds := Union (map fLayerBounds inputs) in
      let outputBounds := Builder_outputBounds ctx (Some mergedBounds) in
      surface <- AutoSurface_make ctx outputBounds ;;
      drawn <- match surfDevice surface with
               | Some _ => draw_inputs inputs (surface_localToDevice outputBounds)
                                       (surface_devClipBounds outputBounds)
               | None => ret []
               end ;;
      ret (FilterResult_of_pair (snap_all ctx surface drawn))
  end.

End Builder.

(* ===================================================================== *)
(** ** The logical image of a pixel-aligned FilterResult *)
(* ===================================================================== *)

(** Modelled from the spec: the tile modes ("[Decal] means out-of-image
    samples are transparent black"; clamp, repeat and mirror as usual) on a
    pixel index of an axis of [n] pixels. *)
Definition tile_index (m : SkTileMode) (n u : Z) : option Z :=
  match m with
  | kDecal => if (0 <=? u) && (u <? n) then Some u else None
  | kClamp => Some (SkTPin u 0 (n - 1))
  | kRepeat => Some (u mod n)
  | kMirror => let p := u mod (2 * n) in Some (if p <? n then p else 2 * n - 1 - p)
  end.

(** Entry-wise equality of two matrices, as scalars. *)
Definition Matrix_eqb (a b : SkMatrix) : bool :=
  forallb (fun p => F32.eqb (fst p) (snd p))
          (combine (Matrix.entries a) (Matrix.entries b)).

(** The translation of a transform that is an integer translation exactly:
    every entry equals that of the translation by the integers that
    [is_nearly_integer_translation] reports.  A transform that is only nearly
    one (within the tolerance) has no such translation. *)
Definition integer_translation (m : SkMatrix) : option SkIPoint :=
  match is_nearly_integer_translation m with
  | Some origin =>
      if Matrix_eqb m (Matrix.Translate (ipX origin) (ipY origin))
      then Some origin else None
  | None => None
  end.

(** Modelled from the spec: "Evaluation order per FilterResult is fixed:
    sample image, tile, color-filter, crop to layerBounds", read at the pixel
    [(x, y)] of layer space.  It is defined ([Some]) for results whose
    transform is exactly an integer translation, where a pixel centre samples
    one image pixel (the "transform maps the image's pixel rectangle" onto
    pixels); for every other transform it is left undefined.  An absent image
    is transparent black everywhere. *)
Definition pixelAt (f : FilterResult) (x y : Z) : option SkColor4f :=
  match fImage f with
  | None => Some kTransparent
  | Some image =>
      let inBounds :=
        (fLeft (fLayerBounds f) <=? x) && (x <? fRight (fLayerBounds f)) &&
        (fTop (fLayerBounds f) <=? y) && (y <? fBottom (fLayerBounds f)) in
      if negb inBounds then Some kTransparent
      else
        match integer_translation (fTransform f) with
        | None => None
        | Some origin =>
            let sampled :=
              match tile_index (fTileMode f) (Image.width image) (x - ipX origin),
                    tile_index (fTileMode f) (Image.height image) (y - ipY origin) with
              | Some u, Some v => Image.pixel image u v
              | _, _ => kTransparent
              end in
            Some (match fColorFilter f with
                  | Some cf => cf sampled
                  | None => sampled
                  end)
        end
  end.



(* ===================================================================== *)
(** ** Reference instances used by the examples *)
(* ===================================================================== *)

Module Reference.

(** A scale-translate matrix applied to a scalar rectangle, edges sorted. *)
Definition mapScaleTranslate (m : SkMatrix) (r : SkRect) : SkRect :=
  let l := F32.add (F32.mul (kMScaleX m) (rLeft r)) (kMTransX m) in
  let rr := F32.add (F32.mul (kMScaleX m) (rRight r)) (kMTransX m) in
  let t := F32.add (F32.mul (kMScaleY m) (rTop r)) (kMTransY m) in
  let b := F32.add (F32.mul (kMScaleY m) (rBottom r)) (kMTransY m) in
  Build_SkRect (Rect.fmin l rr) (Rect.fmin t b) (Rect.fmax l rr) (Rect.fmax t b).

(** Per edge (T, R, B, L): is [b] inside [a] grown by [tol]. *)
Definition insideMask (a b : SkRect) (tol : spec_float) : bool * bool * bool * bool :=
  (F32.leb (F32.sub (rTop a) tol) (rTop b),
   F32.leb (rRight b) (F32.add (rRight a) tol),
   F32.leb (rBottom b) (F32.add (rBottom a) tol),
   F32.leb (F32.sub (rLeft a) tol) (rLeft b)).

Definition all4 (p : bool * bool * bool * bool) : bool :=
  let '(a, b, c, d) := p in a && b && c && d.

Definition row_col (a1 a2 a3 b1 b2 b3 : spec_float) : spec_float :=
  F32.add (F32.add (F32.mul a1 b1) (F32.mul a2 b2)) (F32.mul a3 b3).

Definition product (a b : SkMatrix) : SkMatrix :=
  Matrix.MakeAll
    (row_col (kMScaleX a) (kMSkewX a) (kMTransX a) (kMScaleX b) (kMSkewY b) (kMPersp0 b))
    (row_col (kMScaleX a) (kMSkewX a) (kMTransX a) (kMSkewX b) (kMScaleY b) (kMPersp1 b))
    (row_col (kMScaleX a) (kMSkewX a) (kMTransX a) (kMTransX b) (kMTransY b) (kMPersp2 b))
    (row_col (kMSkewY a) (kMScaleY a) (kMTransY a) (kMScaleX b) (kMSkewY b) (kMPersp0 b))
    (row_col (kMSkewY a) (kMScaleY a) (kMTransY a) (kMSkewX b) (kMScaleY b) (kMPersp1 b))
    (row_col (kMSkewY a) (kMScaleY a) (kMTransY a) (kMTransX b) (kMTransY b) (kMPersp2 b))
    (row_col (kMPersp0 a) (kMPersp1 a) (kMPersp2 a) (kMScaleX b) (kMSkewY b) (kMPersp0 b))
    (row_col (kMPersp0 a) (kMPersp1 a) (kMPersp2 a) (kMSkewX b) (kMScaleY b) (kMPersp1 b))
    (row_col (kMPersp0 a) (kMPersp1 a) (kMPersp2 a) (kMTransX b) (kMTransY b) (kMPersp2 b)).

Definition inverseScaleTranslate (m : SkMatrix) (r : SkRect) : option SkRect :=
  if Matrix.isScaleTranslate m &&
     negb (F32.eqb (kMScaleX m) F32.zero) && negb (F32.eqb (kMScaleY m) F32.zero)
  then
    let ix := F32.div F32.one (kMScaleX m) in
    let iy := F32.div F32.one (kMScaleY m) in
    Some (mapScaleTranslate
            (Matrix.ScaleTranslate ix iy
               (F32.opp (F32.mul (kMTransX m) ix)) (F32.opp (F32.mul (kMTransY m) iy))) r)
  else None.

(** Modelled from the spec: an instance of the geometry that the filter
    code takes from [SkRectPriv], [SkMatrixPriv] and [SkMatrix], exact on
    scale-translate matrices: a "mapped-quad ... contains [a rectangle]
    (within epsilon)" when the mapped rectangle grown by the tolerance
    does (integer rectangles under the identity are compared exactly). *)
Definition ext : Externals :=
  Build_Externals
    mapScaleTranslate
    inverseScaleTranslate
    product
    (fun m a b tol =>
       if Matrix.isIdentity m then
         (fLeft a <=? fLeft b) && (fTop a <=? fTop b) &&
         (fRight b <=? fRight a) && (fBottom b <=? fBottom a)
       else all4 (insideMask (mapScaleTranslate m (Rect.Make a)) (Rect.Make b) tol))
    (fun m a b tol => all4 (insideMask (mapScaleTranslate m a) b tol))
    (fun m a b tol => insideMask (mapScaleTranslate m a) b tol)
    (fun m => Some (Rect.fmin (F32.abs (kMScaleX m)) (F32.abs (kMScaleY m)),
                    Rect.fmax (F32.abs (kMScaleX m)) (F32.abs (kMScaleY m)))).

(** A backend whose devices always allocate, fit exactly, and hold the
    filtered colour of a colour draw (other draws are not evaluated). *)
Definition testBackend : Backend :=
  Build_Backend (fun s => Some s) 0
    (fun _ cmd _ _ =>
       match cmd with
       | DrawFilteredColor c cf => cf c
       | _ => kTransparent
       end).

Definition red : SkColor4f := Build_SkColor4f F32.one F32.zero F32.zero F32.one.
Definition green : SkColor4f := Build_SkColor4f F32.zero F32.one F32.zero F32.one.

(** A 10x10 image, opaque red, and the FilterResult that places it at the
    origin. *)
Definition image10 : SkSpecialImage :=
  Build_SkSpecialImage (fun _ _ => red) (IRect.MakeWH 10 10) (Build_SkISize 10 10) 0 0.
Definition source10 : FilterResult :=
  FilterResult_make (Some image10) (Build_SkIPoint 0 0).

Definition stats0 : Stats := Build_Stats 0 0 0 0 0.

Definition context (desired : SkIRect) : Context :=
  Build_Context desired testBackend 0.

(** Colour filters: one that leaves transparent black alone (it swaps red
    and green), and two that do not (a fill with opaque green, and an
    inversion of every channel). *)
Definition swapRG : SkColorFilter :=
  fun c => Build_SkColor4f (cG c) (cR c) (cB c) (cA c).
Definition fillGreen : SkColorFilter := fun _ => green.
Definition invert : SkColorFilter :=
  fun c => Build_SkColor4f (F32.sub F32.one (cR c)) (F32.sub F32.one (cG c))
                           (F32.sub F32.one (cB c)) (F32.sub F32.one (cA c)).

End Reference.

(* ===================================================================== *)
(** * Properties *)
(* ===================================================================== *)

Unset Implicit Arguments.

Arguments F32.of_Z : simpl never.
Arguments F32.add : simpl never.
Arguments F32.sub : simpl never.
Arguments F32.mul : simpl never.
Arguments F32.div : simpl never.
Arguments F32.eqb : simpl never.
Arguments F32.ltb : simpl never.
Arguments F32.leb : simpl never.
Arguments F32.lit : simpl never.
Arguments F32.ceil2int : simpl never.
Arguments F32.floor2int : simpl never.
Arguments F64.of_Z : simpl never.
Arguments F64.of_F32 : simpl never.
Arguments F64.to_F32 : simpl never.
Arguments F64.add : simpl never.
Arguments F64.sub : simpl never.
Arguments F64.mul : simpl never.
Arguments F64.div : simpl never.
Arguments F64.ceil2int : simpl never.
Arguments F64.floor2int : simpl never.
Arguments is_nearly_integer_translation : simpl never.
Arguments periodic_axis_transform : simpl never.
Arguments analyzeBounds : simpl never.
Arguments map_SkIRect : simpl never.
Arguments map_scale_translate : simpl never.
Arguments mapRect : simpl never.
Arguments inverseMapRect : simpl never.
Arguments Concat : simpl never.
Arguments postConcat : simpl never.
Arguments kRoundEpsilon : simpl never.
Arguments downscale_step_count : simpl never.

(** ** Rectangles *)

Lemma isEmpty_false_iff (r : SkIRect) :
  IRect.isEmpty r = false <-> fLeft r < fRight r /\ fTop r < fBottom r.
Proof.
  unfold IRect.isEmpty. rewrite orb_false_iff, !Z.leb_gt. tauto.
Qed.

Lemma isEmpty_true_iff (r : SkIRect) :
  IRect.isEmpty r = true <-> fRight r <= fLeft r \/ fBottom r <= fTop r.
Proof.
  unfold IRect.isEmpty. rewrite orb_true_iff, !Z.leb_le. tauto.
Qed.

Lemma intersect_Some (a b c : SkIRect) :
  IRect.intersect a b = Some c -> c = IRect.meet a b /\ IRect.isEmpty c = false.
Proof.
  unfold IRect.intersect. destruct (IRect.isEmpty (IRect.meet a b)) eqn:E; [discriminate|].
  intros H; inversion H; subst. auto.
Qed.

Lemma intersect_None (a b : SkIRect) :
  IRect.intersect a b = None <-> IRect.isEmpty (IRect.meet a b) = true.
Proof.
  unfold IRect.intersect. destruct (IRect.isEmpty (IRect.meet a b)); split; congruence.
Qed.

Lemma meet_within_l (a b : SkIRect) : IRect.within (IRect.meet a b) a.
Proof. unfold IRect.within, IRect.meet; simpl; lia. Qed.

Lemma meet_within_r (a b : SkIRect) : IRect.within (IRect.meet a b) b.
Proof. unfold IRect.within, IRect.meet; simpl; lia. Qed.

Lemma intersect_within (a b c : SkIRect) :
  IRect.intersect a b = Some c -> IRect.within c a /\ IRect.within c b.
Proof.
  intros H. apply intersect_Some in H. destruct H as [-> _].
  split; [apply meet_within_l | apply meet_within_r].
Qed.

Lemma within_refl (a : SkIRect) : IRect.within a a.
Proof. unfold IRect.within; lia. Qed.

Lemma within_trans (a b c : SkIRect) :
  IRect.within a b -> IRect.within b c -> IRect.within a c.
Proof. unfold IRect.within; lia. Qed.

Lemma SkIRect_eq (a b : SkIRect) :
  fLeft a = fLeft b -> fTop a = fTop b -> fRight a = fRight b -> fBottom a = fBottom b ->
  a = b.
Proof. destruct a, b; simpl; intros; subst; reflexivity. Qed.


Lemma intersect_absorb_l (a c : SkIRect) :
  IRect.within c a -> IRect.isEmpty c = false -> IRect.intersect c a = Some c.
Proof.
  intros W E. unfold IRect.intersect.
  assert (M : IRect.meet c a = c).
  { unfold IRect.within in W. apply SkIRect_eq; simpl; lia. }
  rewrite M, E. reflexivity.
Qed.


Lemma SkTileMode_eqb_eq (a b : SkTileMode) : SkTileMode_eqb a b = true <-> a = b.
Proof. destruct a, b; simpl; split; congruence. Qed.

Lemma SkTileMode_eqb_neq (a b : SkTileMode) : SkTileMode_eqb a b = false <-> a <> b.
Proof. destruct a, b; simpl; split; congruence. Qed.

(* ===================================================================== *)
(** * Scalars that are computed exactly *)
(* ===================================================================== *)

(** The canonical representation of an integer scaled by a power of two,
    and the operations of [SpecFloat] on such values when the result is
    representable: no rounding takes place. *)

Lemma digits2_pos_size (p : positive) : digits2_pos p = Pos.size p.
Proof. induction p; simpl; congruence. Qed.

Lemma digits2_pos_bounds (p : positive) :
  2 ^ (Z.pos (digits2_pos p) - 1) <= Z.pos p < 2 ^ Z.pos (digits2_pos p).
Proof.
  induction p as [p IH|p IH|].
  - simpl digits2_pos. rewrite Pos2Z.inj_succ.
    replace (Z.succ (Z.pos (digits2_pos p)) - 1) with (Z.succ (Z.pos (digits2_pos p) - 1)) by lia.
    rewrite !Z.pow_succ_r by lia. lia.
  - simpl digits2_pos. rewrite Pos2Z.inj_succ.
    replace (Z.succ (Z.pos (digits2_pos p)) - 1) with (Z.succ (Z.pos (digits2_pos p) - 1)) by lia.
    rewrite !Z.pow_succ_r by lia. lia.
  - simpl. lia.
Qed.

Lemma digits_unique (x : positive) (d : Z) :
  2 ^ (d - 1) <= Z.pos x < 2 ^ d -> Z.pos (digits2_pos x) = d.
Proof.
  intros [Hl Hu].
  pose proof (digits2_pos_bounds x) as [Bl Bu].
  assert (Hd : 0 < d).
  { destruct (Z.ltb_spec 0 d); [assumption|].
    exfalso. destruct (Z.eq_dec d 0).
    - subst. simpl in Hu. lia.
    - rewrite Z.pow_neg_r in Hu by lia. lia. }
  set (d' := Z.pos (digits2_pos x)) in *.
  assert (d' - 1 < d).
  { apply (Z.pow_lt_mono_r_iff 2); lia. }
  assert (d - 1 < d').
  { apply (Z.pow_lt_mono_r_iff 2); lia. }
  lia.
Qed.

Lemma iter_pos_nat {A : Type} (f : A -> A) (p : positive) (x : A) :
  iter_pos f p x = Nat.iter (Pos.to_nat p) f x.
Proof.
  revert x. induction p as [p IH|p IH|]; intros x; cbn [iter_pos].
  - rewrite !IH. rewrite Pos2Nat.inj_xI.
    replace (S (2 * Pos.to_nat p))%nat with (Pos.to_nat p + (Pos.to_nat p + 1))%nat by lia.
    rewrite !Nat.iter_add. simpl. reflexivity.
  - rewrite !IH. rewrite Pos2Nat.inj_xO.
    replace (2 * Pos.to_nat p)%nat with (Pos.to_nat p + Pos.to_nat p)%nat by lia.
    rewrite Nat.iter_add. reflexivity.
  - reflexivity.
Qed.

Lemma shr_1_even (m : Z) :
  0 <= m -> shr_1 (Build_shr_record (2 * m) false false) = Build_shr_record m false false.
Proof.
  intros H. destruct m as [|p|p]; reflexivity.
Qed.

Lemma shr_nat_exact (k : nat) (m : Z) :
  0 <= m ->
  Nat.iter k shr_1 (Build_shr_record (m * 2 ^ Z.of_nat k) false false)
  = Build_shr_record m false false.
Proof.
  revert m. induction k as [|k IH]; intros m Hm.
  - simpl. f_equal. lia.
  - rewrite Nat.iter_succ_r.
    rewrite Nat2Z.inj_succ, Z.pow_succ_r by lia.
    replace (m * (2 * 2 ^ Z.of_nat k)) with (2 * (m * 2 ^ Z.of_nat k)) by lia.
    rewrite shr_1_even by (apply Z.mul_nonneg_nonneg; [lia|apply Z.pow_nonneg; lia]).
    apply IH, Hm.
Qed.

Lemma shr_exact (m : Z) (e k : Z) :
  0 <= m -> 0 <= k ->
  shr (Build_shr_record (m * 2 ^ k) false false) e k
  = (Build_shr_record m false false, e + k).
Proof.
  intros Hm Hk. unfold shr. destruct k as [|p|p]; try lia.
  - simpl. rewrite Z.mul_1_r, Z.add_0_r. reflexivity.
  - rewrite iter_pos_nat. rewrite <- (positive_nat_Z p) at 1.
    rewrite shr_nat_exact by assumption. reflexivity.
Qed.

Lemma pos_iter_xO (m p : positive) :
  Z.pos (Pos.iter xO m p) = Z.pos m * 2 ^ Z.pos p.
Proof.
  induction p using Pos.peano_ind.
  - simpl. lia.
  - rewrite Pos.iter_succ. rewrite Pos2Z.inj_succ, Z.pow_succ_r by lia.
    rewrite Pos2Z.inj_xO, IHp. lia.
Qed.

Lemma Zdigits2_unique (x d : Z) :
  2 ^ (d - 1) <= x < 2 ^ d -> 0 < x -> Zdigits2 x = d.
Proof.
  intros H Hx. destruct x as [|p|p]; try lia.
  simpl. apply digits_unique, H.
Qed.

Lemma scale_bounds (n d E : Z) :
  2 ^ (d - 1) <= n < 2 ^ d -> 0 <= E -> 1 <= d ->
  2 ^ (d - 1 + E) <= n * 2 ^ E < 2 ^ (d + E).
Proof.
  intros [Hl Hu] HE Hd.
  rewrite !Z.pow_add_r by lia.
  assert (0 < 2 ^ E) by (apply Z.pow_pos_nonneg; lia).
  split.
  - apply Z.mul_le_mono_nonneg_r; lia.
  - apply Z.mul_lt_mono_pos_r; lia.
Qed.

Lemma digits2_pos_ge_1 (p : positive) : 1 <= Z.pos (digits2_pos p).
Proof. lia. Qed.

Lemma shift_match (m n : Z) :
  0 < n ->
  match n with
  | Z.pos _ => Z.shiftl m n
  | 0 => m
  | Z.neg _ => 0
  end = m * 2 ^ n.
Proof.
  intros H. destruct n; try lia. apply Z.shiftl_mul_pow2. lia.
Qed.

Section Exact.
Variables prec emax : Z.
Hypothesis Hprec : 0 < prec.

(** The exponents [g] for which every integer of at most [prec] bits, scaled
    by [2^g], is a normal number of the format. *)
Definition in_range (g : Z) : Prop :=
  3 - emax - prec <= 1 - prec + g /\ g <= emax - prec.

(** The canonical representation of [(-1)^s * n * 2^g]. *)
Definition exact (s : bool) (n : positive) (g : Z) : spec_float :=
  S754_finite s
    (Z.to_pos (Z.pos n * 2 ^ (prec - Z.pos (digits2_pos n))))
    (Z.pos (digits2_pos n) - prec + g).

Definition dyadic (n g : Z) : spec_float :=
  match n with
  | Z0 => S754_zero false
  | Z.pos p => exact false p g
  | Z.neg p => exact true p g
  end.

Lemma fexp_in_range (d g : Z) :
  1 <= d <= prec -> in_range g -> fexp prec emax (d + g) = d + g - prec.
Proof. unfold fexp, emin, in_range. lia. Qed.

Lemma binary_round_aux_exact (s : bool) (n : positive) (g k : Z) :
  Z.pos (digits2_pos n) <= prec -> in_range g -> 0 <= k ->
  binary_round_aux prec emax s
    (Z.pos n * 2 ^ (prec - Z.pos (digits2_pos n)) * 2 ^ k)
    (Z.pos (digits2_pos n) - prec + g - k) loc_Exact
  = exact s n g.
Proof.
  intros Hd Hg Hk.
  set (d := Z.pos (digits2_pos n)) in *.
  assert (Hd1 : 1 <= d) by (subst d; lia).
  pose proof (digits2_pos_bounds n) as Hb. fold d in Hb.
  set (c := Z.pos n * 2 ^ (prec - d)).
  assert (Hc : 2 ^ (prec - 1) <= c < 2 ^ prec).
  { pose proof (scale_bounds (Z.pos n) d (prec - d) Hb ltac:(lia) Hd1) as H.
    replace (d - 1 + (prec - d)) with (prec - 1) in H by lia.
    replace (d + (prec - d)) with prec in H by lia. exact H. }
  assert (Hc0 : 0 < c).
  { assert (0 < 2 ^ (prec - 1)) by (apply Z.pow_pos_nonneg; lia). lia. }
  assert (Hck : 2 ^ (prec + k - 1) <= c * 2 ^ k < 2 ^ (prec + k)).
  { pose proof (scale_bounds c prec k Hc Hk ltac:(lia)) as H.
    replace (prec - 1 + k) with (prec + k - 1) in H by lia. exact H. }
  assert (Hck0 : 0 < c * 2 ^ k).
  { assert (0 < 2 ^ k) by (apply Z.pow_pos_nonneg; lia). lia. }
  unfold binary_round_aux, shr_fexp.
  rewrite (Zdigits2_unique (c * 2 ^ k) (prec + k) Hck Hck0).
  replace (prec + k + (d - prec + g - k)) with (d + g) by lia.
  rewrite (fexp_in_range d g ltac:(lia) Hg).
  replace (d + g - prec - (d - prec + g - k)) with k by lia.
  cbn [shr_record_of_loc].
  rewrite (shr_exact c (d - prec + g - k) k ltac:(lia) Hk).
  cbn [shr_m shr_r shr_s loc_of_shr_record round_nearest_even].
  rewrite (Zdigits2_unique c prec Hc Hc0).
  replace (prec + (d - prec + g - k + k)) with (d + g) by lia.
  rewrite (fexp_in_range d g ltac:(lia) Hg).
  replace (d + g - prec - (d - prec + g - k + k)) with 0 by lia.
  cbn [shr shr_m shr_record_of_loc].
  unfold exact. fold d. fold c.
  destruct c as [|pc|pc]; try lia.
  replace (d - prec + g - k + k) with (d - prec + g) by lia.
  assert (Hle : (d - prec + g <=? emax - prec) = true).
  { apply Z.leb_le. unfold in_range in Hg. lia. }
  rewrite Hle. reflexivity.
Qed.

(** Rounding an exactly representable value gives its canonical
    representation. *)
Lemma binary_round_exact (s : bool) (n : positive) (g j : Z) :
  Z.pos (digits2_pos n) <= prec -> in_range g -> 0 <= j ->
  binary_round prec emax s (Z.to_pos (Z.pos n * 2 ^ j)) (g - j) = exact s n g.
Proof.
  intros Hd Hg Hj.
  set (d := Z.pos (digits2_pos n)) in *.
  assert (Hd1 : 1 <= d) by (subst d; lia).
  pose proof (digits2_pos_bounds n) as Hb. fold d in Hb.
  assert (HM0 : 0 < Z.pos n * 2 ^ j).
  { assert (0 < 2 ^ j) by (apply Z.pow_pos_nonneg; lia). lia. }
  assert (HMd : Z.pos (digits2_pos (Z.to_pos (Z.pos n * 2 ^ j))) = d + j).
  { apply digits_unique. rewrite Z2Pos.id by exact HM0.
    pose proof (scale_bounds (Z.pos n) d j Hb Hj Hd1) as H.
    replace (d - 1 + j) with (d + j - 1) in H by lia. exact H. }
  unfold binary_round. rewrite HMd.
  replace (d + j + (g - j)) with (d + g) by lia.
  rewrite (fexp_in_range d g ltac:(lia) Hg).
  unfold shl_align.
  destruct (d + g - prec - (g - j)) as [|q|q] eqn:Eq.
  - (* no shift, canonical already *)
    rewrite Z2Pos.id by exact HM0.
    assert (j = prec - d) by lia. subst j.
    pose proof (binary_round_aux_exact s n g 0 Hd Hg ltac:(lia)) as H.
    fold d in H. rewrite Z.mul_1_r in H.
    replace (d - prec + g - 0) with (g - (prec - d)) in H by lia. exact H.
  - (* more digits than the precision *)
    rewrite Z2Pos.id by exact HM0.
    pose proof (binary_round_aux_exact s n g (Z.pos q) Hd Hg ltac:(lia)) as H.
    fold d in H.
    assert (Hj' : j = prec - d + Z.pos q) by lia.
    rewrite Hj'. rewrite Z.pow_add_r by lia. rewrite Z.mul_assoc.
    replace (g - (prec - d + Z.pos q)) with (d - prec + g - Z.pos q) by lia.
    exact H.
  - (* fewer digits: align to the left *)
    rewrite pos_iter_xO. rewrite Z2Pos.id by exact HM0.
    pose proof (binary_round_aux_exact s n g 0 Hd Hg ltac:(lia)) as H.
    fold d in H. rewrite Z.mul_1_r in H.
    assert (Hq : Z.pos q = prec - d - j) by lia.
    rewrite Hq. rewrite <- Z.mul_assoc, <- Z.pow_add_r by lia.
    replace (j + (prec - d - j)) with (prec - d) by lia.
    replace (d - prec + g - 0) with (d + g - prec) in H by lia. exact H.
Qed.



Lemma digits_le_prec (p : positive) :
  Z.pos p < 2 ^ prec -> Z.pos (digits2_pos p) <= prec.
Proof.
  intros H. pose proof (digits2_pos_bounds p) as [Hl _].
  assert (Z.pos (digits2_pos p) - 1 < prec).
  { apply (Z.pow_lt_mono_r_iff 2); lia. }
  lia.
Qed.

Lemma binary_normalize_exact (N g j : Z) :
  Z.abs N < 2 ^ prec -> in_range g -> 0 <= j ->
  binary_normalize prec emax (N * 2 ^ j) (g - j) false = dyadic N g.
Proof.
  intros HN Hg Hj.
  assert (HP : 0 < 2 ^ j) by (apply Z.pow_pos_nonneg; lia).
  destruct N as [|p|p].
  - reflexivity.
  - assert (E : Z.pos p * 2 ^ j = Z.pos (Z.to_pos (Z.pos p * 2 ^ j))).
    { rewrite Z2Pos.id; lia. }
    rewrite E. cbn [binary_normalize dyadic].
    apply binary_round_exact; [apply digits_le_prec; lia | exact Hg | exact Hj].
  - assert (E : Z.neg p * 2 ^ j = Z.neg (Z.to_pos (Z.pos p * 2 ^ j))).
    { rewrite <- Pos2Z.opp_pos. rewrite Z.mul_opp_l.
      rewrite <- Pos2Z.opp_pos. rewrite Z2Pos.id; lia. }
    rewrite E. cbn [binary_normalize dyadic].
    apply binary_round_exact; [apply digits_le_prec; lia | exact Hg | exact Hj].
Qed.

(** The integer a canonical representation stands for, times [2^g]. *)
Definition signed (s : bool) (p : positive) : Z := if s then Z.neg p else Z.pos p.

Lemma dyadic_signed (s : bool) (p : positive) (g : Z) :
  dyadic (signed s p) g = exact s p g.
Proof. destruct s; reflexivity. Qed.

Lemma shl_align_value (m : positive) (e e' : Z) :
  e' <= e -> Z.pos (fst (shl_align m e e')) = Z.pos m * 2 ^ (e - e').
Proof.
  intros H. unfold shl_align.
  destruct (e' - e) as [|q|q] eqn:E; try lia.
  - replace (e - e') with 0 by lia. simpl. lia.
  - cbn [fst]. rewrite pos_iter_xO. f_equal. f_equal. lia.
Qed.

(** The mantissa of a canonical representation aligned to a lower exponent. *)
Lemma aligned_value (s : bool) (p : positive) (g ez : Z) :
  Z.pos (digits2_pos p) <= prec ->
  ez <= Z.pos (digits2_pos p) - prec + g ->
  cond_Zopp s
    (Z.pos (fst (shl_align (Z.to_pos (Z.pos p * 2 ^ (prec - Z.pos (digits2_pos p))))
                           (Z.pos (digits2_pos p) - prec + g) ez)))
  = signed s p * 2 ^ (g - ez).
Proof.
  intros Hd He. set (d := Z.pos (digits2_pos p)) in *.
  rewrite shl_align_value by exact He.
  assert (0 < 2 ^ (prec - d)) by (apply Z.pow_pos_nonneg; lia).
  rewrite Z2Pos.id by lia.
  rewrite <- Z.mul_assoc, <- Z.pow_add_r by lia.
  replace (prec - d + (d - prec + g - ez)) with (g - ez) by lia.
  destruct s; cbn [cond_Zopp signed]; [rewrite <- Z.mul_opp_l|]; reflexivity.
Qed.

Lemma pow2_split (x y : Z) : 0 <= x -> 0 <= y -> 2 ^ (x + y) = 2 ^ x * 2 ^ y.
Proof. intros. apply Z.pow_add_r; assumption. Qed.

(** Rescaling the integer does not change the representation. *)
Lemma dyadic_scale (N g j : Z) :
  Z.abs (N * 2 ^ j) < 2 ^ prec -> in_range g -> in_range (g - j) -> 0 <= j ->
  dyadic (N * 2 ^ j) (g - j) = dyadic N g.
Proof.
  intros HN Hg Hgj Hj.
  assert (HP : 0 < 2 ^ j) by (apply Z.pow_pos_nonneg; lia).
  assert (HN' : Z.abs N < 2 ^ prec).
  { rewrite Z.abs_mul in HN. rewrite (Z.abs_eq (2 ^ j)) in HN by lia. nia. }
  rewrite <- (binary_normalize_exact N g j HN' Hg Hj).
  pose proof (binary_normalize_exact (N * 2 ^ j) (g - j) 0 HN Hgj ltac:(lia)) as H.
  rewrite Z.mul_1_r, Z.sub_0_r in H. symmetry. exact H.
Qed.

Lemma exact_exponent_le (p : positive) (g : Z) :
  Z.pos (digits2_pos p) <= prec -> Z.pos (digits2_pos p) - prec + g <= g.
Proof. lia. Qed.

Lemma signed_abs (s : bool) (p : positive) : Z.abs (signed s p) = Z.pos p.
Proof. destruct s; reflexivity. Qed.

Lemma dyadic_cases (a g : Z) :
  (a = 0 /\ dyadic a g = S754_zero false) \/
  (exists s p, a = signed s p /\ dyadic a g = exact s p g).
Proof.
  destruct a as [|p|p].
  - left. split; reflexivity.
  - right. exists false, p. split; reflexivity.
  - right. exists true, p. split; reflexivity.
Qed.

(** The sum of two finite canonical representations. *)
Lemma SFadd_finite (sa sb : bool) (pa pb : positive) (ga gb : Z) :
  Z.pos pa < 2 ^ prec -> Z.pos pb < 2 ^ prec -> in_range ga -> in_range gb ->
  Z.abs (signed sa pa * 2 ^ (ga - Z.min ga gb) + signed sb pb * 2 ^ (gb - Z.min ga gb))
    < 2 ^ prec ->
  SFadd prec emax (exact sa pa ga) (exact sb pb gb) =
  dyadic (signed sa pa * 2 ^ (ga - Z.min ga gb) + signed sb pb * 2 ^ (gb - Z.min ga gb))
         (Z.min ga gb).
Proof.
  intros Ha Hb Hga Hgb HN.
  pose proof (digits_le_prec pa Ha) as Da.
  pose proof (digits_le_prec pb Hb) as Db.
  unfold exact, SFadd.
  set (g := Z.min ga gb) in *.
  cbv zeta.
  set (ez := Z.min (Z.pos (digits2_pos pa) - prec + ga) (Z.pos (digits2_pos pb) - prec + gb)).
  assert (Hez : ez <= g) by (subst ez g; lia).
  rewrite (aligned_value sa pa ga ez Da) by (subst ez; lia).
  rewrite (aligned_value sb pb gb ez Db) by (subst ez; lia).
  assert (Hg : in_range g) by (subst g; destruct (Z.min_spec ga gb) as [[_ ->]|[_ ->]]; assumption).
  replace (signed sa pa * 2 ^ (ga - ez) + signed sb pb * 2 ^ (gb - ez))
    with ((signed sa pa * 2 ^ (ga - g) + signed sb pb * 2 ^ (gb - g)) * 2 ^ (g - ez)).
  2:{ rewrite Z.mul_add_distr_r, <- !Z.mul_assoc, <- !Z.pow_add_r by (subst g; lia).
      f_equal; f_equal; f_equal; lia. }
  replace ez with (g - (g - ez)) at 2 by lia.
  apply binary_normalize_exact; [exact HN | exact Hg | lia].
Qed.

(** X + Y for exactly represented operands whose sum is representable. *)
Lemma SFadd_exact (a b ga gb : Z) :
  Z.abs a < 2 ^ prec -> Z.abs b < 2 ^ prec -> in_range ga -> in_range gb ->
  Z.abs (a * 2 ^ (ga - Z.min ga gb) + b * 2 ^ (gb - Z.min ga gb)) < 2 ^ prec ->
  SFadd prec emax (dyadic a ga) (dyadic b gb) =
  dyadic (a * 2 ^ (ga - Z.min ga gb) + b * 2 ^ (gb - Z.min ga gb)) (Z.min ga gb).
Proof.
  intros Ha Hb Hga Hgb HN.
  set (g := Z.min ga gb) in *.
  assert (Hg : in_range g) by (subst g; destruct (Z.min_spec ga gb) as [[_ ->]|[_ ->]]; assumption).
  destruct (dyadic_cases a ga) as [[-> Ea]|(sa & pa & -> & Ea)];
    destruct (dyadic_cases b gb) as [[-> Eb]|(sb & pb & -> & Eb)];
    rewrite Ea, Eb.
  - reflexivity.
  - rewrite Z.mul_0_l, Z.add_0_l in *.
    replace g with (gb - (gb - g)) at 2 by lia.
    rewrite dyadic_scale; [|exact HN|exact Hgb|replace (gb - (gb - g)) with g by lia; exact Hg
                           |subst g; lia].
    rewrite dyadic_signed. reflexivity.
  - rewrite Z.mul_0_l, Z.add_0_r in *.
    replace g with (ga - (ga - g)) at 2 by lia.
    rewrite dyadic_scale; [|exact HN|exact Hga|replace (ga - (ga - g)) with g by lia; exact Hg
                           |subst g; lia].
    rewrite dyadic_signed. destruct sa; reflexivity.
  - rewrite signed_abs in Ha, Hb. apply SFadd_finite; assumption.
Qed.

Lemma dyadic_opp (s : bool) (p : positive) (g : Z) :
  dyadic (- signed s p) g = exact (negb s) p g.
Proof. destruct s; reflexivity. Qed.

(** X - Y for exactly represented operands whose difference is
    representable. *)
Lemma SFsub_exact (a b ga gb : Z) :
  Z.abs a < 2 ^ prec -> Z.abs b < 2 ^ prec -> in_range ga -> in_range gb ->
  Z.abs (a * 2 ^ (ga - Z.min ga gb) - b * 2 ^ (gb - Z.min ga gb)) < 2 ^ prec ->
  SFsub prec emax (dyadic a ga) (dyadic b gb) =
  dyadic (a * 2 ^ (ga - Z.min ga gb) - b * 2 ^ (gb - Z.min ga gb)) (Z.min ga gb).
Proof.
  intros Ha Hb Hga Hgb HN.
  set (g := Z.min ga gb) in *.
  assert (Hg : in_range g) by (subst g; destruct (Z.min_spec ga gb) as [[_ ->]|[_ ->]]; assumption).
  destruct (dyadic_cases a ga) as [[-> Ea]|(sa & pa & -> & Ea)];
    destruct (dyadic_cases b gb) as [[-> Eb]|(sb & pb & -> & Eb)];
    rewrite Ea, Eb.
  - reflexivity.
  - rewrite Z.mul_0_l, Z.sub_0_l in *.
    rewrite <- Z.mul_opp_l in *.
    replace g with (gb - (gb - g)) at 2 by lia.
    rewrite dyadic_scale; [|exact HN|exact Hgb|replace (gb - (gb - g)) with g by lia; exact Hg
                           |subst g; lia].
    rewrite dyadic_opp. reflexivity.
  - rewrite Z.mul_0_l, Z.sub_0_r in *.
    replace g with (ga - (ga - g)) at 2 by lia.
    rewrite dyadic_scale; [|exact HN|exact Hga|replace (ga - (ga - g)) with g by lia; exact Hg
                           |subst g; lia].
    rewrite dyadic_signed. destruct sa; reflexivity.
  - rewrite signed_abs in Ha, Hb.
    replace (signed sa pa * 2 ^ (ga - g) - signed sb pb * 2 ^ (gb - g))
      with (signed sa pa * 2 ^ (ga - g) + signed (negb sb) pb * 2 ^ (gb - g)) in *
      by (destruct sb; cbn [signed negb]; change (Z.neg pb) with (- Z.pos pb); ring).
    subst g. rewrite <- (SFadd_finite sa (negb sb) pa pb ga gb Ha Hb Hga Hgb HN).
    unfold exact, SFsub, SFadd. cbv zeta. f_equal.
    destruct sb; cbn [cond_Zopp negb]; lia.
Qed.


Lemma digits_mul_ge (pa pb : positive) :
  Z.pos (digits2_pos pa) + Z.pos (digits2_pos pb) - 1 <= Z.pos (digits2_pos (pa * pb)).
Proof.
  pose proof (digits2_pos_bounds pa) as [La _].
  pose proof (digits2_pos_bounds pb) as [Lb _].
  pose proof (digits2_pos_bounds (pa * pb)) as [_ U].
  set (da := Z.pos (digits2_pos pa)) in *.
  set (db := Z.pos (digits2_pos pb)) in *.
  set (d := Z.pos (digits2_pos (pa * pb))) in *.
  assert (da + db - 2 < d); [|lia].
  apply (Z.pow_lt_mono_r_iff 2); [lia|lia|].
  replace (da + db - 2) with ((da - 1) + (db - 1)) by lia.
  rewrite Z.pow_add_r by (subst da db; lia).
  rewrite Pos2Z.inj_mul in U.
  assert (0 < 2 ^ (da - 1)) by (apply Z.pow_pos_nonneg; subst da; lia).
  assert (0 < 2 ^ (db - 1)) by (apply Z.pow_pos_nonneg; subst db; lia).
  nia.
Qed.

Lemma SFmul_finite (sa sb : bool) (pa pb : positive) (ga gb : Z) :
  Z.pos (pa * pb) < 2 ^ prec -> in_range (ga + gb) ->
  SFmul prec emax (exact sa pa ga) (exact sb pb gb) =
  exact (xorb sa sb) (pa * pb) (ga + gb).
Proof.
  intros Hn Hg.
  pose proof (digits_le_prec (pa * pb) Hn) as Dn.
  assert (Ha : Z.pos pa < 2 ^ prec) by (rewrite Pos2Z.inj_mul in Hn; nia).
  assert (Hb : Z.pos pb < 2 ^ prec) by (rewrite Pos2Z.inj_mul in Hn; nia).
  pose proof (digits_le_prec pa Ha) as Da.
  pose proof (digits_le_prec pb Hb) as Db.
  pose proof (digits_mul_ge pa pb) as Dm.
  unfold exact at 1 2. unfold SFmul.
  set (da := Z.pos (digits2_pos pa)) in *.
  set (db := Z.pos (digits2_pos pb)) in *.
  set (d := Z.pos (digits2_pos (pa * pb))) in *.
  assert (Pa : 0 < 2 ^ (prec - da)) by (apply Z.pow_pos_nonneg; lia).
  assert (Pb : 0 < 2 ^ (prec - db)) by (apply Z.pow_pos_nonneg; lia).
  rewrite Pos2Z.inj_mul, !Z2Pos.id by lia.
  pose (k := prec - da - db + d).
  replace (Z.pos pa * 2 ^ (prec - da) * (Z.pos pb * 2 ^ (prec - db)))
    with (Z.pos (pa * pb) * 2 ^ (prec - d) * 2 ^ k).
  2:{ assert (E : 2 ^ (prec - d) * 2 ^ k = 2 ^ (prec - da) * 2 ^ (prec - db)).
      { rewrite <- !Z.pow_add_r by (subst k; lia). f_equal. subst k. lia. }
      rewrite Pos2Z.inj_mul, <- Z.mul_assoc, E. ring. }
  replace (da - prec + ga + (db - prec + gb)) with (d - prec + (ga + gb) - k)
    by (subst k; lia).
  apply binary_round_aux_exact; [exact Dn | exact Hg | subst k; lia].
Qed.

(** X * Y for exactly represented operands whose product is
    representable; a zero operand needs a non-negative partner for the sign
    of the zero. *)
Lemma SFmul_exact (a b ga gb : Z) :
  Z.abs (a * b) < 2 ^ prec -> in_range (ga + gb) ->
  (a = 0 -> 0 <= b) -> (b = 0 -> 0 <= a) ->
  SFmul prec emax (dyadic a ga) (dyadic b gb) = dyadic (a * b) (ga + gb).
Proof.
  intros HN Hg Za Zb.
  destruct a as [|pa|pa]; destruct b as [|pb|pb]; try reflexivity;
    try (exfalso; specialize (Za eq_refl); lia);
    try (exfalso; specialize (Zb eq_refl); lia);
    cbn [dyadic]; rewrite SFmul_finite; try reflexivity; try exact Hg;
    simpl in HN; exact HN.
Qed.

Lemma compare_exact_pos (pa pb : positive) (g : Z) :
  Z.pos pa < 2 ^ prec -> Z.pos pb < 2 ^ prec ->
  match Z.pos (digits2_pos pa) - prec + g ?= Z.pos (digits2_pos pb) - prec + g with
  | Lt => Lt
  | Gt => Gt
  | Eq => Pos.compare_cont Eq
            (Z.to_pos (Z.pos pa * 2 ^ (prec - Z.pos (digits2_pos pa))))
            (Z.to_pos (Z.pos pb * 2 ^ (prec - Z.pos (digits2_pos pb))))
  end = (Z.pos pa ?= Z.pos pb).
Proof.
  intros Ha Hb.
  pose proof (digits_le_prec pa Ha) as Da.
  pose proof (digits_le_prec pb Hb) as Db.
  pose proof (digits2_pos_bounds pa) as [La Ua].
  pose proof (digits2_pos_bounds pb) as [Lb Ub].
  set (da := Z.pos (digits2_pos pa)) in *.
  set (db := Z.pos (digits2_pos pb)) in *.
  destruct (Z.compare_spec (da - prec + g) (db - prec + g)) as [E|E|E].
  - assert (Ed : da = db) by lia. rewrite Ed.
    assert (P : 0 < 2 ^ (prec - db)) by (apply Z.pow_pos_nonneg; lia).
    change (Pos.compare_cont Eq ?x ?y) with (Pos.compare x y).
    rewrite Pos2Z.inj_compare, !Z2Pos.id by lia.
    destruct (Z.compare_spec (Z.pos pa) (Z.pos pb)) as [C|C|C].
    + rewrite C. apply Z.compare_refl.
    + apply Z.compare_lt_iff. nia.
    + apply Z.compare_gt_iff. nia.
  - symmetry. apply Z.compare_lt_iff.
    assert (2 ^ da <= 2 ^ (db - 1)) by (apply Z.pow_le_mono_r; lia). lia.
  - symmetry. apply Z.compare_gt_iff.
    assert (2 ^ db <= 2 ^ (da - 1)) by (apply Z.pow_le_mono_r; lia). lia.
Qed.

(** Comparison of exactly represented values with a common scale. *)
Lemma SFcompare_exact (a b g : Z) :
  Z.abs a < 2 ^ prec -> Z.abs b < 2 ^ prec ->
  SFcompare (dyadic a g) (dyadic b g) = Some (a ?= b).
Proof.
  intros Ha Hb.
  destruct a as [|pa|pa]; destruct b as [|pb|pb]; try reflexivity;
    cbn [dyadic]; unfold exact, SFcompare; f_equal.
  - apply compare_exact_pos; assumption.
  - change (Z.neg pa ?= Z.neg pb) with (CompOpp (Z.pos pa ?= Z.pos pb)).
    rewrite <- (compare_exact_pos pa pb g) by assumption.
    destruct (_ ?= _); reflexivity.
Qed.

Lemma SFltb_exact (a b g : Z) :
  Z.abs a < 2 ^ prec -> Z.abs b < 2 ^ prec ->
  SFltb (dyadic a g) (dyadic b g) = (a <? b).
Proof.
  intros Ha Hb. unfold SFltb, Z.ltb. rewrite SFcompare_exact by assumption.
  destruct (a ?= b); reflexivity.
Qed.

Lemma SFleb_exact (a b g : Z) :
  Z.abs a < 2 ^ prec -> Z.abs b < 2 ^ prec ->
  SFleb (dyadic a g) (dyadic b g) = (a <=? b).
Proof.
  intros Ha Hb. unfold SFleb, Z.leb. rewrite SFcompare_exact by assumption.
  destruct (a ?= b); reflexivity.
Qed.

Lemma SFeqb_exact (a b g : Z) :
  Z.abs a < 2 ^ prec -> Z.abs b < 2 ^ prec ->
  SFeqb (dyadic a g) (dyadic b g) = (a =? b).
Proof.
  intros Ha Hb. unfold SFeqb. rewrite SFcompare_exact by assumption.
  rewrite Z.eqb_compare. reflexivity.
Qed.

(** The exponents for which a division by one stays in range. *)
Definition in_range_div (g : Z) : Prop := in_range g /\ in_range (g - 1).

Lemma Zdigits2_mantissa (p : positive) :
  Z.pos (digits2_pos p) <= prec ->
  Zdigits2 (Z.pos (Z.to_pos (Z.pos p * 2 ^ (prec - Z.pos (digits2_pos p))))) = prec.
Proof.
  intros Hd.
  pose proof (digits2_pos_bounds p) as Hb.
  set (d := Z.pos (digits2_pos p)) in *.
  assert (P : 0 < 2 ^ (prec - d)) by (apply Z.pow_pos_nonneg; lia).
  rewrite Z2Pos.id by lia.
  apply Zdigits2_unique; [|lia].
  pose proof (scale_bounds (Z.pos p) d (prec - d) Hb ltac:(lia) ltac:(subst d; lia)) as S.
  replace (d - 1 + (prec - d)) with (prec - 1) in S by lia.
  replace (d + (prec - d)) with prec in S by lia. exact S.
Qed.

(** X / 1 for an exactly represented X. *)
Lemma SFdiv_one_finite (s : bool) (p : positive) (g : Z) :
  Z.pos p < 2 ^ prec -> in_range_div g ->
  SFdiv prec emax (exact s p g) (exact false 1 0) = exact s p g.
Proof.
  intros Hp [Hg Hg1].
  pose proof (digits_le_prec p Hp) as Hd.
  pose proof (Zdigits2_mantissa p Hd) as Dm.
  assert (H1 : Z.pos 1 < 2 ^ prec).
  { change (Z.pos 1) with (2 ^ 0). apply Z.pow_lt_mono_r; lia. }
  pose proof (Zdigits2_mantissa 1 (digits_le_prec 1 H1)) as D1.
  unfold exact at 1 2. unfold SFdiv, SFdiv_core_binary.
  rewrite Dm, D1. clear Dm D1.
  change (Z.pos (digits2_pos 1)) with 1.
  set (d := Z.pos (digits2_pos p)) in *.
  assert (Hd1 : 1 <= d) by (subst d; lia).
  assert (P : 0 < 2 ^ (prec - d)) by (apply Z.pow_pos_nonneg; lia).
  assert (P1 : 0 < 2 ^ (prec - 1)) by (apply Z.pow_pos_nonneg; lia).
  rewrite !Z2Pos.id by lia.
  assert (Ef : fexp prec emax (prec + (d - prec + g) - (prec + (1 - prec + 0)))
               = d - prec + g - 1).
  { unfold fexp, emin. destruct Hg as [L U], Hg1 as [L1 U1]. lia. }
  rewrite Ef.
  replace (Z.min (d - prec + g - 1) (d - prec + g - (1 - prec + 0)))
    with (d - prec + g - 1) by lia.
  replace (d - prec + g - (1 - prec + 0) - (d - prec + g - 1)) with prec by lia.
  cbv zeta. rewrite (shift_match _ prec Hprec).
  assert (Ediv : Z.div_eucl (Z.pos p * 2 ^ (prec - d) * 2 ^ prec) (1 * 2 ^ (prec - 1))
                 = (Z.pos p * 2 ^ (prec - d) * 2 ^ 1, 0)).
  { rewrite Z.mul_1_l.
    pose proof (Z.div_eucl_eq (Z.pos p * 2 ^ (prec - d) * 2 ^ prec)
                              (2 ^ (prec - 1)) ltac:(lia)) as E.
    pose proof (Z.mod_pos_bound (Z.pos p * 2 ^ (prec - d) * 2 ^ prec)
                                (2 ^ (prec - 1)) ltac:(lia)) as B.
    assert (Es : 2 ^ prec = 2 ^ 1 * 2 ^ (prec - 1)).
    { rewrite <- Z.pow_add_r by lia. f_equal. lia. }
    unfold Z.modulo in B.
    destruct (Z.div_eucl _ _) as [qq r]. rewrite Es in E.
    assert (r = 0 /\ qq = Z.pos p * 2 ^ (prec - d) * 2 ^ 1); [|f_equal; tauto].
    assert (Er : r = (Z.pos p * 2 ^ (prec - d) * 2 ^ 1 - qq) * 2 ^ (prec - 1)) by lia.
    set (z := Z.pos p * 2 ^ (prec - d) * 2 ^ 1 - qq) in *.
    set (T := 2 ^ (prec - 1)) in *.
    assert (Hz : z = 0) by (clearbody z T; clear E Es; nia).
    split; [rewrite Er, Hz; reflexivity | subst z; lia]. }
  rewrite Ediv.
  assert (El : new_location (1 * 2 ^ (prec - 1)) 0 = loc_Exact).
  { unfold new_location, new_location_even, new_location_odd.
    destruct (Z.even _); reflexivity. }
  rewrite El, xorb_false_r.
  apply binary_round_aux_exact; [exact Hd | exact Hg | lia].
Qed.

Lemma SFdiv_one_exact (a g : Z) :
  Z.abs a < 2 ^ prec -> in_range_div g ->
  SFdiv prec emax (dyadic a g) (dyadic 1 0) = dyadic a g.
Proof.
  intros Ha Hg. destruct a as [|p|p]; [reflexivity| |];
    cbn [dyadic]; apply SFdiv_one_finite; assumption.
Qed.
End Exact.

(** ** Exactly represented scalars *)

(** The integer part of [a * 2^g], rounded down and up. *)
Definition floor_scaled (a g : Z) : Z := if 0 <=? g then a * 2 ^ g else a / 2 ^ (- g).
Definition ceil_scaled (a g : Z) : Z :=
  if 0 <=? g then a * 2 ^ g else - ((- a) / 2 ^ (- g)).

Lemma signed_mantissa_exact (prec : Z) (s : bool) (p : positive) :
  Z.pos (digits2_pos p) <= prec ->
  signed_mantissa s (Z.to_pos (Z.pos p * 2 ^ (prec - Z.pos (digits2_pos p))))
  = signed s p * 2 ^ (prec - Z.pos (digits2_pos p)).
Proof.
  intros Hd.
  assert (P : 0 < 2 ^ (prec - Z.pos (digits2_pos p))) by (apply Z.pow_pos_nonneg; lia).
  unfold signed_mantissa, signed. destruct s.
  - rewrite <- !Pos2Z.opp_pos, Z2Pos.id by lia. ring.
  - rewrite Z2Pos.id by lia. reflexivity.
Qed.

Lemma floor_of_scaled (a d prec g : Z) :
  d <= prec ->
  (if 0 <=? d - prec + g then a * 2 ^ (prec - d) * 2 ^ (d - prec + g)
   else a * 2 ^ (prec - d) / 2 ^ (- (d - prec + g))) = floor_scaled a g.
Proof.
  intros Hd. unfold floor_scaled.
  destruct (Z.leb_spec 0 (d - prec + g)) as [He|He].
  - destruct (Z.leb_spec 0 g); [|lia].
    rewrite <- Z.mul_assoc, <- Z.pow_add_r by lia. do 2 f_equal. lia.
  - destruct (Z.leb_spec 0 g) as [Hg|Hg].
    + replace (prec - d) with (g + - (d - prec + g)) by lia.
      rewrite Z.pow_add_r by lia. rewrite Z.mul_assoc.
      apply Z.div_mul. apply Z.pow_nonzero; lia.
    + replace (- (d - prec + g)) with (- g + (prec - d)) by lia.
      rewrite Z.pow_add_r by lia.
      apply Z.div_mul_cancel_r; apply Z.pow_nonzero; lia.
Qed.

Lemma SFfloorZ_exact (prec a g : Z) :
  Z.abs a < 2 ^ prec -> 0 < prec ->
  SFfloorZ (dyadic prec a g) = Some (floor_scaled a g).
Proof.
  intros Ha Hp.
  destruct (dyadic_cases prec a g) as [[-> E]|(s & p & -> & E)]; rewrite E.
  - unfold floor_scaled. destruct (0 <=? g); reflexivity.
  - rewrite signed_abs in Ha. pose proof (digits_le_prec prec Hp p Ha) as Hd.
    unfold exact, SFfloorZ. rewrite (signed_mantissa_exact prec s p Hd). f_equal.
    apply floor_of_scaled. exact Hd.
Qed.

Lemma SFceilZ_exact (prec a g : Z) :
  Z.abs a < 2 ^ prec -> 0 < prec ->
  SFceilZ (dyadic prec a g) = Some (ceil_scaled a g).
Proof.
  intros Ha Hp.
  destruct (dyadic_cases prec a g) as [[-> E]|(s & p & -> & E)]; rewrite E.
  - unfold ceil_scaled. destruct (0 <=? g); reflexivity.
  - rewrite signed_abs in Ha. pose proof (digits_le_prec prec Hp p Ha) as Hd.
    unfold exact, SFceilZ. rewrite (signed_mantissa_exact prec s p Hd). f_equal.
    unfold ceil_scaled.
    pose proof (floor_of_scaled (- signed s p) (Z.pos (digits2_pos p)) prec g Hd) as F.
    unfold floor_scaled in F.
    destruct (0 <=? Z.pos (digits2_pos p) - prec + g); destruct (0 <=? g).
    + rewrite !Z.mul_opp_l in F. lia.
    + rewrite !Z.mul_opp_l in F. lia.
    + rewrite !Z.mul_opp_l in F. rewrite F. lia.
    + rewrite Z.mul_opp_l in F. rewrite F. reflexivity.
Qed.

Lemma F32_prec_pos : 0 < F32.prec.
Proof. reflexivity. Qed.

Lemma F64_prec_pos : 0 < F64.prec.
Proof. reflexivity. Qed.

Lemma in_range_F32 (g : Z) : -126 <= g <= 104 -> in_range F32.prec F32.emax g.
Proof. unfold in_range, F32.prec, F32.emax. lia. Qed.

Lemma in_range_F64 (g : Z) : -1022 <= g <= 971 -> in_range F64.prec F64.emax g.
Proof. unfold in_range, F64.prec, F64.emax. lia. Qed.

(** Integers of at most 24 bits are [float]s, those of at most 53 bits are
    [double]s. *)
Lemma F32_of_Z_exact (n : Z) :
  Z.abs n < 2 ^ 24 -> F32.of_Z n = dyadic F32.prec n 0.
Proof.
  intros Hn. unfold F32.of_Z.
  pose proof (binary_normalize_exact F32.prec F32.emax F32_prec_pos
                n 0 0 Hn (in_range_F32 0 ltac:(lia)) ltac:(lia)) as H.
  rewrite Z.mul_1_r in H. exact H.
Qed.

Lemma F64_of_Z_exact (n : Z) :
  Z.abs n < 2 ^ 53 -> F64.of_Z n = dyadic F64.prec n 0.
Proof.
  intros Hn. unfold F64.of_Z.
  pose proof (binary_normalize_exact F64.prec F64.emax F64_prec_pos
                n 0 0 Hn (in_range_F64 0 ltac:(lia)) ltac:(lia)) as H.
  rewrite Z.mul_1_r in H. exact H.
Qed.

(** Widening keeps the value. *)
Lemma F64_of_F32_exact (a g : Z) :
  Z.abs a < 2 ^ 24 -> -1022 <= g <= 971 ->
  F64.of_F32 (dyadic F32.prec a g) = dyadic F64.prec a g.
Proof.
  intros Ha Hg.
  destruct (dyadic_cases F32.prec a g) as [[-> E]|(s & p & -> & E)]; rewrite E.
  - reflexivity.
  - rewrite signed_abs in Ha. rewrite dyadic_signed.
    pose proof (digits_le_prec F32.prec F32_prec_pos p Ha) as Hd.
    unfold exact at 1. unfold F64.of_F32.
    replace (Z.pos (digits2_pos p) - F32.prec + g)
      with (g - (F32.prec - Z.pos (digits2_pos p))) by lia.
    apply (binary_round_exact F64.prec F64.emax F64_prec_pos).
    + unfold F32.prec, F64.prec in *. lia.
    + apply in_range_F64, Hg.
    + lia.
Qed.

Lemma F32_one_exact : F32.one = dyadic F32.prec 1 0.
Proof. vm_compute. reflexivity. Qed.

Lemma F64_one_exact : F64.of_F32 F32.one = dyadic F64.prec 1 0.
Proof. vm_compute. reflexivity. Qed.

(** [kRoundEpsilon], the [float] nearest to 0.001, is [8589935 * 2^-33]. *)
Lemma kRoundEpsilon_exact :
  kRoundEpsilon = dyadic F32.prec 8589935 (-33) /\
  F64.of_F32 kRoundEpsilon = dyadic F64.prec 8589935 (-33).
Proof. split; vm_compute; reflexivity. Qed.

(** A [double] that holds an integer of at most 20 bits: adding the epsilon
    and rounding down, or subtracting it and rounding up, gives the integer
    back. *)
Lemma floor_plus_epsilon (n : Z) :
  Z.abs n < 2 ^ 20 ->
  F64.floor2int (F64.add (dyadic F64.prec n 0) (F64.of_F32 kRoundEpsilon)) = n.
Proof.
  intros Hn. rewrite (proj2 kRoundEpsilon_exact). unfold F64.add.
  assert (P20 : 2 ^ 20 = 1048576) by reflexivity.
  assert (P33 : 2 ^ 33 = 8589934592) by reflexivity.
  assert (P53 : 2 ^ 53 = 9007199254740992) by reflexivity.
  rewrite (SFadd_exact F64.prec F64.emax F64_prec_pos n 8589935 0 (-33)).
  - change (Z.min 0 (-33)) with (-33). change (0 - -33) with 33.
    change (-33 - -33) with 0. rewrite P33.
    unfold F64.floor2int. rewrite SFfloorZ_exact.
    + unfold floor_scaled. change (0 <=? -33) with false. cbv iota.
      change (- -33) with 33. rewrite P33.
      assert (E : (n * 8589934592 + 8589935 * 2 ^ 0) / 8589934592 = n).
      { change (2 ^ 0) with 1. rewrite Z.mul_1_r.
        rewrite Z.add_comm, Z.div_add by lia.
        rewrite Z.div_small by lia. reflexivity. }
      rewrite E. unfold SkTPin, SK_MinS32, SK_MaxS32. lia.
    + unfold F64.prec. change (2 ^ 0) with 1. lia.
    + reflexivity.
  - unfold F64.prec. lia.
  - unfold F64.prec. lia.
  - apply in_range_F64. lia.
  - apply in_range_F64. lia.
  - change (Z.min 0 (-33)) with (-33). change (0 - -33) with 33.
    change (-33 - -33) with 0. unfold F64.prec. change (2 ^ 0) with 1. lia.
Qed.

Lemma ceil_minus_epsilon (n : Z) :
  Z.abs n < 2 ^ 20 ->
  F64.ceil2int (F64.sub (dyadic F64.prec n 0) (F64.of_F32 kRoundEpsilon)) = n.
Proof.
  intros Hn. rewrite (proj2 kRoundEpsilon_exact). unfold F64.sub.
  assert (P20 : 2 ^ 20 = 1048576) by reflexivity.
  assert (P33 : 2 ^ 33 = 8589934592) by reflexivity.
  assert (P53 : 2 ^ 53 = 9007199254740992) by reflexivity.
  rewrite (SFsub_exact F64.prec F64.emax F64_prec_pos n 8589935 0 (-33)).
  - change (Z.min 0 (-33)) with (-33). change (0 - -33) with 33.
    change (-33 - -33) with 0. rewrite P33.
    unfold F64.ceil2int. rewrite SFceilZ_exact.
    + unfold ceil_scaled. change (0 <=? -33) with false. cbv iota.
      change (- -33) with 33. rewrite P33.
      assert (E : - (- (n * 8589934592 - 8589935 * 2 ^ 0) / 8589934592) = n).
      { change (2 ^ 0) with 1. rewrite Z.mul_1_r.
        replace (- (n * 8589934592 - 8589935)) with (8589935 + (- n) * 8589934592) by lia.
        rewrite Z.div_add by lia.
        rewrite Z.div_small by lia. lia. }
      rewrite E. unfold SkTPin, SK_MinS32, SK_MaxS32. lia.
    + unfold F64.prec. change (2 ^ 0) with 1. lia.
    + reflexivity.
  - unfold F64.prec. lia.
  - unfold F64.prec. lia.
  - apply in_range_F64. lia.
  - apply in_range_F64. lia.
  - change (Z.min 0 (-33)) with (-33). change (0 - -33) with 33.
    change (-33 - -33) with 0. unfold F64.prec. change (2 ^ 0) with 1. lia.
Qed.

(** ** Scalars that are rounded *)

Lemma shr_1_half (mrs : shr_record) :
  0 <= shr_m mrs -> shr_m (shr_1 mrs) = shr_m mrs / 2.
Proof.
  destruct mrs as [m r s]. cbn [shr_m]. intros H.
  destruct m as [|[p|p|]|p]; try lia; cbn [shr_1 shr_m].
  - reflexivity.
  - rewrite Pos2Z.inj_xI. apply Z.div_unique with 1; lia.
  - rewrite Pos2Z.inj_xO. apply Z.div_unique with 0; lia.
  - reflexivity.
Qed.

Lemma shr_nat_floor (k : nat) (mrs : shr_record) :
  0 <= shr_m mrs ->
  shr_m (Nat.iter k shr_1 mrs) = shr_m mrs / 2 ^ Z.of_nat k.
Proof.
  intros H. induction k as [|k IH].
  - simpl. rewrite Z.div_1_r. reflexivity.
  - rewrite Nat.iter_succ, shr_1_half.
    + rewrite IH, Nat2Z.inj_succ, Z.pow_succ_r by lia.
      rewrite Z.div_div by (try lia; apply Z.pow_pos_nonneg; lia).
      f_equal. lia.
    + rewrite IH. apply Z.div_pos; [exact H | apply Z.pow_pos_nonneg; lia].
Qed.

Lemma shr_floor (mrs : shr_record) (e k : Z) :
  0 <= shr_m mrs -> 0 <= k ->
  shr_m (fst (shr mrs e k)) = shr_m mrs / 2 ^ k /\ snd (shr mrs e k) = e + k.
Proof.
  intros Hm Hk. unfold shr. destruct k as [|p|p]; try lia.
  - cbn [fst snd]. rewrite Z.div_1_r. split; [reflexivity | lia].
  - cbn [fst snd]. rewrite iter_pos_nat, shr_nat_floor by exact Hm.
    rewrite positive_nat_Z. split; reflexivity.
Qed.

Lemma round_nearest_even_cases (m : Z) (l : location) :
  round_nearest_even m l = m \/ round_nearest_even m l = m + 1.
Proof.
  destruct l as [|[| |]]; cbn [round_nearest_even]; auto.
  destruct (Z.even m); auto.
Qed.

Section Rounded.
Variables prec emax : Z.
Hypothesis Hprec : 0 < prec.

(** Rounding a mantissa that has more digits than the precision: the result
    is the mantissa shifted down, or its successor. *)
Lemma binary_round_inexact (s : bool) (m : positive) (e : Z) :
  prec < Z.pos (digits2_pos m) ->
  3 - emax - prec <= Z.pos (digits2_pos m) + e - prec ->
  Z.pos (digits2_pos m) + e - prec + 1 <= emax - prec ->
  exists q e2,
    binary_round prec emax s m e = S754_finite s q e2 /\
    e + (Z.pos (digits2_pos m) - prec) <= e2 <= e + (Z.pos (digits2_pos m) - prec) + 1 /\
    (Z.pos q * 2 ^ (e2 - (e + (Z.pos (digits2_pos m) - prec)))
       = Z.pos m / 2 ^ (Z.pos (digits2_pos m) - prec) \/
     Z.pos q * 2 ^ (e2 - (e + (Z.pos (digits2_pos m) - prec)))
       = Z.pos m / 2 ^ (Z.pos (digits2_pos m) - prec) + 1).
Proof.
  intros Hd Hlo Hhi.
  set (dg := Z.pos (digits2_pos m)) in *.
  set (D := dg - prec) in *.
  assert (HD : 0 < D) by (subst D; lia).
  pose proof (digits2_pos_bounds m) as Hb. fold dg in Hb.
  assert (Fe : fexp prec emax (dg + e) = e + D).
  { unfold fexp, emin. subst D. lia. }
  unfold binary_round. fold dg. rewrite Fe.
  unfold shl_align.
  replace (e + D - e) with D by lia.
  destruct D as [|pD|pD] eqn:ED; try lia. rewrite <- ED in *.
  unfold binary_round_aux, shr_fexp. cbn [Zdigits2]. fold dg. rewrite Fe.
  replace (e + D - e) with D by lia.
  cbn [shr_record_of_loc].
  destruct (shr_floor (Build_shr_record (Z.pos m) false false) e D) as [Sm Se];
    [cbn; lia | lia |].
  destruct (shr (Build_shr_record (Z.pos m) false false) e D) as [mrs' e'] eqn:E1.
  cbn [fst snd shr_m] in Sm, Se. subst e'.
  set (q0 := Z.pos m / 2 ^ D) in *.
  assert (P : 0 < 2 ^ D) by (apply Z.pow_pos_nonneg; lia).
  assert (Hq0 : 2 ^ (prec - 1) <= q0 < 2 ^ prec).
  { subst q0. split.
    - apply Z.div_le_lower_bound; [exact P|].
      rewrite <- Z.pow_add_r by lia. replace (D + (prec - 1)) with (dg - 1) by (subst D; lia).
      apply Hb.
    - apply Z.div_lt_upper_bound; [exact P|].
      rewrite <- Z.pow_add_r by lia. replace (D + prec) with dg by (subst D; lia).
      apply Hb. }
  assert (P1 : 0 < 2 ^ (prec - 1)) by (apply Z.pow_pos_nonneg; lia).
  assert (P2 : 2 ^ prec = 2 * 2 ^ (prec - 1)).
  { rewrite <- Z.pow_succ_r by lia. f_equal. lia. }
  set (q1 := round_nearest_even (shr_m mrs') (loc_of_shr_record mrs')).
  assert (Hq1 : q1 = q0 \/ q1 = q0 + 1).
  { subst q1. rewrite <- Sm. apply round_nearest_even_cases. }
  destruct (Z.eq_dec q1 (2 ^ prec)) as [Efull|Nfull].
  - (* the rounding carried into one more digit *)
    assert (Dg : Zdigits2 q1 = prec + 1).
    { apply Zdigits2_unique; [|lia]. rewrite Efull.
      replace (prec + 1 - 1) with prec by lia.
      split; [lia|]. rewrite Z.pow_add_r by lia. simpl (2 ^ 1). lia. }
    rewrite Dg.
    assert (Fe2 : fexp prec emax (prec + 1 + (e + D)) = e + D + 1).
    { unfold fexp, emin. subst D. lia. }
    rewrite Fe2. replace (e + D + 1 - (e + D)) with 1 by lia.
    cbn [shr_record_of_loc shr iter_pos].
    rewrite Efull, P2.
    assert (S1 : shr_1 (Build_shr_record (2 * 2 ^ (prec - 1)) false false)
                 = Build_shr_record (2 ^ (prec - 1)) false false).
    { apply shr_1_even. lia. }
    rewrite S1. cbn [shr_m].
    destruct (2 ^ (prec - 1)) as [|pq|pq] eqn:Epq; try lia.
    assert (L : (e + D + 1 <=? emax - prec) = true) by (apply Z.leb_le; subst D; lia).
    rewrite L. exists pq, (e + D + 1).
    split; [reflexivity|]. split; [lia|].
    replace (e + D + 1 - (e + D)) with 1 by lia. simpl (2 ^ 1).
    destruct Hq1 as [H|H]; [left|right]; lia.
  - assert (Hq1b : 2 ^ (prec - 1) <= q1 < 2 ^ prec) by lia.
    assert (Dg : Zdigits2 q1 = prec) by (apply Zdigits2_unique; lia).
    rewrite Dg.
    assert (Fe2 : fexp prec emax (prec + (e + D)) = e + D).
    { unfold fexp, emin. subst D. lia. }
    rewrite Fe2. replace (e + D - (e + D)) with 0 by lia.
    cbn [shr_record_of_loc shr shr_m].
    destruct q1 as [|pq|pq] eqn:Epq; try lia.
    assert (L : (e + D <=? emax - prec) = true) by (apply Z.leb_le; subst D; lia).
    rewrite L. exists pq, (e + D).
    split; [reflexivity|]. split; [lia|].
    replace (e + D - (e + D)) with 0 by lia. rewrite Z.mul_1_r.
    destruct Hq1 as [H|H]; [left|right]; lia.
Qed.

End Rounded.

Section RoundedOps.
Variables prec emax : Z.
Hypothesis Hprec : 0 < prec.

(** The integer that [SFadd] and [SFsub] hand to the rounding. *)
Lemma SFadd_raw (sa sb : bool) (pa pb : positive) (ga gb : Z) :
  Z.pos pa < 2 ^ prec -> Z.pos pb < 2 ^ prec ->
  let ez := Z.min (Z.pos (digits2_pos pa) - prec + ga) (Z.pos (digits2_pos pb) - prec + gb) in
  SFadd prec emax (exact prec sa pa ga) (exact prec sb pb gb) =
  binary_normalize prec emax
    (signed sa pa * 2 ^ (ga - ez) + signed sb pb * 2 ^ (gb - ez)) ez false.
Proof.
  intros Ha Hb ez.
  pose proof (digits_le_prec prec Hprec pa Ha) as Da.
  pose proof (digits_le_prec prec Hprec pb Hb) as Db.
  unfold exact, SFadd. cbv zeta. fold ez.
  rewrite (aligned_value prec sa pa ga ez Da) by (subst ez; lia).
  rewrite (aligned_value prec sb pb gb ez Db) by (subst ez; lia).
  reflexivity.
Qed.

Lemma SFsub_raw (sa sb : bool) (pa pb : positive) (ga gb : Z) :
  Z.pos pa < 2 ^ prec -> Z.pos pb < 2 ^ prec ->
  let ez := Z.min (Z.pos (digits2_pos pa) - prec + ga) (Z.pos (digits2_pos pb) - prec + gb) in
  SFsub prec emax (exact prec sa pa ga) (exact prec sb pb gb) =
  binary_normalize prec emax
    (signed sa pa * 2 ^ (ga - ez) - signed sb pb * 2 ^ (gb - ez)) ez false.
Proof.
  intros Ha Hb ez.
  pose proof (digits_le_prec prec Hprec pa Ha) as Da.
  pose proof (digits_le_prec prec Hprec pb Hb) as Db.
  unfold exact, SFsub. cbv zeta. fold ez.
  rewrite (aligned_value prec sa pa ga ez Da) by (subst ez; lia).
  rewrite (aligned_value prec sb pb gb ez Db) by (subst ez; lia).
  reflexivity.
Qed.

End RoundedOps.

(** Floor and ceiling of a finite scalar with a negative exponent, read at a
    lower exponent. *)
Lemma SFfloorZ_finite (s : bool) (q : positive) (e2 e' : Z) :
  e' <= e2 -> e2 < 0 ->
  SFfloorZ (S754_finite s q e2) = Some ((signed s q * 2 ^ (e2 - e')) / 2 ^ (- e')).
Proof.
  intros H1 H2. cbn [SFfloorZ].
  destruct (Z.leb_spec 0 e2) as [?|_]; [lia|]. f_equal.
  replace (signed_mantissa s q) with (signed s q) by (destruct s; reflexivity).
  replace (2 ^ (- e')) with (2 ^ (- e2) * 2 ^ (e2 - e')).
  2:{ rewrite <- Z.pow_add_r by lia. f_equal. lia. }
  rewrite Z.div_mul_cancel_r; [reflexivity| |];
    apply Z.neq_sym, Z.lt_neq, Z.pow_pos_nonneg; lia.
Qed.

Lemma SFceilZ_finite (s : bool) (q : positive) (e2 e' : Z) :
  e' <= e2 -> e2 < 0 ->
  SFceilZ (S754_finite s q e2) = Some (- ((- (signed s q * 2 ^ (e2 - e'))) / 2 ^ (- e'))).
Proof.
  intros H1 H2. cbn [SFceilZ].
  destruct (Z.leb_spec 0 e2) as [?|_]; [lia|]. f_equal. f_equal.
  replace (signed_mantissa s q) with (signed s q) by (destruct s; reflexivity).
  replace (2 ^ (- e')) with (2 ^ (- e2) * 2 ^ (e2 - e')).
  2:{ rewrite <- Z.pow_add_r by lia. f_equal. lia. }
  rewrite <- Z.mul_opp_l.
  rewrite Z.div_mul_cancel_r; [reflexivity| |];
    apply Z.neq_sym, Z.lt_neq, Z.pow_pos_nonneg; lia.
Qed.

(** The two brackets around a rounded quotient. *)
Lemma rounded_floor (m p D Q : Z) :
  0 <= D <= 62 ->
  p * 2 ^ 62 <= m -> m + 2 ^ D < (p + 1) * 2 ^ 62 ->
  Q = m / 2 ^ D \/ Q = m / 2 ^ D + 1 ->
  Q / 2 ^ (62 - D) = p.
Proof.
  intros HD Hl Hu HQ.
  assert (PD : 0 < 2 ^ D) by (apply Z.pow_pos_nonneg; lia).
  assert (PB : 0 < 2 ^ (62 - D)) by (apply Z.pow_pos_nonneg; lia).
  assert (S : 2 ^ 62 = 2 ^ (62 - D) * 2 ^ D).
  { rewrite <- Z.pow_add_r by lia. f_equal. lia. }
  set (A := 2 ^ D) in *. set (B := 2 ^ (62 - D)) in *.
  pose proof (Z.mul_div_le m A PD) as D1.
  pose proof (Z.mul_succ_div_gt m A PD) as D2.
  set (Q0 := m / A) in *.
  assert (L0 : p * B <= Q0).
  { apply Z.div_le_lower_bound; [exact PD|]. rewrite S in Hl. lia. }
  assert (U0 : Q0 + 1 < (p + 1) * B).
  { apply (Z.mul_lt_mono_pos_l A); [exact PD|]. rewrite S in Hu. lia. }
  symmetry. apply Z.div_unique with (Q - p * B). 
  - left. destruct HQ; lia.
  - lia.
Qed.

Lemma rounded_ceil (m p D Q : Z) :
  0 <= D <= 62 ->
  (p - 1) * 2 ^ 62 + 2 ^ D <= m -> m < p * 2 ^ 62 ->
  Q = m / 2 ^ D \/ Q = m / 2 ^ D + 1 ->
  - ((- Q) / 2 ^ (62 - D)) = p.
Proof.
  intros HD Hl Hu HQ.
  assert (PD : 0 < 2 ^ D) by (apply Z.pow_pos_nonneg; lia).
  assert (PB : 0 < 2 ^ (62 - D)) by (apply Z.pow_pos_nonneg; lia).
  assert (S : 2 ^ 62 = 2 ^ (62 - D) * 2 ^ D).
  { rewrite <- Z.pow_add_r by lia. f_equal. lia. }
  set (A := 2 ^ D) in *. set (B := 2 ^ (62 - D)) in *.
  pose proof (Z.mul_div_le m A PD) as D1.
  pose proof (Z.mul_succ_div_gt m A PD) as D2.
  set (Q0 := m / A) in *.
  assert (L0 : (p - 1) * B < Q0).
  { apply (Z.mul_lt_mono_pos_l A); [exact PD|]. rewrite S in Hl. lia. }
  assert (U0 : Q0 < p * B).
  { apply Z.div_lt_upper_bound; [exact PD|]. rewrite S in Hu. lia. }
  assert (E : (- Q) / B = - p); [|lia].
  symmetry. apply Z.div_unique with (p * B - Q).
  - left. destruct HQ; lia.
  - lia.
Qed.

(** Floor and ceiling of a binary64 value rounded from a mantissa of 82 to
    94 bits at the exponent -62. *)
Lemma rounded_at_62 (s : bool) (m : positive) :
  2 ^ 81 <= Z.pos m < 2 ^ 94 ->
  exists D Q,
    29 <= D <= 41 /\
    (Q = Z.pos m / 2 ^ D \/ Q = Z.pos m / 2 ^ D + 1) /\
    SFfloorZ (binary_round F64.prec F64.emax s m (-62))
      = Some (cond_Zopp s Q / 2 ^ (62 - D)) /\
    SFceilZ (binary_round F64.prec F64.emax s m (-62))
      = Some (- ((- cond_Zopp s Q) / 2 ^ (62 - D))).
Proof.
  intros [Hl Hu].
  pose proof (digits2_pos_bounds m) as [Bl Bu].
  set (dg := Z.pos (digits2_pos m)) in *.
  assert (Hdg : 82 <= dg <= 94).
  { split.
    - assert (81 < dg); [|lia]. apply (Z.pow_lt_mono_r_iff 2); lia.
    - assert (dg - 1 < 94); [|lia]. apply (Z.pow_lt_mono_r_iff 2); lia. }
  destruct (binary_round_inexact F64.prec F64.emax F64_prec_pos s m (-62))
    as (q & e2 & E & He2 & HQ); fold dg; unfold F64.prec, F64.emax; try lia.
  fold dg in He2, HQ. unfold F64.prec in He2, HQ.
  exists (dg - 53), (Z.pos q * 2 ^ (e2 - (-62 + (dg - 53)))).
  split; [lia|]. split; [exact HQ|].
  unfold F64.prec, F64.emax in E |- *. rewrite E.
  rewrite (SFfloorZ_finite s q e2 (-62 + (dg - 53))) by lia.
  rewrite (SFceilZ_finite s q e2 (-62 + (dg - 53))) by lia.
  replace (- (-62 + (dg - 53))) with (62 - (dg - 53)) by lia.
  replace (signed s q * 2 ^ (e2 - (-62 + (dg - 53))))
    with (cond_Zopp s (Z.pos q * 2 ^ (e2 - (-62 + (dg - 53))))).
  2:{ destruct s; cbn [cond_Zopp signed]; [rewrite <- Z.mul_opp_l|]; reflexivity. }
  split; reflexivity.
Qed.

(** The sum and the difference of an integer of 21 to 31 bits and
    [kRoundEpsilon], as handed to the rounding. *)
Lemma epsilon_sum_raw (s : bool) (p : positive) :
  2 ^ 20 <= Z.pos p < 2 ^ 31 ->
  F64.add (dyadic F64.prec (signed s p) 0) (F64.of_F32 kRoundEpsilon) =
  binary_normalize F64.prec F64.emax (signed s p * 2 ^ 62 + 8589935 * 2 ^ 29) (-62) false /\
  F64.sub (dyadic F64.prec (signed s p) 0) (F64.of_F32 kRoundEpsilon) =
  binary_normalize F64.prec F64.emax (signed s p * 2 ^ 62 - 8589935 * 2 ^ 29) (-62) false.
Proof.
  intros [Hl Hu].
  rewrite (proj2 kRoundEpsilon_exact), dyadic_signed.
  change (dyadic F64.prec 8589935 (-33)) with (exact F64.prec false 8589935 (-33)).
  pose proof (digits2_pos_bounds p) as [Bl Bu].
  assert (Hd : 21 <= Z.pos (digits2_pos p)).
  { assert (20 < Z.pos (digits2_pos p)); [|lia]. apply (Z.pow_lt_mono_r_iff 2); lia. }
  assert (Hp : Z.pos p < 2 ^ F64.prec).
  { unfold F64.prec. change (2 ^ 53) with 9007199254740992.
    change (2 ^ 31) with 2147483648 in Hu. lia. }
  assert (He : Z.pos 8589935 < 2 ^ F64.prec) by reflexivity.
  assert (Ez : Z.min (Z.pos (digits2_pos p) - F64.prec + 0)
                     (Z.pos (digits2_pos 8589935) - F64.prec + -33) = -62).
  { change (Z.pos (digits2_pos 8589935)) with 24. unfold F64.prec. lia. }
  unfold F64.add, F64.sub.
  rewrite (SFadd_raw F64.prec F64.emax F64_prec_pos s false p 8589935 0 (-33) Hp He).
  rewrite (SFsub_raw F64.prec F64.emax F64_prec_pos s false p 8589935 0 (-33) Hp He).
  cbv zeta. rewrite Ez.
  change (0 - -62) with 62. change (-33 - -62) with 29.
  change (signed false 8589935) with 8589935.
  split; reflexivity.
Qed.

Lemma pow2_D_le (D : Z) : 29 <= D <= 41 -> 0 < 2 ^ D <= 2 ^ 41.
Proof.
  intros H. split; [apply Z.pow_pos_nonneg; lia | apply Z.pow_le_mono_r; lia].
Qed.

Lemma floor_plus_epsilon_wide (n : Z) :
  2 ^ 20 <= Z.abs n < 2 ^ 31 ->
  F64.floor2int (F64.add (dyadic F64.prec n 0) (F64.of_F32 kRoundEpsilon)) = n.
Proof.
  intros Hn.
  assert (P20 : 2 ^ 20 = 1048576) by reflexivity.
  assert (P31 : 2 ^ 31 = 2147483648) by reflexivity.
  assert (P62 : 2 ^ 62 = 4611686018427387904) by reflexivity.
  assert (P29 : 2 ^ 29 = 536870912) by reflexivity.
  assert (P41 : 2 ^ 41 = 2199023255552) by reflexivity.
  assert (P81 : 2 ^ 81 = 2417851639229258349412352) by reflexivity.
  assert (P94 : 2 ^ 94 = 19807040628566084398385987584) by reflexivity.
  destruct n as [|p|p]; [simpl in Hn; lia| |].
  - change (Z.pos p) with (signed false p) at 1.
    rewrite (proj1 (epsilon_sum_raw false p Hn)).
    cbn [signed]. cbn [Z.abs] in Hn.
    destruct (Z.pos p * 2 ^ 62 + 8589935 * 2 ^ 29) as [|m|m] eqn:Em; try lia.
    cbn [binary_normalize].
    destruct (rounded_at_62 false m) as (D & Q & HD & HQ & Fl & _); [lia|].
    unfold F64.floor2int. rewrite Fl. cbn [cond_Zopp].
    pose proof (pow2_D_le D HD) as PD.
    rewrite (rounded_floor (Z.pos m) (Z.pos p) D Q); try lia.
    unfold SkTPin, SK_MinS32, SK_MaxS32. lia.
  - change (Z.neg p) with (signed true p) at 1.
    rewrite (proj1 (epsilon_sum_raw true p Hn)).
    cbn [signed]. cbn [Z.abs] in Hn.
    destruct (Z.neg p * 2 ^ 62 + 8589935 * 2 ^ 29) as [|m|m] eqn:Em; try lia.
    cbn [binary_normalize].
    destruct (rounded_at_62 true m) as (D & Q & HD & HQ & Fl & _); [lia|].
    unfold F64.floor2int. rewrite Fl. cbn [cond_Zopp].
    pose proof (pow2_D_le D HD) as PD.
    pose proof (rounded_ceil (Z.pos m) (Z.pos p) D Q ltac:(lia) ltac:(lia) ltac:(lia) HQ) as R.
    replace (- Q / 2 ^ (62 - D)) with (Z.neg p) by lia.
    unfold SkTPin, SK_MinS32, SK_MaxS32. lia.
Qed.

Lemma ceil_minus_epsilon_wide (n : Z) :
  2 ^ 20 <= Z.abs n < 2 ^ 31 ->
  F64.ceil2int (F64.sub (dyadic F64.prec n 0) (F64.of_F32 kRoundEpsilon)) = n.
Proof.
  intros Hn.
  assert (P20 : 2 ^ 20 = 1048576) by reflexivity.
  assert (P31 : 2 ^ 31 = 2147483648) by reflexivity.
  assert (P62 : 2 ^ 62 = 4611686018427387904) by reflexivity.
  assert (P29 : 2 ^ 29 = 536870912) by reflexivity.
  assert (P41 : 2 ^ 41 = 2199023255552) by reflexivity.
  assert (P81 : 2 ^ 81 = 2417851639229258349412352) by reflexivity.
  assert (P94 : 2 ^ 94 = 19807040628566084398385987584) by reflexivity.
  destruct n as [|p|p]; [simpl in Hn; lia| |].
  - change (Z.pos p) with (signed false p) at 1.
    rewrite (proj2 (epsilon_sum_raw false p Hn)).
    cbn [signed]. cbn [Z.abs] in Hn.
    destruct (Z.pos p * 2 ^ 62 - 8589935 * 2 ^ 29) as [|m|m] eqn:Em; try lia.
    cbn [binary_normalize].
    destruct (rounded_at_62 false m) as (D & Q & HD & HQ & _ & Ce); [lia|].
    unfold F64.ceil2int. rewrite Ce. cbn [cond_Zopp].
    pose proof (pow2_D_le D HD) as PD.
    rewrite (rounded_ceil (Z.pos m) (Z.pos p) D Q); try lia.
    unfold SkTPin, SK_MinS32, SK_MaxS32. lia.
  - change (Z.neg p) with (signed true p) at 1.
    rewrite (proj2 (epsilon_sum_raw true p Hn)).
    cbn [signed]. cbn [Z.abs] in Hn.
    destruct (Z.neg p * 2 ^ 62 - 8589935 * 2 ^ 29) as [|m|m] eqn:Em; try lia.
    cbn [binary_normalize].
    destruct (rounded_at_62 true m) as (D & Q & HD & HQ & _ & Ce); [lia|].
    unfold F64.ceil2int. rewrite Ce. cbn [cond_Zopp].
    pose proof (pow2_D_le D HD) as PD.
    pose proof (rounded_floor (Z.pos m) (Z.pos p) D Q ltac:(lia) ltac:(lia) ltac:(lia) HQ) as R.
    rewrite Z.opp_involutive, R.
    unfold SkTPin, SK_MinS32, SK_MaxS32. lia.
Qed.

(** The epsilon guard on every integer that an [int] holds: adding
    [kRoundEpsilon] and taking the floor, or subtracting it and taking the
    ceiling, gives the integer back (the sum is rounded once its exact value
    needs more than 53 bits, and stays inside the unit interval). *)
Lemma floor_plus_epsilon_int (n : Z) :
  Z.abs n < 2 ^ 31 ->
  F64.floor2int (F64.add (dyadic F64.prec n 0) (F64.of_F32 kRoundEpsilon)) = n.
Proof.
  intros H. destruct (Z.lt_ge_cases (Z.abs n) (2 ^ 20)) as [S|W].
  - apply floor_plus_epsilon, S.
  - apply floor_plus_epsilon_wide. split; assumption.
Qed.

Lemma ceil_minus_epsilon_int (n : Z) :
  Z.abs n < 2 ^ 31 ->
  F64.ceil2int (F64.sub (dyadic F64.prec n 0) (F64.of_F32 kRoundEpsilon)) = n.
Proof.
  intros H. destruct (Z.lt_ge_cases (Z.abs n) (2 ^ 20)) as [S|W].
  - apply ceil_minus_epsilon, S.
  - apply ceil_minus_epsilon_wide. split; assumption.
Qed.

Lemma F64_min_exact (a b : Z) :
  Z.abs a < 2 ^ 53 -> Z.abs b < 2 ^ 53 ->
  F64.min (dyadic F64.prec a 0) (dyadic F64.prec b 0) = dyadic F64.prec (Z.min a b) 0.
Proof.
  intros Ha Hb. unfold F64.min, F64.ltb.
  rewrite (SFltb_exact F64.prec F64_prec_pos b a 0 Hb Ha).
  destruct (Z.ltb_spec b a); f_equal; lia.
Qed.

Lemma F64_max_exact (a b : Z) :
  Z.abs a < 2 ^ 53 -> Z.abs b < 2 ^ 53 ->
  F64.max (dyadic F64.prec a 0) (dyadic F64.prec b 0) = dyadic F64.prec (Z.max a b) 0.
Proof.
  intros Ha Hb. unfold F64.max, F64.ltb.
  rewrite (SFltb_exact F64.prec F64_prec_pos a b 0 Ha Hb).
  destruct (Z.ltb_spec a b); f_equal; lia.
Qed.

(** The epsilon-guarded rounding of edges that are integers of at most 31
    bits returns them, sorted. *)
Lemma round_edges_exact (l r t b : Z) :
  Z.abs l < 2 ^ 31 -> Z.abs r < 2 ^ 31 -> Z.abs t < 2 ^ 31 -> Z.abs b < 2 ^ 31 ->
  round_edges (dyadic F64.prec l 0) (dyadic F64.prec r 0)
              (dyadic F64.prec t 0) (dyadic F64.prec b 0)
  = Build_SkIRect (Z.min l r) (Z.min t b) (Z.max l r) (Z.max t b).
Proof.
  intros Hl Hr Ht Hb.
  assert (P31 : 2 ^ 31 = 2147483648) by reflexivity.
  assert (P53 : 2 ^ 53 = 9007199254740992) by reflexivity.
  unfold round_edges. cbv zeta.
  rewrite !F64_min_exact, !F64_max_exact by lia.
  rewrite !floor_plus_epsilon_int, !ceil_minus_epsilon_int by lia.
  reflexivity.
Qed.

(** One edge of a rectangle under an integer translation, in double
    precision. *)
Lemma translate_edge (c d : Z) :
  Z.abs c < 2 ^ 31 -> Z.abs d < 2 ^ 24 ->
  F64.add (F64.mul (F64.of_F32 F32.one) (F64.of_Z c)) (F64.of_F32 (F32.of_Z d))
  = dyadic F64.prec (c + d) 0.
Proof.
  intros Hc Hd.
  assert (P24 : 2 ^ 24 = 16777216) by reflexivity.
  assert (P31 : 2 ^ 31 = 2147483648) by reflexivity.
  assert (P53 : 2 ^ 53 = 9007199254740992) by reflexivity.
  rewrite F64_one_exact, F64_of_Z_exact, F32_of_Z_exact, F64_of_F32_exact by lia.
  unfold F64.mul, F64.add.
  rewrite (SFmul_exact F64.prec F64.emax F64_prec_pos 1 c 0 0);
    [|unfold F64.prec; lia|apply in_range_F64; lia|lia|lia].
  rewrite (SFadd_exact F64.prec F64.emax F64_prec_pos (1 * c) d (0 + 0) 0);
    [|unfold F64.prec; lia|unfold F64.prec; lia|apply in_range_F64; lia
     |apply in_range_F64; lia
     |change (Z.min (0 + 0) 0) with 0; change (2 ^ (0 + 0 - 0)) with 1;
      change (2 ^ (0 - 0)) with 1; unfold F64.prec; lia].
  change (Z.min (0 + 0) 0) with 0. change (2 ^ (0 + 0 - 0)) with 1.
  change (2 ^ (0 - 0)) with 1. f_equal. lia.
Qed.

(** The coordinates of a rectangle are integers of less than [n] bits. *)
Definition coords_below (n : Z) (r : SkIRect) : Prop :=
  Z.abs (fLeft r) < 2 ^ n /\ Z.abs (fTop r) < 2 ^ n /\
  Z.abs (fRight r) < 2 ^ n /\ Z.abs (fBottom r) < 2 ^ n.

(** [SkIRect::makeOffset(dx, dy)] *)
Definition offset_by (r : SkIRect) (dx dy : Z) : SkIRect :=
  Build_SkIRect (fLeft r + dx) (fTop r + dy) (fRight r + dx) (fBottom r + dy).

Lemma isScaleTranslate_Translate (dx dy : Z) :
  Matrix.isScaleTranslate (Matrix.Translate dx dy) = true.
Proof. reflexivity. Qed.

(** Mapping a rectangle by an integer translation offsets it, as long as
    the offsets are exact as [float] (24 bits) and the rectangle and its image
    are rectangles of [int] coordinates. *)
Lemma map_scale_translate_Translate (r : SkIRect) (dx dy : Z) :
  IRect.isEmpty r = false -> coords_below 31 r -> coords_below 31 (offset_by r dx dy) ->
  Z.abs dx < 2 ^ 24 -> Z.abs dy < 2 ^ 24 ->
  map_scale_translate r (Matrix.Translate dx dy) = offset_by r dx dy.
Proof.
  intros He (Hl & Ht & Hr & Hb) (Ol & Ot & Or & Ob) Hx Hy.
  cbn [offset_by fLeft fTop fRight fBottom] in Ol, Ot, Or, Ob.
  assert (P31 : 2 ^ 31 = 2147483648) by reflexivity.
  assert (P24 : 2 ^ 24 = 16777216) by reflexivity.
  unfold map_scale_translate. cbv zeta.
  unfold Matrix.Translate, Matrix.ScaleTranslate, Matrix.MakeAll.
  cbn [kMScaleX kMScaleY kMTransX kMTransY].
  rewrite !translate_edge by lia.
  rewrite round_edges_exact by lia.
  apply isEmpty_false_iff in He.
  unfold offset_by. f_equal; lia.
Qed.

Lemma map_SkIRect_Translate_int (ext : Externals) (r : SkIRect) (dx dy : Z) :
  IRect.isEmpty r = false -> coords_below 31 r -> coords_below 31 (offset_by r dx dy) ->
  Z.abs dx < 2 ^ 24 -> Z.abs dy < 2 ^ 24 ->
  map_SkIRect ext r (Matrix.Translate dx dy) = offset_by r dx dy.
Proof.
  intros He Hc Ho Hx Hy.
  unfold map_SkIRect. rewrite He, isScaleTranslate_Translate.
  apply map_scale_translate_Translate; assumption.
Qed.



(** The layer bounds that the constructor computes are those of
    [fTransform.mapRect(dimensions)], whatever the external routines. *)
Lemma FilterResult_make_layerBounds (ext : Externals) (image : option SkSpecialImage)
      (origin : SkIPoint) :
  fLayerBounds (FilterResult_make image origin) =
  mapRect ext (fTransform (FilterResult_make image origin))
          (IRect.MakeSize (match image with
                           | Some i => Image.dimensions i
                           | None => Build_SkISize 0 0
                           end)).
Proof.
  unfold FilterResult_make, mapRect, map_SkIRect. cbv zeta.
  cbn [fLayerBounds fTransform]. rewrite isScaleTranslate_Translate. reflexivity.
Qed.


Lemma coords_below_offset (n : Z) (r : SkIRect) (dx dy : Z) :
  0 <= n -> coords_below n r -> Z.abs dx < 2 ^ n -> Z.abs dy < 2 ^ n ->
  coords_below (n + 1) (offset_by r dx dy).
Proof.
  intros Hn (Hl & Ht & Hr & Hb) Hx Hy.
  unfold coords_below, offset_by. cbn [fLeft fTop fRight fBottom].
  rewrite Z.pow_add_r by lia. change (2 ^ 1) with 2. lia.
Qed.

Lemma coords_below_mono (n k : Z) (r : SkIRect) :
  0 <= n <= k -> coords_below n r -> coords_below k r.
Proof.
  intros Hn (Hl & Ht & Hr & Hb).
  assert (2 ^ n <= 2 ^ k) by (apply Z.pow_le_mono_r; lia).
  unfold coords_below. lia.
Qed.

Lemma map_SkIRect_Translate (ext : Externals) (r : SkIRect) (dx dy : Z) :
  IRect.isEmpty r = false -> coords_below 19 r ->
  Z.abs dx < 2 ^ 19 -> Z.abs dy < 2 ^ 19 ->
  map_SkIRect ext r (Matrix.Translate dx dy) = offset_by r dx dy.
Proof.
  intros He Hc Hx Hy.
  assert (P19 : 2 ^ 19 = 524288) by reflexivity.
  assert (P24 : 2 ^ 24 = 16777216) by reflexivity.
  apply map_SkIRect_Translate_int; try lia; try exact He.
  - apply (coords_below_mono 19 31); [lia | exact Hc].
  - apply (coords_below_mono 20 31); [lia|].
    apply (coords_below_offset 19); [lia | exact Hc | exact Hx | exact Hy].
Qed.

Lemma saturate2int_exact (a : Z) :
  Z.abs a < 2 ^ 24 ->
  saturate2int SK_MinS32 SK_MaxS32 (dyadic F32.prec a 0) = a.
Proof.
  intros Ha.
  assert (P24 : 2 ^ 24 = 16777216) by reflexivity.
  assert (T : SFtruncZ (dyadic F32.prec a 0) = Some a).
  { destruct a as [|p|p].
    - reflexivity.
    - change (SFtruncZ (dyadic F32.prec (Z.pos p) 0))
        with (SFfloorZ (dyadic F32.prec (Z.pos p) 0)).
      rewrite SFfloorZ_exact by (unfold F32.prec; lia).
      unfold floor_scaled. simpl. f_equal. lia.
    - change (SFtruncZ (dyadic F32.prec (Z.neg p) 0))
        with (SFceilZ (dyadic F32.prec (Z.neg p) 0)).
      rewrite SFceilZ_exact by (unfold F32.prec; lia).
      unfold ceil_scaled. simpl. f_equal. lia. }
  unfold saturate2int. rewrite T.
  destruct (dyadic_cases F32.prec a 0) as [[-> E]|(s & p & -> & E)]; rewrite E;
    unfold exact; unfold SkTPin, SK_MinS32, SK_MaxS32; lia.
Qed.

Lemma F32_div_one_exact (a : Z) :
  Z.abs a < 2 ^ 24 -> F32.div (dyadic F32.prec a 0) F32.one = dyadic F32.prec a 0.
Proof.
  intros Ha. rewrite F32_one_exact. unfold F32.div.
  apply (SFdiv_one_exact F32.prec F32.emax F32_prec_pos); [exact Ha|].
  split; apply in_range_F32; lia.
Qed.

Lemma SkScalarRoundToScalar_exact (a : Z) :
  Z.abs a < 2 ^ 24 ->
  SkScalarRoundToScalar (dyadic F32.prec a 0) = dyadic F32.prec a 0.
Proof.
  intros Ha.
  assert (P24 : 2 ^ 24 = 16777216) by reflexivity.
  assert (P53 : 2 ^ 53 = 9007199254740992) by reflexivity.
  unfold SkScalarRoundToScalar.
  rewrite F64_of_F32_exact by lia.
  assert (Hh : F64.div (F64.of_Z 1) (F64.of_Z 2) = dyadic F64.prec 1 (-1))
    by (vm_compute; reflexivity).
  rewrite Hh. unfold F64.add.
  rewrite (SFadd_exact F64.prec F64.emax F64_prec_pos a 1 0 (-1));
    [|unfold F64.prec; lia|unfold F64.prec; lia|apply in_range_F64; lia
     |apply in_range_F64; lia
     |change (Z.min 0 (-1)) with (-1); change (2 ^ (0 - -1)) with 2;
      change (2 ^ (-1 - -1)) with 1; unfold F64.prec; lia].
  change (Z.min 0 (-1)) with (-1). change (2 ^ (0 - -1)) with 2.
  change (2 ^ (-1 - -1)) with 1.
  rewrite SFfloorZ_exact; [|unfold F64.prec; lia|reflexivity].
  unfold floor_scaled. change (0 <=? -1) with false. cbv iota.
  change (2 ^ (- -1)) with 2.
  replace ((a * 2 + 1 * 1) / 2) with a.
  - apply F32_of_Z_exact. exact Ha.
  - rewrite Z.mul_1_l, Z.add_comm, Z.div_add by lia. reflexivity.
Qed.

Lemma SkScalarNearlyEqual_same (a : Z) :
  Z.abs a < 2 ^ 24 ->
  SkScalarNearlyEqual (dyadic F32.prec a 0) (dyadic F32.prec a 0) kRoundEpsilon = true.
Proof.
  intros Ha. unfold SkScalarNearlyEqual, F32.sub.
  rewrite (SFsub_exact F32.prec F32.emax F32_prec_pos a a 0 0);
    [|exact Ha|exact Ha|apply in_range_F32; lia|apply in_range_F32; lia
     |change (Z.min 0 0) with 0; change (2 ^ (0 - 0)) with 1;
      replace (a * 1 - a * 1) with 0 by lia; reflexivity].
  change (Z.min 0 0) with 0. change (2 ^ (0 - 0)) with 1.
  replace (a * 1 - a * 1) with 0 by lia.
  vm_compute. reflexivity.
Qed.

(** A translation by integers of at most 24 bits is recognised, with its
    offset. *)
Lemma is_nearly_integer_translation_Translate (x y : Z) :
  Z.abs x < 2 ^ 24 -> Z.abs y < 2 ^ 24 ->
  is_nearly_integer_translation (Matrix.Translate x y) = Some (Build_SkIPoint x y).
Proof.
  intros Hx Hy. unfold is_nearly_integer_translation. cbv zeta.
  unfold Matrix.Translate, Matrix.ScaleTranslate, Matrix.MakeAll, Matrix.entries.
  cbn [kMScaleX kMSkewX kMTransX kMSkewY kMScaleY kMTransY kMPersp0 kMPersp1 kMPersp2].
  rewrite !F32_of_Z_exact by assumption.
  rewrite !F32_div_one_exact by assumption.
  rewrite !SkScalarRoundToScalar_exact by assumption.
  rewrite !saturate2int_exact by assumption.
  cbn [combine forallb fst snd].
  rewrite !SkScalarNearlyEqual_same by assumption.
  assert (H0 : SkScalarNearlyEqual F32.zero F32.zero kRoundEpsilon = true)
    by (vm_compute; reflexivity).
  assert (H1 : SkScalarNearlyEqual F32.one F32.one kRoundEpsilon = true)
    by (vm_compute; reflexivity).
  rewrite H0, H1. reflexivity.
Qed.

Lemma inverse_translate_edge (c d : Z) :
  Z.abs c < 2 ^ 31 -> Z.abs d < 2 ^ 24 ->
  F64.div (F64.sub (F64.of_Z c) (F64.of_F32 (F32.of_Z d))) (F64.of_F32 F32.one)
  = dyadic F64.prec (c - d) 0.
Proof.
  intros Hc Hd.
  assert (P24 : 2 ^ 24 = 16777216) by reflexivity.
  assert (P31 : 2 ^ 31 = 2147483648) by reflexivity.
  assert (P53 : 2 ^ 53 = 9007199254740992) by reflexivity.
  rewrite F64_one_exact, F64_of_Z_exact, F32_of_Z_exact, F64_of_F32_exact by lia.
  unfold F64.sub, F64.div.
  rewrite (SFsub_exact F64.prec F64.emax F64_prec_pos c d 0 0);
    [|unfold F64.prec; lia|unfold F64.prec; lia|apply in_range_F64; lia
     |apply in_range_F64; lia
     |change (Z.min 0 0) with 0; change (2 ^ (0 - 0)) with 1; unfold F64.prec; lia].
  change (Z.min 0 0) with 0. change (2 ^ (0 - 0)) with 1.
  rewrite !Z.mul_1_r.
  apply (SFdiv_one_exact F64.prec F64.emax F64_prec_pos); [unfold F64.prec; lia|].
  split; apply in_range_F64; lia.
Qed.

(** Mapping a rectangle back through an integer translation offsets it the
    other way. *)
Lemma inverseMapRect_Translate_int (ext : Externals) (r : SkIRect) (dx dy : Z) :
  IRect.isEmpty r = false -> coords_below 31 r ->
  coords_below 31 (offset_by r (- dx) (- dy)) ->
  Z.abs dx < 2 ^ 24 -> Z.abs dy < 2 ^ 24 ->
  inverseMapRect ext (Matrix.Translate dx dy) r = Some (offset_by r (- dx) (- dy)).
Proof.
  intros He (Hl & Ht & Hr & Hb) (Ol & Ot & Or & Ob) Hx Hy.
  cbn [offset_by fLeft fTop fRight fBottom] in Ol, Ot, Or, Ob.
  assert (P31 : 2 ^ 31 = 2147483648) by reflexivity.
  assert (P24 : 2 ^ 24 = 16777216) by reflexivity.
  unfold inverseMapRect. rewrite He, isScaleTranslate_Translate.
  unfold Matrix.Translate, Matrix.ScaleTranslate, Matrix.MakeAll.
  cbn [kMScaleX kMScaleY kMTransX kMTransY].
  change (F32.eqb F32.one F32.zero) with false. cbn [orb]. cbv zeta.
  rewrite !inverse_translate_edge by lia.
  rewrite round_edges_exact by lia.
  apply isEmpty_false_iff in He.
  unfold offset_by. do 2 f_equal; lia.
Qed.

Lemma inverseMapRect_Translate (ext : Externals) (r : SkIRect) (dx dy : Z) :
  IRect.isEmpty r = false -> coords_below 19 r ->
  Z.abs dx < 2 ^ 19 -> Z.abs dy < 2 ^ 19 ->
  inverseMapRect ext (Matrix.Translate dx dy) r = Some (offset_by r (- dx) (- dy)).
Proof.
  intros He Hc Hx Hy.
  assert (P19 : 2 ^ 19 = 524288) by reflexivity.
  assert (P24 : 2 ^ 24 = 16777216) by reflexivity.
  apply inverseMapRect_Translate_int; try lia; try exact He.
  - apply (coords_below_mono 19 31); [lia | exact Hc].
  - apply (coords_below_mono 20 31); [lia|].
    apply (coords_below_offset 19); [lia | exact Hc | lia | lia].
Qed.

Lemma offset_by_nonempty (r : SkIRect) (dx dy : Z) :
  IRect.isEmpty (offset_by r dx dy) = IRect.isEmpty r.
Proof.
  unfold IRect.isEmpty, offset_by. simpl.
  destruct (Z.leb_spec (fRight r) (fLeft r)); destruct (Z.leb_spec (fBottom r) (fTop r));
    destruct (Z.leb_spec (fRight r + dx) (fLeft r + dx));
    destruct (Z.leb_spec (fBottom r + dy) (fTop r + dy)); try reflexivity; lia.
Qed.

Lemma offset_by_back (r : SkIRect) (dx dy : Z) :
  offset_by (offset_by r dx dy) (- dx) (- dy) = r.
Proof. destruct r. unfold offset_by. simpl. f_equal; lia. Qed.

(** The product of an integer translation and the opposite one. *)
Lemma Concat_Translate_opposite (ext : Externals) (dx dy : Z) :
  Z.abs dx < 2 ^ 24 -> Z.abs dy < 2 ^ 24 ->
  Concat ext (Matrix.Translate dx dy) (Matrix.Translate (- dx) (- dy)) = Matrix.I.
Proof.
  intros Hx Hy.
  assert (Hx' : Z.abs (- dx) < 2 ^ 24) by lia.
  assert (Hy' : Z.abs (- dy) < 2 ^ 24) by lia.
  assert (Z0 : Z.abs 0 < 2 ^ 24) by reflexivity.
  assert (Zero : forall d, Z.abs d < 2 ^ 24 ->
                 F32.eqb (F32.of_Z d) F32.zero = true -> d = 0).
  { intros d Hd H. rewrite F32_of_Z_exact in H by exact Hd.
    change F32.zero with (dyadic F32.prec 0 0) in H. unfold F32.eqb in H.
    rewrite (SFeqb_exact F32.prec F32_prec_pos d 0 0 Hd Z0) in H.
    apply Z.eqb_eq in H. exact H. }
  assert (I0 : Matrix.Translate 0 0 = Matrix.I) by reflexivity.
  unfold Concat.
  destruct (Matrix.isIdentity (Matrix.Translate dx dy)) eqn:E1.
  - unfold Matrix.isIdentity in E1. rewrite !andb_true_iff in E1.
    destruct E1 as [[_ Ex] Ey].
    unfold Matrix.Translate, Matrix.ScaleTranslate, Matrix.MakeAll in Ex, Ey.
    cbn [kMTransX kMTransY] in Ex, Ey.
    rewrite (Zero dx Hx Ex), (Zero dy Hy Ey). exact I0.
  - destruct (Matrix.isIdentity (Matrix.Translate (- dx) (- dy))) eqn:E2.
    + unfold Matrix.isIdentity in E2. rewrite !andb_true_iff in E2.
      destruct E2 as [[_ Ex] Ey].
      unfold Matrix.Translate, Matrix.ScaleTranslate, Matrix.MakeAll in Ex, Ey.
      cbn [kMTransX kMTransY] in Ex, Ey.
      assert (dx = 0) by (pose proof (Zero (- dx) Hx' Ex); lia).
      assert (dy = 0) by (pose proof (Zero (- dy) Hy' Ey); lia).
      subst. exact I0.
    + rewrite !isScaleTranslate_Translate. cbn [andb].
      unfold Matrix.Translate, Matrix.ScaleTranslate, Matrix.MakeAll.
      cbn [kMScaleX kMScaleY kMTransX kMTransY].
      assert (M1 : F32.mul F32.one F32.one = F32.one) by (vm_compute; reflexivity).
      assert (T : forall d, Z.abs d < 2 ^ 24 ->
                  F32.add (F32.mul F32.one (F32.of_Z (- d))) (F32.of_Z d) = F32.zero).
      { intros d Hd. assert (Hd' : Z.abs (- d) < 2 ^ 24) by lia.
        rewrite !F32_of_Z_exact by assumption. rewrite F32_one_exact.
        unfold F32.mul, F32.add.
        rewrite (SFmul_exact F32.prec F32.emax F32_prec_pos 1 (- d) 0 0);
          [|unfold F32.prec; lia|apply in_range_F32; lia|lia|lia].
        rewrite (SFadd_exact F32.prec F32.emax F32_prec_pos (1 * - d) d (0 + 0) 0);
          [|unfold F32.prec; lia|exact Hd|apply in_range_F32; lia|apply in_range_F32; lia
           |change (Z.min (0 + 0) 0) with 0; change (2 ^ (0 + 0 - 0)) with 1;
            change (2 ^ (0 - 0)) with 1;
            replace (1 * - d * 1 + d * 1) with 0 by lia; reflexivity].
        change (Z.min (0 + 0) 0) with 0. change (2 ^ (0 + 0 - 0)) with 1.
        change (2 ^ (0 - 0)) with 1.
        replace (1 * - d * 1 + d * 1) with 0 by lia. reflexivity. }
      rewrite M1, (T dx Hx), (T dy Hy). reflexivity.
Qed.



(** ** The empty result *)

Lemma FilterResult_empty_fields :
  fImage FilterResult_empty = None /\
  fColorFilter FilterResult_empty = None /\
  fLayerBounds FilterResult_empty = IRect.MakeEmpty /\
  IRect.isEmpty (fLayerBounds FilterResult_empty) = true.
Proof. repeat split. Qed.

Lemma applyCrop_early_out (ext : Externals) (ctx : Context) (f : FilterResult)
      (crop : SkIRect) (tileMode : SkTileMode) (st : Stats) :
  IRect.isEmpty crop = true \/
  IRect.isEmpty (desiredOutput ctx) = true \/
  fImage f = None \/
  IRect.isEmpty (IRect.meet crop (fLayerBounds f)) = true ->
  applyCrop ext ctx f crop tileMode st = (FilterResult_empty, st).
Proof.
  intros H. unfold applyCrop.
  destruct (IRect.isEmpty crop) eqn:Ec; [reflexivity|].
  destruct (IRect.isEmpty (desiredOutput ctx)) eqn:Ed; [reflexivity|]. simpl.
  destruct (fImage f) as [image|] eqn:Ei; [|reflexivity].
  destruct (IRect.intersect crop (fLayerBounds f)) as [cc|] eqn:Ex; [|reflexivity].
  exfalso. destruct H as [H|[H|[H|H]]]; try congruence.
  apply intersect_None in H. congruence.
Qed.

(** C5. [applyCrop] returns the empty FilterResult, and touches no
    statistics, whenever the crop rectangle is empty, or the desired output of
    the context is empty, or the receiver has no image, or the crop does not
    meet the receiver's layer bounds; that result has no image, no colour
    filter and empty layer bounds. *)
Theorem applyCrop_empty_cases (ext : Externals) (ctx : Context) (f : FilterResult)
        (crop : SkIRect) (tileMode : SkTileMode) (st : Stats) :
  IRect.isEmpty crop = true \/
  IRect.isEmpty (desiredOutput ctx) = true \/
  fImage f = None \/
  IRect.isEmpty (IRect.meet crop (fLayerBounds f)) = true ->
  applyCrop ext ctx f crop tileMode st = (FilterResult_empty, st) /\
  fImage (fst (applyCrop ext ctx f crop tileMode st)) = None /\
  fColorFilter (fst (applyCrop ext ctx f crop tileMode st)) = None /\
  IRect.isEmpty (fLayerBounds (fst (applyCrop ext ctx f crop tileMode st))) = true.
Proof.
  intros H.
  rewrite (applyCrop_early_out ext ctx f crop tileMode st H). simpl. repeat split.
Qed.

Lemma applyCrop_empty_cases_witness :
  let ctx := Reference.context (IRect.MakeWH 10 10) in
  let crop := IRect.MakeLTRB 20 20 30 30 in
  applyCrop Reference.ext ctx Reference.source10 crop kClamp Reference.stats0
    = (FilterResult_empty, Reference.stats0) /\
  fImage (fst (applyCrop Reference.ext ctx Reference.source10 crop kClamp Reference.stats0))
    = None /\
  fColorFilter (fst (applyCrop Reference.ext ctx Reference.source10 crop kClamp
                       Reference.stats0)) = None /\
  IRect.isEmpty (fLayerBounds (fst (applyCrop Reference.ext ctx Reference.source10 crop
                                      kClamp Reference.stats0))) = true.
Proof.
  intros ctx crop.
  apply (applyCrop_empty_cases Reference.ext ctx Reference.source10 crop kClamp
           Reference.stats0).
  right; right; right. reflexivity.
Defined.

(** C10. [inverseMapRect] on an integer rectangle answers [true] with the
    empty rectangle for every empty input, whatever the matrix; for a
    scale-translate matrix with a zero X or Y scale factor and a non-empty
    input it answers [false]. *)
Theorem inverseMapRect_empty_and_singular (ext : Externals) (m : SkMatrix) (rect : SkIRect) :
  (IRect.isEmpty rect = true -> inverseMapRect ext m rect = Some IRect.MakeEmpty) /\
  (IRect.isEmpty rect = false -> Matrix.isScaleTranslate m = true ->
   F32.eqb (kMScaleX m) F32.zero = true \/ F32.eqb (kMScaleY m) F32.zero = true ->
   inverseMapRect ext m rect = None).
Proof.
  unfold inverseMapRect. split.
  - intros ->. reflexivity.
  - intros -> -> [H|H]; rewrite H; [reflexivity|].
    rewrite orb_true_r. reflexivity.
Qed.

Lemma inverseMapRect_empty_and_singular_witness :
  inverseMapRect Reference.ext
    (Matrix.ScaleTranslate F32.zero F32.one F32.zero F32.zero) (IRect.MakeLTRB 5 5 5 9)
    = Some IRect.MakeEmpty /\
  inverseMapRect Reference.ext
    (Matrix.ScaleTranslate F32.zero F32.one F32.zero F32.zero) (IRect.MakeWH 4 4)
    = None.
Proof.
  split.
  - apply (proj1 (inverseMapRect_empty_and_singular Reference.ext
                    (Matrix.ScaleTranslate F32.zero F32.one F32.zero F32.zero)
                    (IRect.MakeLTRB 5 5 5 9))).
    reflexivity.
  - apply (proj2 (inverseMapRect_empty_and_singular Reference.ext
                    (Matrix.ScaleTranslate F32.zero F32.one F32.zero F32.zero)
                    (IRect.MakeWH 4 4))).
    + reflexivity.
    + reflexivity.
    + left. reflexivity.
Defined.

(** ** Step count *)

Lemma SkNextLog2_log2_up (v : Z) :
  1 <= v <= 2 ^ 31 -> SkNextLog2 v = Z.log2_up v.
Proof.
  intros Hv. unfold SkNextLog2.
  rewrite Z.mod_small by (change (2 ^ 32) with 4294967296; change (2 ^ 31) with 2147483648 in Hv; lia).
  unfold Z.log2_up.
  destruct (Z.eqb_spec (v - 1) 0) as [E|E].
  - assert (v = 1) by lia. subst. reflexivity.
  - destruct (Z.compare_spec 1 v) as [C|C|C]; try lia.
    replace (Z.pred v) with (v - 1) by lia. lia.
Qed.

Lemma SkTPin_range (v lo hi : Z) : lo <= hi -> lo <= SkTPin v lo hi <= hi.
Proof. unfold SkTPin. lia. Qed.

Lemma ceil2int_range (x : spec_float) :
  SK_MinS32FitsInFloat <= F32.ceil2int x <= SK_MaxS32FitsInFloat.
Proof.
  assert (R : SK_MinS32FitsInFloat <= SK_MaxS32FitsInFloat) by (vm_compute; discriminate).
  unfold F32.ceil2int.
  destruct (SFceilZ x) as [v|]; [apply SkTPin_range, R|].
  unfold saturate2int.
  destruct x as [s|s| |s m e]; try (destruct s); simpl;
    try (destruct (SFtruncZ _)); try apply SkTPin_range; try lia; vm_compute; split; discriminate.
Qed.

(** Powers of two below the sign bit are themselves as [int]. *)
Lemma wrap_int32_pow2 (k : Z) : 0 <= k <= 30 -> wrap_int32 (2 ^ k) = 2 ^ k.
Proof.
  intros H. unfold wrap_int32.
  assert (0 < 2 ^ k <= 2 ^ 30).
  { split; [apply Z.pow_pos_nonneg; lia | apply Z.pow_le_mono_r; lia]. }
  change (2 ^ 30) with 1073741824 in *. change (2 ^ 31) with 2147483648.
  change (2 ^ 32) with 4294967296.
  rewrite Z.mod_small; lia.
Qed.

(** The collapse limit of a chain of [n] steps. *)
Definition collapse_limit (n : Z) : spec_float :=
  if n =? 1 then kNearIdentityLimit else kMultiPassLimit.

Lemma downscale_step_count_unfold (s : spec_float) :
  let n := SkNextLog2 (F32.ceil2int (F32.div F32.one s)) in
  downscale_step_count s =
  if (0 <? n) &&
     F32.leb (collapse_limit n) (F32.mul s (F32.of_Z (wrap_int32 (Z.shiftl 1 (n - 1)))))
  then n - 1 else n.
Proof.
  unfold downscale_step_count, collapse_limit. simpl.
  destruct (0 <? SkNextLog2 _); simpl; reflexivity.
Qed.

(** C2 (amended). For every scale factor [s] whose reciprocal rounds up to at
    least 1 (every positive one), the step count is [nextLog2(ceil(1/s))],
    the least [n] with [ceil(1/s) <= 2^n], reduced by one exactly when [n > 0]
    and the final step [s * 2^(n-1)] reaches the collapse limit ([0.8] for
    [n > 1], [1 - epsilon] for [n = 1]); in particular the count is 3 for
    [0.1], 1 for [0.49] and 1 for [0.81]. *)
Theorem downscale_step_count_spec (s : spec_float) :
  1 <= F32.ceil2int (F32.div F32.one s) ->
  let n := Z.log2_up (F32.ceil2int (F32.div F32.one s)) in
  (F32.ceil2int (F32.div F32.one s) <= 2 ^ n /\
   (forall k, 0 <= k -> F32.ceil2int (F32.div F32.one s) <= 2 ^ k -> n <= k)) /\
  downscale_step_count s =
    (if (0 <? n) && F32.leb (collapse_limit n) (F32.mul s (F32.of_Z (2 ^ (n - 1))))
     then n - 1 else n) /\
  downscale_step_count (F32.lit 1 10) = 3 /\
  downscale_step_count (F32.lit 49 100) = 1 /\
  downscale_step_count (F32.lit 81 100) = 1.
Proof.
  intros Hv n.
  pose proof (ceil2int_range (F32.div F32.one s)) as R.
  set (v := F32.ceil2int (F32.div F32.one s)) in *.
  assert (Hn : SkNextLog2 v = n).
  { apply SkNextLog2_log2_up. split; [lia|].
    destruct R as [_ R]. unfold SK_MaxS32FitsInFloat in R.
    change (2 ^ 31) with 2147483648. lia. }
  pose proof (downscale_step_count_unfold s) as U. cbv zeta in U.
  fold v in U. rewrite Hn in U.
  clearbody v. subst n.
  split; [split|split].
  - destruct (Z.eq_dec v 1) as [E|E].
    + subst v. change (Z.log2_up 1) with 0. simpl. lia.
    + apply Z.log2_up_spec. lia.
  - intros k Hk Hle.
    destruct (Z.eq_dec v 1) as [E|E].
    + subst v. change (Z.log2_up 1) with 0. lia.
    + assert (P : 0 < v) by lia.
      apply (proj1 (Z.log2_up_le_pow2 v k P) Hle).
  - rewrite U.
    destruct (Z.ltb_spec 0 (Z.log2_up v)) as [P|P]; simpl; [|reflexivity].
    rewrite Z.shiftl_1_l, wrap_int32_pow2; [reflexivity|].
    assert (Z.log2_up v <= 31); [|lia].
    apply Z.log2_up_le_pow2; [lia|].
    destruct R as [_ R]. unfold SK_MaxS32FitsInFloat in R.
    change (2 ^ 31) with 2147483648. lia.
  - repeat split; vm_compute; reflexivity.
Qed.

Lemma downscale_step_count_spec_witness :
  let s := F32.lit 1 10 in
  let n := Z.log2_up (F32.ceil2int (F32.div F32.one s)) in
  (F32.ceil2int (F32.div F32.one s) <= 2 ^ n /\
   (forall k, 0 <= k -> F32.ceil2int (F32.div F32.one s) <= 2 ^ k -> n <= k)) /\
  downscale_step_count s =
    (if (0 <? n) && F32.leb (collapse_limit n) (F32.mul s (F32.of_Z (2 ^ (n - 1))))
     then n - 1 else n) /\
  downscale_step_count (F32.lit 1 10) = 3 /\
  downscale_step_count (F32.lit 49 100) = 1 /\
  downscale_step_count (F32.lit 81 100) = 1.
Proof.
  apply (downscale_step_count_spec (F32.lit 1 10)).
  vm_compute. discriminate.
Defined.

(** C2 (as stated) fails at [0.81]: a single pass is collapsed only when the
    scale is within [epsilon] of the identity, so the count is 1, not 0. *)
Lemma downscale_step_count_081_not_0 :
  downscale_step_count (F32.lit 81 100) = 1 /\
  downscale_step_count (F32.lit 81 100) <> 0.
Proof. split; vm_compute; [reflexivity | discriminate]. Qed.

(** ** Layer bounds never exceed the desired output *)

(** A result is bounded by the desired output of [ctx] when it is empty (it
    has no image) or its layer bounds lie inside the desired output. *)
Definition bounded_by_desired (ctx : Context) (r : FilterResult) : Prop :=
  fImage r = None \/ IRect.within (fLayerBounds r) (desiredOutput ctx).


Lemma updateTileMode_image (ctx : Context) (f : FilterResult) (m : SkTileMode) :
  fImage (updateTileMode ctx f m) = fImage f.
Proof. unfold updateTileMode. destruct (fImage f) eqn:E; simpl; auto. Qed.














(** ** The downscale loop finishes *)




Lemma with_layerBounds_fields (f : FilterResult) (b : SkIRect) :
  fImage (with_layerBounds f b) = fImage f /\
  fLayerBounds (with_layerBounds f b) = b /\
  fTileMode (with_layerBounds f b) = fTileMode f /\
  fColorFilter (with_layerBounds f b) = fColorFilter f.
Proof. repeat split. Qed.




(** C9 (as stated) fails when a coordinate is not exact as a [float]: the
    image placed at the origin (16777216, 0) and cropped, with the tile mode
    decal, to the desired output [[16777217, 16777226) x [0, 10)] keeps its
    columns 1 to 9; the new origin 16777217 becomes the [float] 16777216, and
    the layer bounds that the constructor maps through that transform start
    one pixel left of the desired output. *)
Lemma applyCrop_exceeds_desired_output :
  let desired := IRect.MakeLTRB 16777217 0 16777226 10 in
  let ctx := Reference.context desired in
  let f := FilterResult_make (Some Reference.image10) (Build_SkIPoint 16777216 0) in
  let out := fst (applyCrop Reference.ext ctx f desired kDecal Reference.stats0) in
  fLayerBounds f = IRect.MakeLTRB 16777216 0 16777226 10 /\
  fImage out <> None /\
  fLayerBounds out = IRect.MakeLTRB 16777216 0 16777225 10 /\
  ~ bounded_by_desired ctx out.
Proof.
  cbv zeta. split; [vm_compute; reflexivity|].
  assert (Hi : fImage (fst (applyCrop Reference.ext
                 (Reference.context (IRect.MakeLTRB 16777217 0 16777226 10))
                 (FilterResult_make (Some Reference.image10) (Build_SkIPoint 16777216 0))
                 (IRect.MakeLTRB 16777217 0 16777226 10) kDecal Reference.stats0)) <> None).
  { vm_compute. discriminate. }
  assert (Hb : fLayerBounds (fst (applyCrop Reference.ext
                 (Reference.context (IRect.MakeLTRB 16777217 0 16777226 10))
                 (FilterResult_make (Some Reference.image10) (Build_SkIPoint 16777216 0))
                 (IRect.MakeLTRB 16777217 0 16777226 10) kDecal Reference.stats0))
               = IRect.MakeLTRB 16777216 0 16777225 10).
  { vm_compute. reflexivity. }
  split; [exact Hi|]. split; [exact Hb|].
  intros [H|H]; [exact (Hi H)|].
  rewrite Hb in H. unfold IRect.within in H. simpl in H. lia.
Qed.

(** ** When the layer bounds equal the desired output *)








(** ** Composition of colour filters *)

(** C7 (amended). Whenever [applyColorFilter] reaches its composing return
    (the desired output is not empty, the receiver has an image whose layer
    bounds meet the desired output and, if the new filter affects transparent
    black, the bounds analysis asks for no layer crop), the result keeps the
    receiver's image, transform, sampling and tile mode, renders nothing, and
    carries the composition in which the new filter runs after the existing
    one: [composed(x) = cf(existing(x))]. *)
Theorem applyColorFilter_composes (ext : Externals) (ctx : Context) (f : FilterResult)
        (cf existing : SkColorFilter) (image : SkSpecialImage) (b : SkIRect) (st : Stats) :
  fColorFilter f = Some existing ->
  fImage f = Some image ->
  IRect.isEmpty (desiredOutput ctx) = false ->
  IRect.intersect (fLayerBounds f) (desiredOutput ctx) = Some b ->
  (affectsTransparentBlack cf = true ->
   kRequiresLayerCrop (analyzeBounds ext f image Matrix.I (desiredOutput ctx)) = false) ->
  exists composed,
    applyColorFilter ext ctx f cf st =
      (Build_FilterResult (fImage f) (fSamplingOptions f) (fTileMode f) (fTransform f)
         (Some composed)
         (if affectsTransparentBlack cf then desiredOutput ctx else b), st) /\
    forall x, composed x = cf (existing x).
Proof.
  intros Hcf Hi Hd Hb Hc.
  exists (fun x => cf (existing x)). split; [|reflexivity].
  unfold applyColorFilter. rewrite Hd, Hi, Hb, Hcf. cbv zeta.
  destruct (affectsTransparentBlack cf).
  - rewrite (Hc eq_refl). reflexivity.
  - reflexivity.
Qed.

Lemma applyColorFilter_composes_witness :
  let ctx := Reference.context (IRect.MakeWH 10 10) in
  let f := with_colorFilter Reference.source10 (Some Reference.swapRG) in
  exists composed,
    applyColorFilter Reference.ext ctx f Reference.invert Reference.stats0 =
      (Build_FilterResult (fImage f) (fSamplingOptions f) (fTileMode f) (fTransform f)
         (Some composed)
         (if affectsTransparentBlack Reference.invert then desiredOutput ctx
          else IRect.MakeWH 10 10), Reference.stats0) /\
    forall x, composed x = Reference.invert (Reference.swapRG x).
Proof.
  intros ctx f.
  apply (applyColorFilter_composes Reference.ext ctx f Reference.invert Reference.swapRG
           Reference.image10 (IRect.MakeWH 10 10) Reference.stats0).
  - reflexivity.
  - reflexivity.
  - reflexivity.
  - reflexivity.
  - intros _. vm_compute. reflexivity.
Defined.

(** C7 (as stated) fails where the receiver's layer crop is visible: a
    clamp-tiled result with the filter [swapRG] and layer bounds
    [[0,10)x[0,10)] receives [invert] (which affects transparent black) for
    the desired output [[0,20)x[0,20)].  The crop has to be baked: the
    receiver is rendered (one new surface) together with its filter, and the
    result carries [invert] alone, which differs from [invert . swapRG]
    on red. *)
Lemma applyColorFilter_resolves_instead :
  let ctx1 := Reference.context (IRect.MakeWH 10 10) in
  let ctx2 := Reference.context (IRect.MakeWH 20 20) in
  let r1 := fst (applyCrop Reference.ext ctx1 Reference.source10
                   (IRect.MakeLTRB 2 2 8 8) kClamp Reference.stats0) in
  let f := fst (applyColorFilter Reference.ext ctx1 r1 Reference.swapRG Reference.stats0) in
  let out := applyColorFilter Reference.ext ctx2 f Reference.invert Reference.stats0 in
  (exists existing, fColorFilter f = Some existing /\
                    forall x, existing x = Reference.swapRG x) /\
  fImage (fst out) <> None /\
  fNumOffscreenSurfaces (snd out) = 1 /\
  (exists carried, fColorFilter (fst out) = Some carried /\
                   carried Reference.red = Reference.invert Reference.red /\
                   carried Reference.red <>
                     Reference.invert (Reference.swapRG Reference.red)) /\
  ~ (exists composed, fColorFilter (fst out) = Some composed /\
                      forall x, composed x = Reference.invert (Reference.swapRG x)).
Proof.
  intros ctx1 ctx2 r1 f out.
  assert (Hc : fColorFilter (fst out) = Some Reference.invert)
    by (vm_compute; reflexivity).
  assert (Hn : Reference.invert Reference.red <>
               Reference.invert (Reference.swapRG Reference.red))
    by (vm_compute; discriminate).
  split; [|split; [|split; [|split]]].
  - exists Reference.swapRG. split; [vm_compute; reflexivity|]. intros x. reflexivity.
  - vm_compute. discriminate.
  - vm_compute. reflexivity.
  - exists Reference.invert. split; [exact Hc|]. split; [reflexivity|exact Hn].
  - intros (composed & He & Hx). rewrite Hc in He. inversion He; subst composed.
    apply Hn. apply Hx.
Qed.

(** ** The relevant subset of a crop *)

(** The closest edge of a non-empty source to a non-empty destination that
    it does not overlap: a non-empty part of the source that is one pixel
    thick, on the near side, along every axis on which the two are apart. *)
Lemma ClosestDisjointEdge_spec (src dst : SkIRect) :
  IRect.isEmpty src = false -> IRect.isEmpty dst = false ->
  let e := ClosestDisjointEdge src dst in
  IRect.within e src /\ IRect.isEmpty e = false /\
  (fRight src <= fLeft dst -> fLeft e = fRight src - 1 /\ fRight e = fRight src) /\
  (fRight dst <= fLeft src -> fLeft e = fLeft src /\ fRight e = fLeft src + 1) /\
  (fBottom src <= fTop dst -> fTop e = fBottom src - 1 /\ fBottom e = fBottom src) /\
  (fBottom dst <= fTop src -> fTop e = fTop src /\ fBottom e = fTop src + 1).
Proof.
  intros Hs Hd. unfold ClosestDisjointEdge. rewrite Hs, Hd. simpl.
  apply isEmpty_false_iff in Hs. apply isEmpty_false_iff in Hd.
  unfold SkTPin, IRect.within.
  destruct (Z.leb_spec (fRight src) (fLeft dst));
    destruct (Z.leb_spec (fRight dst) (fLeft src));
    destruct (Z.leb_spec (fBottom src) (fTop dst));
    destruct (Z.leb_spec (fBottom dst) (fTop src));
    simpl; rewrite isEmpty_false_iff; simpl; lia.
Qed.

(** C6 (amended). [relevantSubset(dst, Decal)] is the intersection of the
    source with [dst], the empty rectangle when they are disjoint;
    [relevantSubset(dst, Clamp)] is the intersection when they overlap and
    otherwise the closest row, column or corner pixel(s) of the source;
    [relevantSubset(dst, Repeat)] and [relevantSubset(dst, Mirror)] leave the
    source unchanged.  For a 10x10 image at the origin and the rectangle
    [[20,30)x[20,30)], the closest corner is the pixel (9,9), which is what
    [extract_subset] extracts when clamping; [applyCrop([20,20,30,30], Clamp)]
    on the decal-tiled image is empty, because the crop has no content, and
    on a clamp-tiled receiver whose layer bounds cover the crop it is the
    pixel (9,9) tiled with clamp over the desired output. *)
Theorem relevantSubset_spec (src dst : SkIRect) :
  relevantSubset src dst kDecal =
    (if IRect.isEmpty (IRect.meet src dst) then IRect.MakeEmpty else IRect.meet src dst) /\
  relevantSubset src dst kClamp =
    (if IRect.isEmpty (IRect.meet src dst) then ClosestDisjointEdge src dst
     else IRect.meet src dst) /\
  (IRect.isEmpty src = false -> IRect.isEmpty dst = false ->
   IRect.isEmpty (IRect.meet src dst) = true ->
   IRect.within (relevantSubset src dst kClamp) src /\
   IRect.isEmpty (relevantSubset src dst kClamp) = false /\
   (fRight src <= fLeft dst -> IRect.width (relevantSubset src dst kClamp) = 1) /\
   (fRight dst <= fLeft src -> IRect.width (relevantSubset src dst kClamp) = 1) /\
   (fBottom src <= fTop dst -> IRect.height (relevantSubset src dst kClamp) = 1) /\
   (fBottom dst <= fTop src -> IRect.height (relevantSubset src dst kClamp) = 1)) /\
  relevantSubset src dst kRepeat = src /\
  relevantSubset src dst kMirror = src /\
  (let far := IRect.MakeLTRB 20 20 30 30 in
   let all := IRect.MakeWH 30 30 in
   let clamped := updateTileMode (Reference.context all) Reference.source10 kClamp in
   relevantSubset (IRect.MakeWH 10 10) far kClamp = IRect.MakeLTRB 9 9 10 10 /\
   extract_subset Reference.image10 (Build_SkIPoint 0 0) far true =
     (Some (Image.makeSubset Reference.image10 (IRect.MakeLTRB 9 9 10 10)),
      Build_SkIPoint 9 9) /\
   applyCrop Reference.ext (Reference.context all) Reference.source10 far kClamp
             Reference.stats0 = (FilterResult_empty, Reference.stats0) /\
   applyCrop Reference.ext (Reference.context all) clamped far kClamp Reference.stats0 =
     (Build_FilterResult
        (Some (Image.makeSubset Reference.image10 (IRect.MakeLTRB 9 9 10 10)))
        kDefaultSampling kClamp (Matrix.Translate 9 9) None all,
      Reference.stats0)).
Proof.
  assert (D : relevantSubset src dst kDecal =
              if IRect.isEmpty (IRect.meet src dst) then IRect.MakeEmpty
              else IRect.meet src dst).
  { unfold relevantSubset, IRect.intersect.
    destruct (IRect.isEmpty (IRect.meet src dst)); reflexivity. }
  assert (C : relevantSubset src dst kClamp =
              if IRect.isEmpty (IRect.meet src dst) then ClosestDisjointEdge src dst
              else IRect.meet src dst).
  { unfold relevantSubset, IRect.intersect.
    destruct (IRect.isEmpty (IRect.meet src dst)); reflexivity. }
  split; [exact D|]. split; [exact C|]. split; [|split; [reflexivity|split; [reflexivity|]]].
  - intros Hs Hd Hm. rewrite C, Hm.
    destruct (ClosestDisjointEdge_spec src dst Hs Hd) as (W & E & X1 & X2 & Y1 & Y2).
    unfold IRect.width, IRect.height.
    split; [exact W|]. split; [exact E|].
    split; [intros H; destruct (X1 H); lia|].
    split; [intros H; destruct (X2 H); lia|].
    split; [intros H; destruct (Y1 H); lia|].
    intros H; destruct (Y2 H); lia.
  - cbv zeta. repeat split.
Qed.

Lemma relevantSubset_spec_witness :
  let src := IRect.MakeWH 10 10 in
  let dst := IRect.MakeLTRB 20 3 30 8 in
  IRect.within (relevantSubset src dst kClamp) src /\
  IRect.isEmpty (relevantSubset src dst kClamp) = false /\
  IRect.width (relevantSubset src dst kClamp) = 1 /\
  relevantSubset src dst kClamp = IRect.MakeLTRB 9 3 10 8.
Proof.
  intros src dst.
  destruct (relevantSubset_spec src dst) as (_ & _ & H & _).
  destruct H as (W & E & X & _); [reflexivity | reflexivity | reflexivity |].
  split; [exact W|]. split; [exact E|]. split; [|reflexivity].
  apply X. simpl. lia.
Defined.

(** C6 (as stated) fails on its example: for a 10x10 decal-tiled image at the
    origin, [applyCrop([20,20,30,30], Clamp)] is the empty FilterResult, not
    the pixel (9,9) stretched over the crop: the crop does not meet the layer
    bounds of the image, so it holds nothing to tile. *)
Lemma applyCrop_clamp_disjoint_is_empty :
  let far := IRect.MakeLTRB 20 20 30 30 in
  fImage (fst (applyCrop Reference.ext (Reference.context far) Reference.source10 far
                 kClamp Reference.stats0)) = None /\
  fImage (fst (applyCrop Reference.ext (Reference.context (IRect.MakeWH 30 30))
                 Reference.source10 far kClamp Reference.stats0)) = None.
Proof. split; reflexivity. Qed.

(** ** A periodic tile that covers the output with one period *)






(** ** Cropping twice *)



(** The decal extraction, when the image overlaps the destination. *)
Lemma extract_subset_decal_Some (image : SkSpecialImage) (origin : SkIPoint)
      (dst ib : SkIRect) :
  IRect.intersect (IRect.MakeXYWH (ipX origin) (ipY origin)
                                  (Image.width image) (Image.height image)) dst = Some ib ->
  exists image',
    extract_subset image origin dst false = (Some image', IRect.topLeft ib) /\
    IRect.MakeXYWH (fLeft ib) (fTop ib) (Image.width image') (Image.height image') = ib.
Proof.
  intros Hx. unfold extract_subset, relevantSubset. cbv zeta. rewrite Hx.
  destruct (intersect_Some _ _ _ Hx) as [_ He]. rewrite He.
  eexists. split; [reflexivity|].
  apply SkIRect_eq; unfold Image.width, Image.height, IRect.width, IRect.height;
    simpl; lia.
Qed.

Lemma extract_subset_decal_None (image : SkSpecialImage) (origin : SkIPoint)
      (dst : SkIRect) :
  IRect.intersect (IRect.MakeXYWH (ipX origin) (ipY origin)
                                  (Image.width image) (Image.height image)) dst = None ->
  extract_subset image origin dst false = (None, Build_SkIPoint 0 0).
Proof.
  intros Hx. unfold extract_subset, relevantSubset. cbv zeta. rewrite Hx. reflexivity.
Qed.













(** The same happens with Clamp when the crop lies outside the desired
    output: once, the closest pixel (9,9) is clamped over the desired output;
    twice, nothing is left. *)
Lemma applyCrop_clamp_not_idempotent :
  let ctx := Reference.context (IRect.MakeLTRB 20 20 30 30) in
  let crop := IRect.MakeWH 10 10 in
  let once := applyCrop Reference.ext ctx Reference.source10 crop kClamp Reference.stats0 in
  let twice := applyCrop Reference.ext ctx (fst once) crop kClamp (snd once) in
  pixelAt (fst once) 25 25 = Some Reference.red /\
  pixelAt (fst twice) 25 25 = Some kTransparent.
Proof. split; vm_compute; reflexivity. Qed.

(* ===================================================================== *)
(** * Further properties of the pipeline *)
(* ===================================================================== *)

(** ** What [extract_subset] returns *)

(** A relevant subset for decal or clamp tiling that is not empty is a part
    of the source, and then neither the source nor the destination is
    empty. *)
Lemma relevantSubset_nonempty (src dst : SkIRect) (m : SkTileMode) :
  m = kDecal \/ m = kClamp ->
  IRect.isEmpty (relevantSubset src dst m) = false ->
  IRect.within (relevantSubset src dst m) src /\
  IRect.isEmpty src = false /\ IRect.isEmpty dst = false /\
  (m = kDecal -> IRect.within (relevantSubset src dst m) dst).
Proof.
  intros Hm He.
  assert (Hsd : IRect.isEmpty src = false /\ IRect.isEmpty dst = false).
  { unfold relevantSubset in He.
    destruct (IRect.intersect src dst) as [c|] eqn:Ex.
    - destruct (intersect_Some _ _ _ Ex) as [-> Hc].
      apply isEmpty_false_iff in Hc. simpl in Hc.
      rewrite !isEmpty_false_iff. lia.
    - destruct Hm as [-> | ->]; [discriminate He|].
      unfold ClosestDisjointEdge in He.
      destruct (IRect.isEmpty src); [discriminate He|].
      destruct (IRect.isEmpty dst); [discriminate He|]. auto. }
  destruct Hsd as [Hs Hd]. split; [|split; [exact Hs|split; [exact Hd|]]].
  - unfold relevantSubset in *.
    destruct (IRect.intersect src dst) as [c|] eqn:Ex.
    + destruct Hm as [-> | ->]; apply (intersect_within _ _ _ Ex).
    + destruct Hm as [-> | ->]; [discriminate He|].
      apply (ClosestDisjointEdge_spec src dst Hs Hd).
  - intros ->. unfold relevantSubset in *.
    destruct (IRect.intersect src dst) as [c|] eqn:Ex; [|discriminate He].
    apply (intersect_within _ _ _ Ex).
Qed.

(** X1. Whenever [extract_subset] returns an image, it is the image cut to a
    subset that satisfies the assertion of the source (it lies within
    [[0,width] x [0,height]]) and is not empty; placed at the returned origin
    it covers a part of the area that the image covers at [origin] (a part of
    [dstBounds] as well, unless the closest edge was clamped), and at every
    layer position it shows the pixel that the original image shows there. *)
Theorem extract_subset_in_image (image : SkSpecialImage) (origin : SkIPoint)
        (dstBounds : SkIRect) (clampSrcIfDisjoint : bool)
        (image' : SkSpecialImage) (origin' : SkIPoint) :
  extract_subset image origin dstBounds clampSrcIfDisjoint = (Some image', origin') ->
  let placed := IRect.MakeXYWH (ipX origin) (ipY origin)
                               (Image.width image) (Image.height image) in
  let placed' := IRect.MakeXYWH (ipX origin') (ipY origin')
                                (Image.width image') (Image.height image') in
  (exists subset,
      image' = Image.makeSubset image subset /\
      0 <= fLeft subset /\ 0 <= fTop subset /\
      fRight subset <= Image.width image /\ fBottom subset <= Image.height image /\
      IRect.isEmpty subset = false) /\
  IRect.isEmpty placed' = false /\
  IRect.within placed' placed /\
  (clampSrcIfDisjoint = false -> IRect.within placed' dstBounds) /\
  (forall x y, Image.pixel image' (x - ipX origin') (y - ipY origin')
               = Image.pixel image (x - ipX origin) (y - ipY origin)).
Proof.
  intros H placed placed'. unfold extract_subset in H. cbv zeta in H. fold placed in H.
  set (m := if clampSrcIfDisjoint then kClamp else kDecal) in H.
  destruct (IRect.isEmpty (relevantSubset placed dstBounds m)) eqn:He; [discriminate H|].
  assert (Hm : m = kDecal \/ m = kClamp) by (subst m; destruct clampSrcIfDisjoint; auto).
  destruct (relevantSubset_nonempty placed dstBounds m Hm He) as (W & _ & _ & Wd).
  set (ib := relevantSubset placed dstBounds m) in *.
  inversion H as [[Hi Ho]]. clear H.
  pose proof (proj1 (isEmpty_false_iff ib) He) as Hne.
  unfold IRect.within in W. subst placed. simpl in W.
  assert (Hp : placed' = ib).
  { subst placed' origin' image'.
    apply SkIRect_eq; unfold Image.width, Image.height, IRect.width, IRect.height;
      simpl; lia. }
  split.
  - eexists. split; [reflexivity|].
    unfold Image.width, Image.height, IRect.width, IRect.height in *.
    rewrite isEmpty_false_iff. simpl. lia.
  - rewrite Hp. split; [exact He|]. split.
    + unfold IRect.within. simpl. lia.
    + split.
      * intros ->. apply Wd. reflexivity.
      * intros x y. unfold Image.pixel. simpl. f_equal; lia.
Qed.

Lemma extract_subset_in_image_witness :
  let far := IRect.MakeLTRB 20 20 30 30 in
  let image' := Image.makeSubset Reference.image10 (IRect.MakeLTRB 9 9 10 10) in
  IRect.within (IRect.MakeXYWH 9 9 (Image.width image') (Image.height image'))
               (IRect.MakeXYWH 0 0 (Image.width Reference.image10)
                               (Image.height Reference.image10)) /\
  (forall x y, Image.pixel image' (x - 9) (y - 9)
               = Image.pixel Reference.image10 (x - 0) (y - 0)).
Proof.
  intros far image'.
  destruct (extract_subset_in_image Reference.image10 (Build_SkIPoint 0 0) far true
              image' (Build_SkIPoint 9 9) eq_refl) as (_ & _ & W & _ & P).
  split; [exact W | exact P].
Defined.

(** X2. [extract_subset] returns no image exactly when nothing is relevant:
    without clamping, when the image placed at [origin] does not intersect
    [dstBounds]; with clamping, only when the image or [dstBounds] is
    empty. *)
Theorem extract_subset_null_iff (image : SkSpecialImage) (origin : SkIPoint)
        (dstBounds : SkIRect) (clampSrcIfDisjoint : bool) :
  let placed := IRect.MakeXYWH (ipX origin) (ipY origin)
                               (Image.width image) (Image.height image) in
  fst (extract_subset image origin dstBounds clampSrcIfDisjoint) = None <->
  (if clampSrcIfDisjoint
   then IRect.isEmpty placed = true \/ IRect.isEmpty dstBounds = true
   else IRect.intersect placed dstBounds = None).
Proof.
  intros placed. unfold extract_subset. cbv zeta. fold placed.
  destruct clampSrcIfDisjoint.
  - destruct (IRect.isEmpty (relevantSubset placed dstBounds kClamp)) eqn:He.
    + split; [intros _|reflexivity].
      unfold relevantSubset in He.
      destruct (IRect.intersect placed dstBounds) as [c|] eqn:Ex.
      * destruct (intersect_Some _ _ _ Ex) as [_ Hc]. congruence.
      * destruct (IRect.isEmpty placed) eqn:Hs; [auto|].
        destruct (IRect.isEmpty dstBounds) eqn:Hd; [auto|].
        destruct (ClosestDisjointEdge_spec placed dstBounds Hs Hd) as (_ & E & _).
        congruence.
    + split; [discriminate|]. intros H. exfalso.
      destruct (relevantSubset_nonempty placed dstBounds kClamp (or_intror eq_refl) He)
        as (_ & Hs & Hd & _).
      destruct H; congruence.
  - unfold relevantSubset.
    destruct (IRect.intersect placed dstBounds) as [c|] eqn:Ex.
    + destruct (intersect_Some _ _ _ Ex) as [_ Hc]. rewrite Hc.
      split; discriminate.
    + split; reflexivity.
Qed.

Lemma isEmpty_LTRB_false (l t r b : Z) :
  l < r -> t < b -> IRect.isEmpty (IRect.MakeLTRB l t r b) = false.
Proof. intros. apply isEmpty_false_iff. simpl. lia. Qed.

(** The closest edge is again disjoint from the destination, and it is its
    own closest edge. *)
Lemma ClosestDisjointEdge_fixed (src dst : SkIRect) :
  IRect.isEmpty src = false -> IRect.isEmpty dst = false ->
  IRect.isEmpty (IRect.meet src dst) = true ->
  IRect.isEmpty (IRect.meet (ClosestDisjointEdge src dst) dst) = true /\
  ClosestDisjointEdge (ClosestDisjointEdge src dst) dst = ClosestDisjointEdge src dst.
Proof.
  intros Hs Hd Hm.
  pose proof (ClosestDisjointEdge_spec src dst Hs Hd) as (_ & He & _).
  unfold ClosestDisjointEdge at 2. rewrite He, Hd. cbn [orb].
  revert He. unfold ClosestDisjointEdge. rewrite Hs, Hd. cbn [orb].
  apply isEmpty_false_iff in Hs. apply isEmpty_false_iff in Hd.
  apply isEmpty_true_iff in Hm.
  destruct src as [sl st sr sb], dst as [dl dt dr db].
  unfold IRect.meet in *. cbn [fLeft fTop fRight fBottom] in *.
  unfold SkTPin.
  destruct (Z.leb_spec sr dl) as [X1|X1]; [|destruct (Z.leb_spec dr sl) as [X2|X2]];
    (destruct (Z.leb_spec sb dt) as [Y1|Y1]; [|destruct (Z.leb_spec db st) as [Y2|Y2]]);
    cbv iota beta; unfold IRect.MakeLTRB; cbn [fLeft fTop fRight fBottom]; intros He;
    apply isEmpty_false_iff in He; cbn [fLeft fTop fRight fBottom] in He;
    (split; [apply isEmpty_true_iff; cbn [fLeft fTop fRight fBottom]; lia|]);
    repeat match goal with
           | |- context [?a <=? ?b] =>
               destruct (Z.leb_spec a b); try lia; cbv iota beta
           end;
    f_equal; lia.
Qed.

(** X3. Taking the relevant subset again, for the same destination and
    tile mode, changes nothing. *)
Theorem relevantSubset_idempotent (src dst : SkIRect) (m : SkTileMode) :
  relevantSubset (relevantSubset src dst m) dst m = relevantSubset src dst m.
Proof.
  destruct m; try reflexivity.
  - (* clamp *)
    destruct (IRect.isEmpty (relevantSubset src dst kClamp)) eqn:He.
    + unfold relevantSubset at 1.
      destruct (IRect.intersect (relevantSubset src dst kClamp) dst) as [c|] eqn:Ex.
      * destruct (intersect_Some _ _ _ Ex) as [-> Hc].
        apply isEmpty_false_iff in Hc. apply isEmpty_true_iff in He.
        unfold IRect.meet in Hc. cbn [fLeft fRight fTop fBottom] in Hc. lia.
      * unfold ClosestDisjointEdge. rewrite He. cbn [orb].
        unfold relevantSubset in *.
        destruct (IRect.intersect src dst) as [c|] eqn:Ey.
        -- destruct (intersect_Some _ _ _ Ey) as [_ Hc]. congruence.
        -- unfold ClosestDisjointEdge in *.
           destruct (IRect.isEmpty src || IRect.isEmpty dst) eqn:Esd; [reflexivity|].
           apply orb_false_iff in Esd. destruct Esd as [Hs Hd].
           destruct (ClosestDisjointEdge_spec src dst Hs Hd) as (_ & E & _).
           unfold ClosestDisjointEdge in E. rewrite Hs, Hd in E. cbn [orb] in E.
           congruence.
    + destruct (relevantSubset_nonempty src dst kClamp (or_intror eq_refl) He)
        as (_ & Hs & Hd & _).
      unfold relevantSubset in *.
      destruct (IRect.intersect src dst) as [c|] eqn:Ey.
      * destruct (intersect_within _ _ _ Ey) as [_ Wd].
        rewrite (intersect_absorb_l dst c Wd He). reflexivity.
      * apply intersect_None in Ey.
        destruct (ClosestDisjointEdge_fixed src dst Hs Hd Ey) as [Hm Hf].
        apply intersect_None in Hm. rewrite Hm. exact Hf.
  - (* decal *)
    unfold relevantSubset.
    destruct (IRect.intersect src dst) as [c|] eqn:Ey.
    + destruct (intersect_Some _ _ _ Ey) as [_ Hc].
      destruct (intersect_within _ _ _ Ey) as [_ Wd].
      rewrite (intersect_absorb_l dst c Wd Hc). reflexivity.
    + assert (Hn : IRect.intersect IRect.MakeEmpty dst = None).
      { apply intersect_None, isEmpty_true_iff. simpl. lia. }
      rewrite Hn. reflexivity.
Qed.

(** ** The flags of the bounds analysis *)

(** X4. The flags of a bounds analysis are consistent with the receiver: a
    layer-filling effect is reported only together with an uncovered
    destination and only for a result that fills its layer bounds (a tile
    mode other than decal, or a colour filter that affects transparent
    black); decal in layer space is requested only for a decal-tiled result
    whose sampling is not nearest-neighbour (the assertion of
    [getAnalyzedShaderView]); a layer crop is required only when the layer
    bounds do not contain the destination; and a decal-tiled result without
    colour filter never has a layer-filling effect. *)
Theorem analyzeBounds_flags (ext : Externals) (f : FilterResult) (image : SkSpecialImage)
        (xtraTransform : SkMatrix) (dstBounds : SkIRect) :
  let a := analyzeBounds ext f image xtraTransform dstBounds in
  (kHasLayerFillingEffect a = true ->
   kDstBoundsNotCovered a = true /\
   (fTileMode f <> kDecal \/
    exists cf, fColorFilter f = Some cf /\ affectsTransparentBlack cf = true)) /\
  (kRequiresDecalInLayerSpace a = true ->
   fTileMode f = kDecal /\ Sampling.eqb (fSamplingOptions f) kNearestNeighbor = false) /\
  (kRequiresLayerCrop a = true ->
   sk_QuadContainsIRect ext xtraTransform (fLayerBounds f) dstBounds kRoundEpsilon = false) /\
  (fTileMode f = kDecal -> fColorFilter f = None -> kHasLayerFillingEffect a = false).
Proof.
  unfold analyzeBounds. cbv zeta.
  destruct (sk_QuadContainsRectMask ext _ _ _ _) as [[[eT eR] eB] eL].
  assert (Hd : forall b c d : bool,
             b && SkTileMode_eqb (fTileMode f) kDecal && c && d = true ->
             fTileMode f = kDecal /\ c = true).
  { intros b c d H. rewrite !andb_true_iff in H. destruct H as [[[_ H1] H2] _].
    split; [apply SkTileMode_eqb_eq, H1 | exact H2]. }
  assert (Hf : fillsLayerBounds f = true ->
               fTileMode f <> kDecal \/
               exists cf, fColorFilter f = Some cf /\ affectsTransparentBlack cf = true).
  { unfold fillsLayerBounds. intros H2. apply orb_true_iff in H2. destruct H2 as [H2|H2].
    - left. apply negb_true_iff in H2. apply SkTileMode_eqb_neq in H2. exact H2.
    - right. destruct (fColorFilter f) as [cf|]; [|discriminate H2].
      exists cf. split; [reflexivity | exact H2]. }
  assert (Hn : fTileMode f = kDecal -> fColorFilter f = None -> fillsLayerBounds f = false).
  { intros Ht Hc. unfold fillsLayerBounds. rewrite Ht, Hc. reflexivity. }
  destruct (fTileMode f) eqn:Et; cbv iota beta;
    cbn [kHasLayerFillingEffect kDstBoundsNotCovered kRequiresDecalInLayerSpace
         kRequiresLayerCrop];
    (split;
     [ intros H; apply andb_true_iff in H; destruct H as [H1 H2]; split; [exact H1|auto]
     | split;
       [ intros H; destruct (Hd _ _ _ H) as [E1 E2]; split;
         [exact E1 | apply negb_true_iff, E2]
       | split;
         [ destruct (sk_QuadContainsIRect ext xtraTransform (fLayerBounds f) dstBounds
                                          kRoundEpsilon); [discriminate | reflexivity]
         | intros Ht Hc; rewrite (Hn Ht Hc); apply andb_false_r ]]]).
Qed.

(** ** Statistics *)

Definition surfaces_added (st st' : Stats) : Z :=
  fNumOffscreenSurfaces st' - fNumOffscreenSurfaces st.

Definition tiled_draws_added (st st' : Stats) : Z :=
  (fNumShaderClampedDraws st' - fNumShaderClampedDraws st) +
  (fNumShaderBasedTilingDraws st' - fNumShaderBasedTilingDraws st).

(** No counter decreases, and the counters of visited filters and of cache
    hits are left alone. *)
Definition stats_monotone (st st' : Stats) : Prop :=
  fNumVisitedImageFilters st' = fNumVisitedImageFilters st /\
  fNumCacheHits st' = fNumCacheHits st /\
  fNumOffscreenSurfaces st <= fNumOffscreenSurfaces st' /\
  fNumShaderClampedDraws st <= fNumShaderClampedDraws st' /\
  fNumShaderBasedTilingDraws st <= fNumShaderBasedTilingDraws st'.

(** At most [n] new surfaces, and no more shader-tiled draws than
    surfaces. *)
Definition stats_within (n : Z) (st st' : Stats) : Prop :=
  stats_monotone st st' /\
  tiled_draws_added st st' <= surfaces_added st st' /\
  surfaces_added st st' <= n.

Ltac stats_lia :=
  unfold stats_within, stats_monotone, tiled_draws_added, surfaces_added in *; lia.

Lemma stats_within_refl (n : Z) (st : Stats) : 0 <= n -> stats_within n st st.
Proof.
  unfold stats_within, stats_monotone, tiled_draws_added, surfaces_added. lia.
Qed.

Lemma stats_within_trans (n m : Z) (a b c : Stats) :
  stats_within n a b -> stats_within m b c -> stats_within (n + m) a c.
Proof.
  unfold stats_within, stats_monotone, tiled_draws_added, surfaces_added. lia.
Qed.

Lemma stats_within_le (n m : Z) (a b : Stats) :
  n <= m -> stats_within n a b -> stats_within m a b.
Proof.
  unfold stats_within, stats_monotone, tiled_draws_added, surfaces_added. lia.
Qed.

Lemma mark_tiling_stats (m : SkTileMode) (st : Stats) :
  stats_monotone st (snd (markShaderBasedTilingRequired m st)) /\
  surfaces_added st (snd (markShaderBasedTilingRequired m st)) = 0 /\
  tiled_draws_added st (snd (markShaderBasedTilingRequired m st)) = 1.
Proof.
  unfold stats_monotone, tiled_draws_added, surfaces_added, markShaderBasedTilingRequired.
  destruct m; simpl; lia.
Qed.

Lemma shaderView_stats (f : FilterResult) (a : BoundsAnalysis) (st : Stats) :
  stats_monotone st (snd (getAnalyzedShaderView_stats f a st)) /\
  surfaces_added st (snd (getAnalyzedShaderView_stats f a st)) = 0 /\
  0 <= tiled_draws_added st (snd (getAnalyzedShaderView_stats f a st)) <= 1.
Proof.
  unfold getAnalyzedShaderView_stats.
  destruct (kRequiresShaderTiling a).
  - destruct (mark_tiling_stats
                (if negb (kDstBoundsNotCovered a) || kRequiresDecalInLayerSpace a
                 then kClamp else fTileMode f) st) as (M & S & T).
    split; [exact M|]. split; [exact S|]. lia.
  - unfold ret, stats_monotone, tiled_draws_added, surfaces_added. simpl. lia.
Qed.

(** A draw creates no surface and marks at most one shader-tiled draw. *)
Lemma draw_stats (ext : Externals) (f : FilterResult) (image : SkSpecialImage)
      (l2d : SkMatrix) (clip : SkIRect) (st : Stats) :
  stats_monotone st (snd (draw ext f image l2d clip st)) /\
  surfaces_added st (snd (draw ext f image l2d clip st)) = 0 /\
  0 <= tiled_draws_added st (snd (draw ext f image l2d clip st)) <= 1.
Proof.
  unfold draw. cbv zeta. unfold bind.
  set (a := analyzeBounds ext f image l2d clip).
  destruct (kHasLayerFillingEffect a).
  - pose proof (shaderView_stats f a st) as H.
    destruct (getAnalyzedShaderView_stats f a st) as [u st1]. exact H.
  - destruct (kRequiresShaderTiling a).
    + pose proof (mark_tiling_stats kClamp st) as H.
      destruct (markShaderBasedTilingRequired kClamp st) as [u st1].
      simpl in *. destruct H as (M & S & T). split; [exact M|]. split; [exact S|]. lia.
    + unfold ret, stats_monotone, tiled_draws_added, surfaces_added. simpl. lia.
Qed.

Lemma AutoSurface_make_stats (ctx : Context) (b : SkIRect) (st : Stats) :
  stats_monotone st (snd (AutoSurface_make ctx b st)) /\
  surfaces_added st (snd (AutoSurface_make ctx b st)) = 1 /\
  tiled_draws_added st (snd (AutoSurface_make ctx b st)) = 0 /\
  surfDstBounds (fst (AutoSurface_make ctx b st)) = b /\
  (surfDevice (fst (AutoSurface_make ctx b st)) <> None -> IRect.isEmpty b = false).
Proof.
  unfold AutoSurface_make, bind, markNewSurface, ret,
    stats_monotone, tiled_draws_added, surfaces_added. simpl.
  repeat (split; [lia|]). split; [reflexivity|].
  destruct (IRect.isEmpty b); [intros H; exfalso; apply H; reflexivity | reflexivity].
Qed.

(** What [resolve] returns, and what it costs. *)
Lemma resolve_spec (ext : Externals) (ctx : Context) (f : FilterResult)
      (dstBounds : SkIRect) (preserveTransparency : bool) (st : Stats) :
  let out := resolve ext ctx f dstBounds preserveTransparency st in
  stats_within 1 st (snd out) /\
  forall image, fst (fst out) = Some image ->
    let placed := IRect.MakeXYWH (ipX (snd (fst out))) (ipY (snd (fst out)))
                                 (Image.width image) (Image.height image) in
    IRect.isEmpty placed = false /\
    IRect.within placed dstBounds /\
    (if preserveTransparency then placed = dstBounds
     else IRect.within placed (fLayerBounds f)).
Proof.
  cbv zeta. unfold resolve.
  destruct (fImage f) as [image0|];
    [|split; [apply stats_within_refl; lia | discriminate]].
  destruct (if preserveTransparency then Some dstBounds
            else IRect.intersect dstBounds (fLayerBounds f)) as [b|] eqn:Eb;
    [|split; [apply stats_within_refl; lia | discriminate]].
  assert (Wb : IRect.within b dstBounds /\
               (if preserveTransparency then b = dstBounds
                else IRect.within b (fLayerBounds f))).
  { destruct preserveTransparency.
    - inversion Eb; subst. split; [apply within_refl | reflexivity].
    - apply (intersect_within _ _ _ Eb). }
  destruct Wb as [Wd Wl].
  match goal with |- context [match ?c with Some _ => _ | None => _ end] =>
    destruct c as [origin|] eqn:Eo end.
  - unfold ret. cbn [fst snd]. split; [apply stats_within_refl; lia|].
    intros image Hi.
    destruct preserveTransparency.
    { rewrite andb_false_r in Eo. discriminate Eo. }
    destruct (IRect.intersect (IRect.MakeXYWH (ipX origin) (ipY origin)
                                 (Image.width image0) (Image.height image0)) b)
      as [ib|] eqn:Hib.
    2:{ rewrite (extract_subset_decal_None image0 origin b Hib) in Hi. discriminate Hi. }
    destruct (extract_subset_decal_Some image0 origin b ib Hib) as (image' & Hex & Hb).
    rewrite Hex in Hi |- *. cbn [fst snd] in Hi |- *. inversion Hi; subst image'.
    cbn [IRect.topLeft ipX ipY]. rewrite Hb.
    destruct (intersect_Some _ _ _ Hib) as [_ He].
    destruct (intersect_within _ _ _ Hib) as [_ Hw].
    split; [exact He|].
    split; [apply within_trans with b; assumption | apply within_trans with b; assumption].
  - unfold bind.
    pose proof (AutoSurface_make_stats ctx b st) as (M1 & S1 & T1 & B1 & D1).
    destruct (AutoSurface_make ctx b st) as [surface st1]. cbn [fst snd] in *.
    destruct (surfDevice surface) as [backing|] eqn:Ed.
    + pose proof (draw_stats ext f image0 (surface_localToDevice b)
                             (surface_devClipBounds b) st1) as (M2 & S2 & T2).
      destruct (draw ext f image0 (surface_localToDevice b) (surface_devClipBounds b) st1)
        as [drawn st2]. cbn [fst snd] in *.
      unfold ret. cbn [fst snd]. split.
      * stats_lia.
      * intros image Hi. unfold snap in *. rewrite Ed in *. cbn [fst snd] in *.
        inversion Hi; subst image. clear Hi. rewrite B1.
        assert (Hp : IRect.MakeXYWH (ipX (IRect.topLeft b)) (ipY (IRect.topLeft b))
                       (Image.width
                          (Build_SkSpecialImage
                             (bkRender (backend ctx) b drawn)
                             (IRect.MakeWH (IRect.width b) (IRect.height b))
                             backing (bkColorType (backend ctx)) (colorSpace ctx)))
                       (Image.height
                          (Build_SkSpecialImage
                             (bkRender (backend ctx) b drawn)
                             (IRect.MakeWH (IRect.width b) (IRect.height b))
                             backing (bkColorType (backend ctx)) (colorSpace ctx))) = b).
        { apply SkIRect_eq; unfold Image.width, Image.height, IRect.width, IRect.height;
            simpl; lia. }
        rewrite Hp. split; [apply D1; discriminate|]. split; [exact Wd|].
        destruct preserveTransparency; assumption.
    + unfold ret. cbn [fst snd]. split; [|discriminate].
      stats_lia.
Qed.

Lemma applyTransform_stats (ext : Externals) (ctx : Context) (f : FilterResult)
      (t : SkMatrix) (s : SkSamplingOptions) (st : Stats) :
  stats_within 1 st (snd (applyTransform ext ctx f t s st)).
Proof.
  unfold applyTransform.
  destruct (fImage f) as [image|]; [|apply stats_within_refl; lia].
  destruct (IRect.isEmpty (desiredOutput ctx)); [apply stats_within_refl; lia|].
  cbv zeta.
  match goal with |- context [match ?c with Some _ => _ | None => _ end] =>
    destruct c as [ns|] end; [apply stats_within_refl; lia|].
  destruct (inverseMapRect ext t (desiredOutput ctx)) as [tight|];
    [|apply stats_within_refl; lia].
  unfold bind.
  pose proof (proj1 (resolve_spec ext ctx f tight false st)) as H.
  destruct (resolve ext ctx f tight false st) as [p st'].
  destruct (fst p); exact H.
Qed.

Lemma applyCrop_stats (ext : Externals) (ctx : Context) (f : FilterResult)
      (crop : SkIRect) (m : SkTileMode) (st : Stats) :
  stats_within 1 st (snd (applyCrop ext ctx f crop m st)).
Proof.
  unfold applyCrop.
  destruct (IRect.isEmpty crop || IRect.isEmpty (desiredOutput ctx));
    [apply stats_within_refl; lia|].
  destruct (fImage f) as [image|]; [|apply stats_within_refl; lia].
  destruct (IRect.intersect crop (fLayerBounds f)) as [cc0|];
    [|apply stats_within_refl; lia].
  cbv zeta.
  destruct (IRect.intersect cc0 _) as [cc1|]; [|apply stats_within_refl; lia].
  destruct (periodic_axis_transform _ _ _) as [pt|]; [apply applyTransform_stats|].
  destruct (normalize_crop _ _ _ _ _) as [[[m' fc] cc'] p].
  match goal with |- context [match ?c with Some _ => _ | None => _ end] =>
    destruct c as [origin|] end; [apply stats_within_refl; lia|].
  destruct (SkTileMode_eqb m' kDecal); [apply stats_within_refl; lia|].
  unfold bind.
  pose proof (proj1 (resolve_spec ext ctx f fc true st)) as H.
  destruct (resolve ext ctx f fc true st) as [pr st']. exact H.
Qed.

Lemma applyColorFilter_stats (ext : Externals) (ctx : Context) (f : FilterResult)
      (cf : SkColorFilter) (st : Stats) :
  stats_within 1 st (snd (applyColorFilter ext ctx f cf st)).
Proof.
  unfold applyColorFilter.
  destruct (IRect.isEmpty (desiredOutput ctx)); [apply stats_within_refl; lia|].
  cbv zeta.
  assert (S1 : forall b, stats_within 1 st
            (snd ((surface <- AutoSurface_make ctx b ;;
                   ret (updateTileMode ctx
                          (FilterResult_of_pair
                             (snap ctx surface (DrawFilteredColor kTransparent cf)))
                          kClamp))%stats st))).
  { intros b. unfold bind.
    pose proof (AutoSurface_make_stats ctx b st) as (M1 & S1 & T1 & _).
    destruct (AutoSurface_make ctx b st) as [surface st1]. cbn [fst snd] in *.
    unfold ret. cbn [snd]. stats_lia. }
  destruct (affectsTransparentBlack cf).
  - destruct (fImage f) as [image|]; [|apply S1].
    destruct (IRect.intersect (fLayerBounds f) (desiredOutput ctx)) as [b|]; [|apply S1].
    destruct (kRequiresLayerCrop _); [|apply stats_within_refl; lia].
    unfold bind.
    match goal with |- context [resolve ext ctx f ?b' true st] =>
      pose proof (proj1 (resolve_spec ext ctx f b' true st)) as H;
      destruct (resolve ext ctx f b' true st) as [pr st'] end.
    exact H.
  - destruct (fImage f) as [image|]; [|apply stats_within_refl; lia].
    destruct (IRect.intersect (fLayerBounds f) (desiredOutput ctx)) as [b|];
      apply stats_within_refl; lia.
Qed.

(** X5. [applyCrop], [applyColorFilter], [applyTransform] and [resolve] each
    create at most one offscreen surface and mark at most one shader-tiled
    draw for it; they never lower a counter and leave the counters of visited
    filters and cache hits alone. *)
Theorem operations_render_at_most_once (ext : Externals) (ctx : Context)
        (f : FilterResult) (st : Stats) :
  (forall crop tileMode,
      stats_within 1 st (snd (applyCrop ext ctx f crop tileMode st))) /\
  (forall colorFilter,
      stats_within 1 st (snd (applyColorFilter ext ctx f colorFilter st))) /\
  (forall transform sampling,
      stats_within 1 st (snd (applyTransform ext ctx f transform sampling st))) /\
  (forall dstBounds preserveTransparency,
      stats_within 1 st (snd (resolve ext ctx f dstBounds preserveTransparency st))).
Proof.
  split; [|split; [|split]]; intros.
  - apply applyCrop_stats.
  - apply applyColorFilter_stats.
  - apply applyTransform_stats.
  - apply (proj1 (resolve_spec ext ctx f dstBounds preserveTransparency st)).
Qed.

(** X6. An image returned by [resolve] is not empty and, placed at the
    returned origin, lies inside the requested [dstBounds]: it covers exactly
    [dstBounds] when transparency is preserved, and otherwise a part of it
    that is also inside the layer bounds of the receiver. *)
Theorem resolve_placement (ext : Externals) (ctx : Context) (f : FilterResult)
        (dstBounds : SkIRect) (preserveTransparency : bool) (st : Stats)
        (image : SkSpecialImage) (origin : SkIPoint) :
  fst (resolve ext ctx f dstBounds preserveTransparency st) = (Some image, origin) ->
  let placed := IRect.MakeXYWH (ipX origin) (ipY origin)
                               (Image.width image) (Image.height image) in
  IRect.isEmpty placed = false /\
  IRect.within placed dstBounds /\
  (if preserveTransparency then placed = dstBounds
   else IRect.within placed (fLayerBounds f)).
Proof.
  intros H.
  pose proof (proj2 (resolve_spec ext ctx f dstBounds preserveTransparency st) image) as R.
  cbv zeta in R. rewrite H in R. cbn [fst snd] in R. apply R. reflexivity.
Qed.

(** ** The cost of [rescale] *)






(** ** Operations that render nothing *)




(** Default sampling for a pixel-aligned next transform is compatible with
    every current sampling. *)
Lemma compatible_sampling_default_integer (cur : SkSamplingOptions) (b : bool) :
  exists s', compatible_sampling cur b kDefaultSampling true = Some s' /\
             (s' = cur \/ s' = kDefaultSampling).
Proof.
  unfold compatible_sampling. cbv zeta.
  change (Sampling.isAniso kDefaultSampling) with false.
  change (useCubic kDefaultSampling) with false.
  change (Sampling.filter_eqb (filter kDefaultSampling) kLinear) with true.
  change (Sampling.filter_eqb (filter kDefaultSampling) kNearest) with false.
  rewrite !andb_false_r. cbn [andb orb].
  destruct (Sampling.isAniso cur); cbn [andb]; [eauto|].
  destruct (useCubic cur); cbn [andb]; [eauto|].
  destruct (filter cur); cbn [Sampling.filter_eqb andb]; eauto.
Qed.

(** X10. [applyTransform] by a transform that is nearly an integer
    translation never renders and ignores the sampling it is given: the
    result is the empty one (when the mapped layer bounds miss the desired
    output or there is no image) or keeps the image, tile mode and colour
    filter of the receiver, with the transform concatenated, the layer
    bounds mapped and intersected with the desired output, and the sampling
    of the receiver or the default one. *)
Theorem applyTransform_integer_translation (ext : Externals) (ctx : Context)
        (f : FilterResult) (transform : SkMatrix) (sampling : SkSamplingOptions)
        (st : Stats) (offset : SkIPoint) :
  is_nearly_integer_translation transform = Some offset ->
  let out := applyTransform ext ctx f transform sampling st in
  snd out = st /\
  (forall sampling', applyTransform ext ctx f transform sampling' st = out) /\
  (fst out = FilterResult_empty \/
   (fImage (fst out) = fImage f /\
    fTileMode (fst out) = fTileMode f /\
    fColorFilter (fst out) = fColorFilter f /\
    fTransform (fst out) = postConcat ext (fTransform f) transform /\
    (fSamplingOptions (fst out) = fSamplingOptions f \/
     fSamplingOptions (fst out) = kDefaultSampling) /\
    IRect.intersect (mapRect ext transform (fLayerBounds f)) (desiredOutput ctx)
      = Some (fLayerBounds (fst out)))).
Proof.
  intros Ht. cbv zeta. unfold applyTransform.
  destruct (fImage f) as [image|] eqn:Hi;
    [|split; [reflexivity|split; [reflexivity|left; reflexivity]]].
  destruct (IRect.isEmpty (desiredOutput ctx));
    [split; [reflexivity|split; [reflexivity|left; reflexivity]]|].
  cbv zeta. rewrite Ht. cbn [isSome negb andb].
  destruct (compatible_sampling_default_integer (fSamplingOptions f)
              (isSome (is_nearly_integer_translation (fTransform f)))) as (s' & -> & Hs).
  unfold ret. cbn [fst snd].
  split; [reflexivity|]. split; [reflexivity|].
  unfold applyTransform_finish.
  destruct (IRect.intersect _ _) as [b|]; [|left; reflexivity].
  right. cbn [fImage fTileMode fColorFilter fTransform fSamplingOptions fLayerBounds].
  rewrite Hi. repeat (split; [reflexivity|]). split; [|reflexivity].
  destruct Hs as [-> | ->]; auto.
Qed.

Lemma applyTransform_integer_translation_witness :
  let ctx := Reference.context (IRect.MakeWH 30 30) in
  let out := applyTransform Reference.ext ctx Reference.source10 (Matrix.Translate 10 10)
                            kNearestNeighbor Reference.stats0 in
  snd out = Reference.stats0 /\
  forall sampling', applyTransform Reference.ext ctx Reference.source10
                      (Matrix.Translate 10 10) sampling' Reference.stats0 = out.
Proof.
  intros ctx out.
  assert (H : is_nearly_integer_translation (Matrix.Translate 10 10)
              = Some (Build_SkIPoint 10 10)) by (vm_compute; reflexivity).
  destruct (applyTransform_integer_translation Reference.ext ctx Reference.source10
              (Matrix.Translate 10 10) kNearestNeighbor Reference.stats0
              (Build_SkIPoint 10 10) H) as (S & A & _).
  split; [exact S | exact A].
Defined.

(** ** Colour filters *)

(** X11. Two colour filters that leave transparent black alone, applied one
    after the other to a result that is visible in the desired output, are
    both deferred: nothing is rendered, the image, sampling, tile mode and
    transform stay, the layer bounds are those of the receiver cut to the
    desired output (the second application does not cut further), and the
    carried filter runs the existing one first, then the first, then the
    second. *)
Theorem applyColorFilter_twice (ext : Externals) (ctx : Context) (f : FilterResult)
        (cf1 cf2 : SkColorFilter) (image : SkSpecialImage) (b : SkIRect) (st : Stats) :
  fImage f = Some image ->
  IRect.intersect (fLayerBounds f) (desiredOutput ctx) = Some b ->
  affectsTransparentBlack cf1 = false ->
  affectsTransparentBlack cf2 = false ->
  let first := applyColorFilter ext ctx f cf1 st in
  exists composed,
    applyColorFilter ext ctx (fst first) cf2 (snd first) =
      (Build_FilterResult (fImage f) (fSamplingOptions f) (fTileMode f) (fTransform f)
                          (Some composed) b, st) /\
    forall x, composed x =
              cf2 (cf1 (match fColorFilter f with Some existing => existing x | None => x end)).
Proof.
  intros Hi Hb H1 H2. cbv zeta.
  destruct (intersect_Some _ _ _ Hb) as [Hm He].
  destruct (intersect_within _ _ _ Hb) as [_ Wd].
  assert (Hd : IRect.isEmpty (desiredOutput ctx) = false).
  { apply isEmpty_false_iff in He. apply isEmpty_false_iff.
    unfold IRect.within in Wd. lia. }
  assert (F1 : applyColorFilter ext ctx f cf1 st =
               (Build_FilterResult (fImage f) (fSamplingOptions f) (fTileMode f)
                  (fTransform f) (Compose (Some cf1) (fColorFilter f)) b, st)).
  { unfold applyColorFilter. rewrite Hd, Hi, Hb, H1. reflexivity. }
  rewrite F1. cbn [fst snd].
  unfold applyColorFilter. rewrite Hd. cbv zeta.
  cbn [fImage fLayerBounds fSamplingOptions fTileMode fTransform fColorFilter].
  rewrite Hi, (intersect_absorb_l (desiredOutput ctx) b Wd He), H2.
  unfold ret.
  destruct (fColorFilter f) as [existing|]; cbn [Compose];
    eexists; (split; [reflexivity|]); intros x; reflexivity.
Qed.

Lemma applyColorFilter_twice_witness :
  let ctx := Reference.context (IRect.MakeWH 20 20) in
  let first := applyColorFilter Reference.ext ctx Reference.source10 Reference.swapRG
                                Reference.stats0 in
  exists composed,
    applyColorFilter Reference.ext ctx (fst first) Reference.swapRG (snd first) =
      (Build_FilterResult (fImage Reference.source10) (fSamplingOptions Reference.source10)
         (fTileMode Reference.source10) (fTransform Reference.source10)
         (Some composed) (IRect.MakeWH 10 10), Reference.stats0) /\
    forall x, composed x =
              Reference.swapRG (Reference.swapRG
                (match fColorFilter Reference.source10 with
                 | Some existing => existing x | None => x end)).
Proof.
  intros ctx first.
  apply (applyColorFilter_twice Reference.ext ctx Reference.source10
           Reference.swapRG Reference.swapRG Reference.image10 (IRect.MakeWH 10 10)
           Reference.stats0); vm_compute; reflexivity.
Defined.

(** Growing a visible part of the desired output by one pixel and cutting it
    to the desired output succeeds: the "SkAssertResult" of
    [applyColorFilter] holds. *)
Lemma outset_intersects (lb desired b : SkIRect) :
  IRect.intersect lb desired = Some b ->
  exists b', IRect.intersect (IRect.outset b (Build_SkISize 1 1)) desired = Some b' /\
             IRect.within b b' /\ IRect.within b' desired /\
             IRect.within b' (IRect.outset b (Build_SkISize 1 1)).
Proof.
  intros Hb.
  destruct (intersect_Some _ _ _ Hb) as [Hm He].
  destruct (intersect_within _ _ _ Hb) as [_ Wd].
  apply isEmpty_false_iff in He. unfold IRect.within in Wd.
  unfold IRect.intersect.
  destruct (IRect.isEmpty (IRect.meet (IRect.outset b (Build_SkISize 1 1)) desired)) eqn:E.
  - apply isEmpty_true_iff in E. simpl in E. lia.
  - eexists. split; [reflexivity|]. unfold IRect.within. simpl. lia.
Qed.

(** X12. When a colour filter that affects transparent black meets a result
    whose layer crop is visible, [applyColorFilter] bakes the crop: the
    visible layer bounds, grown by one pixel, always intersect the desired
    output (the assertion of the source holds), exactly one surface of that
    size is created, and the result (unless the device could not be made) is
    the rendered image placed there, clamp-tiled over the whole desired
    output, carrying the new filter alone. *)
Theorem applyColorFilter_resolves_cropped (ext : Externals) (ctx : Context)
        (f : FilterResult) (cf : SkColorFilter) (image : SkSpecialImage) (b : SkIRect)
        (st : Stats) :
  fImage f = Some image ->
  IRect.intersect (fLayerBounds f) (desiredOutput ctx) = Some b ->
  affectsTransparentBlack cf = true ->
  kRequiresLayerCrop (analyzeBounds ext f image Matrix.I (desiredOutput ctx)) = true ->
  exists padded,
    IRect.intersect (IRect.outset b (Build_SkISize 1 1)) (desiredOutput ctx) = Some padded /\
    IRect.within b padded /\
    let out := applyColorFilter ext ctx f cf st in
    surfaces_added st (snd out) = 1 /\
    (fImage (fst out) = None \/
     exists resolved,
       fImage (fst out) = Some resolved /\
       Image.width resolved = IRect.width padded /\
       Image.height resolved = IRect.height padded /\
       fTransform (fst out) = Matrix.Translate (fLeft padded) (fTop padded) /\
       fTileMode (fst out) = kClamp /\
       fLayerBounds (fst out) = desiredOutput ctx /\
       exists filter', fColorFilter (fst out) = Some filter' /\ forall x, filter' x = cf x).
Proof.
  intros Hi Hb Ha Hc.
  destruct (outset_intersects _ _ _ Hb) as (padded & Hp & Wb & Wd & _).
  exists padded. split; [exact Hp|]. split; [exact Wb|]. cbv zeta.
  destruct (intersect_Some _ _ _ Hb) as [_ He].
  destruct (intersect_within _ _ _ Hb) as [_ Wbd].
  assert (Hd : IRect.isEmpty (desiredOutput ctx) = false).
  { apply isEmpty_false_iff in He. apply isEmpty_false_iff.
    unfold IRect.within in Wbd. lia. }
  unfold applyColorFilter. rewrite Hd, Hi, Hb, Ha, Hc. cbv zeta. rewrite Hp.
  unfold bind, resolve. rewrite Hi. cbn [andb].
  rewrite andb_false_r.
  unfold bind.
  pose proof (AutoSurface_make_stats ctx padded st) as (M1 & S1 & T1 & B1 & D1).
  destruct (AutoSurface_make ctx padded st) as [surface st1]. cbn [fst snd] in *.
  destruct (surfDevice surface) as [backing|] eqn:Ed.
  - pose proof (draw_stats ext f image (surface_localToDevice padded)
                           (surface_devClipBounds padded) st1) as (M2 & S2 & T2).
    destruct (draw ext f image (surface_localToDevice padded)
                   (surface_devClipBounds padded) st1) as [drawn st2].
    cbn [fst snd] in *. unfold ret. cbn [fst snd].
    split; [unfold surfaces_added in *; lia|].
    right. unfold snap. rewrite Ed, B1.
    unfold FilterResult_of_pair, FilterResult_make, with_colorFilter, updateTileMode.
    cbn [fst snd fImage fSamplingOptions fTileMode fTransform fColorFilter fLayerBounds].
    eexists. split; [reflexivity|].
    unfold Image.width, Image.height, IRect.width, IRect.height. simpl.
    split; [lia|]. split; [lia|]. split; [reflexivity|]. split; [reflexivity|].
    split; [reflexivity|]. exists cf. split; [reflexivity | reflexivity].
  - unfold ret. cbn [fst snd]. split; [exact S1|]. left. reflexivity.
Qed.

Lemma applyColorFilter_resolves_cropped_witness :
  let ctx := Reference.context (IRect.MakeWH 20 20) in
  let f := Build_FilterResult (Some Reference.image10) kDefaultSampling kClamp
                              (Matrix.Translate 0 0) None (IRect.MakeWH 10 10) in
  exists padded,
    IRect.intersect (IRect.outset (IRect.MakeWH 10 10) (Build_SkISize 1 1))
                    (desiredOutput ctx) = Some padded /\
    IRect.within (IRect.MakeWH 10 10) padded /\
    surfaces_added Reference.stats0
      (snd (applyColorFilter Reference.ext ctx f Reference.invert Reference.stats0)) = 1.
Proof.
  intros ctx f.
  destruct (applyColorFilter_resolves_cropped Reference.ext ctx f Reference.invert
              Reference.image10 (IRect.MakeWH 10 10) Reference.stats0)
    as (padded & Hp & Wp & S & _); try (vm_compute; reflexivity).
  exists padded. split; [exact Hp|]. split; [exact Wp | exact S].
Defined.

Lemma resolve_placement_witness :
  let image := Image.makeSubset Reference.image10 (IRect.MakeLTRB 2 2 10 10) in
  IRect.within (IRect.MakeXYWH 2 2 (Image.width image) (Image.height image))
               (IRect.MakeLTRB 2 2 30 30) /\
  IRect.within (IRect.MakeXYWH 2 2 (Image.width image) (Image.height image))
               (fLayerBounds Reference.source10).
Proof.
  intros image.
  assert (H : fst (resolve Reference.ext (Reference.context (IRect.MakeWH 30 30))
                     Reference.source10 (IRect.MakeLTRB 2 2 30 30) false Reference.stats0)
              = (Some image, Build_SkIPoint 2 2)) by (vm_compute; reflexivity).
  destruct (resolve_placement Reference.ext (Reference.context (IRect.MakeWH 30 30))
              Reference.source10 (IRect.MakeLTRB 2 2 30 30) false Reference.stats0
              image (Build_SkIPoint 2 2) H) as (_ & W & L).
  split; [exact W | exact L].
Defined.


(** ** Mapping a rectangle through a transform and back *)










(** The product with the inverse need not be the identity: for the uniform
    scale 41, whose reciprocal is not a [float], the scale of the product of
    the matrix and the matrix of the reciprocal scale is [1 - 2^-24], and the
    pixel at (20000, 20000) is not returned: the error of the product, scaled
    by the coordinate, exceeds the epsilon. *)
Lemma map_SkIRect_scale_drifts :
  let s := F32.of_Z 41 in
  let inv := F32.div F32.one s in
  let P := Concat Reference.ext (Matrix.ScaleTranslate s s F32.zero F32.zero)
                  (Matrix.ScaleTranslate inv inv F32.zero F32.zero) in
  kMScaleX P = S754_finite false 16777215 (-24) /\
  map_SkIRect Reference.ext (IRect.MakeLTRB 20000 20000 20001 20001) P
    = IRect.MakeLTRB 19999 19999 20001 20001.
Proof. cbv zeta. split; vm_compute; reflexivity. Qed.

(** The least [int] is not recovered either: [sk_double_floor2int] saturates
    at [SK_MinS32 = -SK_MaxS32], so a left edge at [-2^31] comes back as
    [-2^31 + 1] even under the identity. *)
Lemma map_SkIRect_saturates_at_min :
  map_SkIRect Reference.ext (IRect.MakeLTRB (-2147483648) 0 0 1) Matrix.I
  = IRect.MakeLTRB (-2147483647) 0 0 1.
Proof. vm_compute. reflexivity. Qed.

(** X13. Mapping by an integer translation and mapping back are inverse to
    each other: for a rectangle that is not empty, with coordinates below
    [2^30] in magnitude, and offsets below [2^24] in magnitude (exact as
    [float]), [mapRect] offsets the rectangle, [inverseMapRect] offsets it
    the other way, and either one undoes the other. *)
Theorem mapRect_inverseMapRect_round_trip (ext : Externals) (r : SkIRect) (dx dy : Z) :
  IRect.isEmpty r = false -> coords_below 30 r ->
  Z.abs dx < 2 ^ 24 -> Z.abs dy < 2 ^ 24 ->
  let M := Matrix.Translate dx dy in
  mapRect ext M r = offset_by r dx dy /\
  inverseMapRect ext M r = Some (offset_by r (- dx) (- dy)) /\
  inverseMapRect ext M (mapRect ext M r) = Some r /\
  (forall back, inverseMapRect ext M r = Some back -> mapRect ext M back = r).
Proof.
  intros He Hc Hx Hy M. subst M. unfold mapRect.
  assert (P24 : 2 ^ 24 = 16777216) by reflexivity.
  assert (P30 : 2 ^ 30 = 1073741824) by reflexivity.
  assert (P31 : 2 ^ 31 = 2147483648) by reflexivity.
  assert (Hc31 : coords_below 31 r) by (apply (coords_below_mono 30 31); [lia|exact Hc]).
  assert (Hf : coords_below 31 (offset_by r dx dy)).
  { destruct Hc as (A & B & C & D). unfold coords_below, offset_by. simpl. lia. }
  assert (Hb : coords_below 31 (offset_by r (- dx) (- dy))).
  { destruct Hc as (A & B & C & D). unfold coords_below, offset_by. simpl. lia. }
  rewrite (map_SkIRect_Translate_int ext r dx dy He Hc31 Hf Hx Hy).
  rewrite (inverseMapRect_Translate_int ext r dx dy He Hc31 Hb Hx Hy).
  split; [reflexivity|]. split; [reflexivity|]. split.
  - rewrite (inverseMapRect_Translate_int ext (offset_by r dx dy) dx dy);
      [rewrite offset_by_back; reflexivity|rewrite offset_by_nonempty; exact He
      |exact Hf|rewrite offset_by_back; exact Hc31|exact Hx|exact Hy].
  - intros back Hbk. inversion Hbk; subst back.
    pose proof (offset_by_back r (- dx) (- dy)) as B.
    rewrite !Z.opp_involutive in B.
    rewrite (map_SkIRect_Translate_int ext (offset_by r (- dx) (- dy)) dx dy);
      [exact B|rewrite offset_by_nonempty; exact He|exact Hb|rewrite B; exact Hc31
      |exact Hx|exact Hy].
Qed.

Lemma mapRect_inverseMapRect_round_trip_witness :
  let r := IRect.MakeLTRB (-3) 5 1073741000 70 in
  let M := Matrix.Translate 16777215 (-7) in
  mapRect Reference.ext M r = IRect.MakeLTRB 16777212 (-2) 1090518215 63 /\
  inverseMapRect Reference.ext M (mapRect Reference.ext M r) = Some r.
Proof.
  intros r M.
  destruct (mapRect_inverseMapRect_round_trip Reference.ext r 16777215 (-7))
    as (H1 & _ & H3 & _).
  - reflexivity.
  - vm_compute; repeat split; reflexivity.
  - simpl. lia.
  - simpl. lia.
  - split; [exact H1|exact H3].
Defined.

(** X14. [is_nearly_integer_translation] accepts every translation by
    integers of at most 24 bits (those a [float] holds exactly) and reports
    exactly that offset; in particular the transform of a FilterResult made
    from an image and an origin is recognised, with that origin. *)
Theorem integer_translation_recognised (x y : Z) :
  Z.abs x < 2 ^ 24 -> Z.abs y < 2 ^ 24 ->
  is_nearly_integer_translation (Matrix.Translate x y) = Some (Build_SkIPoint x y) /\
  (forall image, is_nearly_integer_translation
                   (fTransform (FilterResult_make image (Build_SkIPoint x y)))
                 = Some (Build_SkIPoint x y)).
Proof.
  intros Hx Hy. split; [|intros image];
    apply is_nearly_integer_translation_Translate; assumption.
Qed.

Lemma integer_translation_recognised_witness :
  is_nearly_integer_translation (Matrix.Translate (-16777215) 12345)
  = Some (Build_SkIPoint (-16777215) 12345).
Proof.
  apply (integer_translation_recognised (-16777215) 12345); simpl; lia.
Defined.

(** ** The pixels of the results *)

(** Whether the pixel [(x, y)] belongs to a rectangle. *)
Definition inside (r : SkIRect) (x y : Z) : bool :=
  (fLeft r <=? x) && (x <? fRight r) && (fTop r <=? y) && (y <? fBottom r).

Lemma inside_iff (r : SkIRect) (x y : Z) :
  inside r x y = true <-> fLeft r <= x < fRight r /\ fTop r <= y < fBottom r.
Proof.
  unfold inside. rewrite !andb_true_iff, !Z.leb_le, !Z.ltb_lt. tauto.
Qed.

Lemma inside_false_iff (r : SkIRect) (x y : Z) :
  inside r x y = false <-> ~ (fLeft r <= x < fRight r /\ fTop r <= y < fBottom r).
Proof.
  rewrite <- inside_iff. destruct (inside r x y); split; intros; congruence.
Qed.

Lemma inside_meet (a b : SkIRect) (x y : Z) :
  inside (IRect.meet a b) x y = inside a x y && inside b x y.
Proof.
  destruct (inside (IRect.meet a b) x y) eqn:E; symmetry.
  - apply inside_iff in E. simpl in E.
    apply andb_true_iff. rewrite !inside_iff. lia.
  - apply inside_false_iff in E. simpl in E.
    destruct (inside a x y) eqn:Ea; [|reflexivity].
    destruct (inside b x y) eqn:Eb; [|reflexivity].
    apply inside_iff in Ea. apply inside_iff in Eb. exfalso. apply E. lia.
Qed.

Lemma inside_empty (r : SkIRect) (x y : Z) :
  IRect.isEmpty r = true -> inside r x y = false.
Proof.
  intros E. apply isEmpty_true_iff in E. apply inside_false_iff. lia.
Qed.

Lemma inside_intersect_Some (a b c : SkIRect) (x y : Z) :
  IRect.intersect a b = Some c -> inside c x y = inside a x y && inside b x y.
Proof.
  intros H. destruct (intersect_Some _ _ _ H) as [-> _]. apply inside_meet.
Qed.

Lemma inside_intersect_None (a b : SkIRect) (x y : Z) :
  IRect.intersect a b = None -> inside a x y && inside b x y = false.
Proof.
  intros H. apply intersect_None in H. rewrite <- inside_meet.
  apply inside_empty, H.
Qed.

(** [pixelAt] tests membership in the layer bounds. *)
Lemma pixelAt_unfold (f : FilterResult) (x y : Z) :
  pixelAt f x y =
  match fImage f with
  | None => Some kTransparent
  | Some image =>
      if negb (inside (fLayerBounds f) x y) then Some kTransparent
      else
        match integer_translation (fTransform f) with
        | None => None
        | Some origin =>
            Some (let sampled :=
                    match tile_index (fTileMode f) (Image.width image) (x - ipX origin),
                          tile_index (fTileMode f) (Image.height image) (y - ipY origin) with
                    | Some u, Some v => Image.pixel image u v
                    | _, _ => kTransparent
                    end in
                  match fColorFilter f with
                  | Some cf => cf sampled
                  | None => sampled
                  end)
        end
  end.
Proof. reflexivity. Qed.

(** A translation by integers of less than 24 bits is an integer
    translation exactly. *)
Lemma F32_of_Z_eqb_refl (d : Z) :
  Z.abs d < 2 ^ 24 -> F32.eqb (F32.of_Z d) (F32.of_Z d) = true.
Proof.
  intros Hd. rewrite F32_of_Z_exact by exact Hd. unfold F32.eqb.
  rewrite (SFeqb_exact F32.prec F32_prec_pos d d 0 Hd Hd). apply Z.eqb_refl.
Qed.

Lemma Matrix_eqb_Translate (x y : Z) :
  Z.abs x < 2 ^ 24 -> Z.abs y < 2 ^ 24 ->
  Matrix_eqb (Matrix.Translate x y) (Matrix.Translate x y) = true.
Proof.
  intros Hx Hy. unfold Matrix_eqb, Matrix.Translate, Matrix.ScaleTranslate, Matrix.MakeAll,
    Matrix.entries.
  cbn [kMScaleX kMSkewX kMTransX kMSkewY kMScaleY kMTransY kMPersp0 kMPersp1 kMPersp2
       combine forallb fst snd].
  rewrite (F32_of_Z_eqb_refl x Hx), (F32_of_Z_eqb_refl y Hy).
  change (F32.eqb F32.one F32.one) with true.
  change (F32.eqb F32.zero F32.zero) with true.
  reflexivity.
Qed.

Lemma integer_translation_Translate (x y : Z) :
  Z.abs x < 2 ^ 24 -> Z.abs y < 2 ^ 24 ->
  integer_translation (Matrix.Translate x y) = Some (Build_SkIPoint x y).
Proof.
  intros Hx Hy. unfold integer_translation.
  rewrite (is_nearly_integer_translation_Translate x y Hx Hy). cbn [ipX ipY].
  rewrite (Matrix_eqb_Translate x y Hx Hy). reflexivity.
Qed.

Lemma pixelAt_empty (x y : Z) : pixelAt FilterResult_empty x y = Some kTransparent.
Proof. reflexivity. Qed.

Lemma pixelAt_outside (f : FilterResult) (x y : Z) :
  inside (fLayerBounds f) x y = false -> pixelAt f x y = Some kTransparent.
Proof.
  intros H. rewrite pixelAt_unfold, H. destruct (fImage f); reflexivity.
Qed.

Lemma affectsTransparentBlack_fixed (cf : SkColorFilter) :
  cf kTransparent = kTransparent -> affectsTransparentBlack cf = false.
Proof. intros H. unfold affectsTransparentBlack. rewrite H. reflexivity. Qed.

(** X15. A colour filter that maps transparent black to itself filters the
    pixels and nothing else: at every pixel of the desired output the result
    of [applyColorFilter] shows the filter applied to what the receiver shows
    there (and is undefined exactly where the receiver is), and outside the
    desired output it is transparent black. *)
Theorem applyColorFilter_pixels (ext : Externals) (ctx : Context) (f : FilterResult)
        (cf : SkColorFilter) (st : Stats) :
  cf kTransparent = kTransparent ->
  forall x y,
    pixelAt (fst (applyColorFilter ext ctx f cf st)) x y =
    if inside (desiredOutput ctx) x y
    then option_map cf (pixelAt f x y)
    else Some kTransparent.
Proof.
  intros Hcf x y.
  pose proof (affectsTransparentBlack_fixed cf Hcf) as Ha.
  unfold applyColorFilter. rewrite Ha.
  destruct (IRect.isEmpty (desiredOutput ctx)) eqn:Hd.
  { rewrite (inside_empty _ x y Hd). reflexivity. }
  cbv zeta.
  destruct (fImage f) as [image|] eqn:Hi.
  2:{ unfold ret. cbn [fst]. rewrite pixelAt_empty, (pixelAt_unfold f), Hi.
      simpl. rewrite Hcf. destruct (inside _ x y); reflexivity. }
  destruct (IRect.intersect (fLayerBounds f) (desiredOutput ctx)) as [b|] eqn:Hb.
  2:{ unfold ret. cbn [fst]. rewrite pixelAt_empty.
      pose proof (inside_intersect_None _ _ x y Hb) as Hn.
      destruct (inside (desiredOutput ctx) x y) eqn:Ed; [|reflexivity].
      rewrite andb_true_r in Hn. rewrite (pixelAt_outside f x y Hn).
      simpl. rewrite Hcf. reflexivity. }
  unfold ret. cbn [fst].
  pose proof (inside_intersect_Some _ _ _ x y Hb) as Hin.
  match goal with |- pixelAt ?r x y = _ => rewrite (pixelAt_unfold r) end.
  cbn [fImage fLayerBounds fTransform fTileMode fColorFilter].
  rewrite Hin.
  destruct (inside (desiredOutput ctx) x y) eqn:Ed.
  - rewrite andb_true_r. rewrite (pixelAt_unfold f), Hi.
    destruct (inside (fLayerBounds f) x y); cbn [negb].
    + destruct (integer_translation (fTransform f)) as [origin|];
        [|reflexivity].
      cbv zeta. destruct (fColorFilter f); reflexivity.
    + simpl. rewrite Hcf. reflexivity.
  - rewrite andb_false_r. reflexivity.
Qed.

Lemma applyColorFilter_pixels_witness :
  Reference.swapRG kTransparent = kTransparent /\
  forall x y,
    pixelAt (fst (applyColorFilter Reference.ext (Reference.context (IRect.MakeWH 20 20))
                    Reference.source10 Reference.swapRG Reference.stats0)) x y =
    if inside (IRect.MakeWH 20 20) x y
    then option_map Reference.swapRG (pixelAt Reference.source10 x y)
    else Some kTransparent.
Proof.
  split; [reflexivity|].
  apply (applyColorFilter_pixels Reference.ext (Reference.context (IRect.MakeWH 20 20))
           Reference.source10 Reference.swapRG Reference.stats0).
  reflexivity.
Defined.









Lemma F32_of_Z_eqb_zero (d : Z) :
  Z.abs d < 2 ^ 24 -> F32.eqb (F32.of_Z d) F32.zero = true -> d = 0.
Proof.
  intros Hd H. rewrite F32_of_Z_exact in H by exact Hd.
  change F32.zero with (dyadic F32.prec 0 0) in H. unfold F32.eqb in H.
  rewrite (SFeqb_exact F32.prec F32_prec_pos d 0 0 Hd ltac:(reflexivity)) in H.
  apply Z.eqb_eq in H. exact H.
Qed.

Lemma isIdentity_Translate (dx dy : Z) :
  Z.abs dx < 2 ^ 24 -> Z.abs dy < 2 ^ 24 ->
  Matrix.isIdentity (Matrix.Translate dx dy) = true -> dx = 0 /\ dy = 0.
Proof.
  intros Hx Hy E. unfold Matrix.isIdentity in E. rewrite !andb_true_iff in E.
  destruct E as [[_ Ex] Ey].
  unfold Matrix.Translate, Matrix.ScaleTranslate, Matrix.MakeAll in Ex, Ey.
  cbn [kMTransX kMTransY] in Ex, Ey.
  split; apply F32_of_Z_eqb_zero; assumption.
Qed.

(** The product of two integer translations is the translation by the
    sum. *)
Lemma Concat_Translate (ext : Externals) (dx dy ox oy : Z) :
  Z.abs dx < 2 ^ 24 -> Z.abs dy < 2 ^ 24 -> Z.abs ox < 2 ^ 24 -> Z.abs oy < 2 ^ 24 ->
  Z.abs (ox + dx) < 2 ^ 24 -> Z.abs (oy + dy) < 2 ^ 24 ->
  Concat ext (Matrix.Translate dx dy) (Matrix.Translate ox oy)
  = Matrix.Translate (ox + dx) (oy + dy).
Proof.
  intros Hdx Hdy Hox Hoy Hsx Hsy.
  unfold Concat.
  destruct (Matrix.isIdentity (Matrix.Translate dx dy)) eqn:E1.
  - destruct (isIdentity_Translate dx dy Hdx Hdy E1) as [-> ->].
    rewrite !Z.add_0_r. reflexivity.
  - destruct (Matrix.isIdentity (Matrix.Translate ox oy)) eqn:E2.
    + destruct (isIdentity_Translate ox oy Hox Hoy E2) as [-> ->]. reflexivity.
    + rewrite !isScaleTranslate_Translate. cbn [andb].
      unfold Matrix.Translate, Matrix.ScaleTranslate, Matrix.MakeAll.
      cbn [kMScaleX kMScaleY kMTransX kMTransY].
      assert (M1 : F32.mul F32.one F32.one = F32.one) by (vm_compute; reflexivity).
      assert (T : forall o d, Z.abs o < 2 ^ 24 -> Z.abs d < 2 ^ 24 ->
                  Z.abs (o + d) < 2 ^ 24 ->
                  F32.add (F32.mul F32.one (F32.of_Z o)) (F32.of_Z d) = F32.of_Z (o + d)).
      { intros o d Ho Hd Hs.
        rewrite !F32_of_Z_exact by assumption. rewrite F32_one_exact.
        unfold F32.mul, F32.add.
        rewrite (SFmul_exact F32.prec F32.emax F32_prec_pos 1 o 0 0);
          [|unfold F32.prec; lia|apply in_range_F32; lia|lia|lia].
        rewrite (SFadd_exact F32.prec F32.emax F32_prec_pos (1 * o) d (0 + 0) 0);
          [|unfold F32.prec; lia|exact Hd|apply in_range_F32; lia|apply in_range_F32; lia
           |change (Z.min (0 + 0) 0) with 0; change (2 ^ (0 + 0 - 0)) with 1;
            change (2 ^ (0 - 0)) with 1;
            replace (1 * o * 1 + d * 1) with (o + d) by lia; exact Hs].
        change (Z.min (0 + 0) 0) with 0. change (2 ^ (0 + 0 - 0)) with 1.
        change (2 ^ (0 - 0)) with 1.
        replace (1 * o * 1 + d * 1) with (o + d) by lia. reflexivity. }
      rewrite M1, (T ox dx Hox Hdx Hsx), (T oy dy Hoy Hdy Hsy). reflexivity.
Qed.

Lemma inside_offset_by (r : SkIRect) (dx dy x y : Z) :
  inside (offset_by r dx dy) x y = inside r (x - dx) (y - dy).
Proof.
  unfold inside, offset_by. simpl.
  destruct (Z.leb_spec (fLeft r + dx) x); destruct (Z.leb_spec (fLeft r) (x - dx));
    try lia;
    destruct (Z.ltb_spec x (fRight r + dx)); destruct (Z.ltb_spec (x - dx) (fRight r));
    try lia;
    destruct (Z.leb_spec (fTop r + dy) y); destruct (Z.leb_spec (fTop r) (y - dy));
    try lia;
    destruct (Z.ltb_spec y (fBottom r + dy)); destruct (Z.ltb_spec (y - dy) (fBottom r));
    try lia; reflexivity.
Qed.

(** A transform that is nearly an integer translation is folded into the
    result. *)
Lemma applyTransform_integer_reduce (ext : Externals) (ctx : Context) (f : FilterResult)
      (t : SkMatrix) (s : SkSamplingOptions) (st : Stats) (o : SkIPoint)
      (image : SkSpecialImage) :
  is_nearly_integer_translation t = Some o ->
  fImage f = Some image ->
  IRect.isEmpty (desiredOutput ctx) = false ->
  exists s', applyTransform ext ctx f t s st = (applyTransform_finish ext ctx f t s', st).
Proof.
  intros Ht Hi Hd. unfold applyTransform. rewrite Hi, Hd. cbv zeta.
  rewrite Ht. cbn [isSome negb andb].
  destruct (compatible_sampling_default_integer (fSamplingOptions f)
              (isSome (is_nearly_integer_translation (fTransform f)))) as (s' & -> & _).
  exists s'. reflexivity.
Qed.

(** X17. [applyTransform] by an integer translation moves the pixels: for a
    receiver whose transform is an integer translation (origin below [2^23],
    layer bounds and offsets below [2^19] in magnitude), every pixel [(x, y)]
    of the desired output shows what the receiver shows at
    [(x - dx, y - dy)], whatever the sampling asked for, and every pixel
    outside the desired output is transparent black. *)
Theorem applyTransform_translation_pixels (ext : Externals) (ctx : Context)
        (f : FilterResult) (dx dy ox oy : Z) (sampling : SkSamplingOptions) (st : Stats) :
  fTransform f = Matrix.Translate ox oy ->
  coords_below 19 (fLayerBounds f) ->
  Z.abs dx < 2 ^ 19 -> Z.abs dy < 2 ^ 19 ->
  Z.abs ox < 2 ^ 23 -> Z.abs oy < 2 ^ 23 ->
  forall x y,
    pixelAt (fst (applyTransform ext ctx f (Matrix.Translate dx dy) sampling st)) x y =
    if inside (desiredOutput ctx) x y
    then pixelAt f (x - dx) (y - dy)
    else Some kTransparent.
Proof.
  intros Hf Hcb Hdx Hdy Hox Hoy x y.
  assert (P19 : 2 ^ 19 = 524288) by reflexivity.
  assert (P23 : 2 ^ 23 = 8388608) by reflexivity.
  assert (P24 : 2 ^ 24 = 16777216) by reflexivity.
  destruct (fImage f) as [image|] eqn:Hi.
  2:{ unfold applyTransform. rewrite Hi. unfold ret. cbn [fst].
      rewrite pixelAt_empty, (pixelAt_unfold f), Hi.
      destruct (inside _ x y); reflexivity. }
  destruct (IRect.isEmpty (desiredOutput ctx)) eqn:Hd.
  { unfold applyTransform. rewrite Hi, Hd. unfold ret. cbn [fst].
    rewrite (inside_empty _ x y Hd). reflexivity. }
  assert (Ht : is_nearly_integer_translation (Matrix.Translate dx dy)
               = Some (Build_SkIPoint dx dy))
    by (apply is_nearly_integer_translation_Translate; lia).
  destruct (applyTransform_integer_reduce ext ctx f (Matrix.Translate dx dy) sampling st
              _ image Ht Hi Hd) as (s' & ->).
  cbn [fst]. unfold applyTransform_finish, mapRect.
  destruct (IRect.isEmpty (fLayerBounds f)) eqn:He.
  - assert (Hm : map_SkIRect ext (fLayerBounds f) (Matrix.Translate dx dy) = IRect.MakeEmpty).
    { unfold map_SkIRect. rewrite He. reflexivity. }
    rewrite Hm.
    assert (Hn : IRect.intersect IRect.MakeEmpty (desiredOutput ctx) = None).
    { apply intersect_None, isEmpty_true_iff. simpl. lia. }
    rewrite Hn, pixelAt_empty.
    rewrite (pixelAt_outside f (x - dx) (y - dy) (inside_empty _ _ _ He)).
    destruct (inside _ x y); reflexivity.
  - rewrite (map_SkIRect_Translate ext (fLayerBounds f) dx dy He Hcb Hdx Hdy).
    destruct (IRect.intersect (offset_by (fLayerBounds f) dx dy) (desiredOutput ctx))
      as [b|] eqn:Hb.
    + pose proof (inside_intersect_Some _ _ _ x y Hb) as Hin.
      rewrite inside_offset_by in Hin.
      match goal with |- pixelAt ?r x y = _ => rewrite (pixelAt_unfold r) end.
      cbn [fImage fLayerBounds fTransform fTileMode fColorFilter].
      rewrite Hi, Hin. unfold postConcat. rewrite Hf.
      rewrite (Concat_Translate ext dx dy ox oy) by lia.
      rewrite (integer_translation_Translate (ox + dx) (oy + dy)) by lia.
      rewrite (pixelAt_unfold f), Hi, Hf.
      rewrite (integer_translation_Translate ox oy) by lia.
      cbv zeta. cbn [ipX ipY].
      replace (x - (ox + dx)) with (x - dx - ox) by lia.
      replace (y - (oy + dy)) with (y - dy - oy) by lia.
      destruct (inside (fLayerBounds f) (x - dx) (y - dy));
        destruct (inside (desiredOutput ctx) x y); reflexivity.
    + pose proof (inside_intersect_None _ _ x y Hb) as Hin.
      rewrite inside_offset_by in Hin. rewrite pixelAt_empty.
      destruct (inside (desiredOutput ctx) x y); [|reflexivity].
      rewrite andb_true_r in Hin.
      rewrite (pixelAt_outside f _ _ Hin). reflexivity.
Qed.

Lemma applyTransform_translation_pixels_witness :
  fTransform Reference.source10 = Matrix.Translate 0 0 /\
  forall x y,
    pixelAt (fst (applyTransform Reference.ext (Reference.context (IRect.MakeWH 30 30))
                    Reference.source10 (Matrix.Translate 10 5) kNearestNeighbor
                    Reference.stats0)) x y =
    if inside (IRect.MakeWH 30 30) x y
    then pixelAt Reference.source10 (x - 10) (y - 5)
    else Some kTransparent.
Proof.
  split; [reflexivity|].
  apply (applyTransform_translation_pixels Reference.ext
           (Reference.context (IRect.MakeWH 30 30)) Reference.source10 10 5 0 0
           kNearestNeighbor Reference.stats0).
  - reflexivity.
  - vm_compute; repeat split; reflexivity.
  - simpl. lia.
  - simpl. lia.
  - simpl. lia.
  - simpl. lia.
Defined.





(** ** Merging *)







(** ** Cropping twice, in pixels *)






(** ** Rescaling without scaling *)



(** ** When no device can be created *)

(** The backend of the context refuses every device ("if (!device) return;"
    in the constructor of [AutoSurface]). *)
Definition device_failure (ctx : Context) : Prop :=
  forall size, bkMakeDevice (backend ctx) size = None.

(** What an operation leaves behind when its surface could not be created:
    either nothing was rendered at all, or the result has no image and the
    only trace is the one surface that was counted. *)
Definition deferred_or_failed (image : option SkSpecialImage) (st st' : Stats) : Prop :=
  st' = st \/ (image = None /\ st' = snd (markNewSurface st)).

Lemma AutoSurface_make_fails (ctx : Context) (dstBounds : SkIRect) (st : Stats) :
  device_failure ctx ->
  AutoSurface_make ctx dstBounds st =
  (Build_AutoSurface dstBounds None, snd (markNewSurface st)).
Proof.
  intros H. unfold AutoSurface_make, bind, ret. cbn.
  rewrite H. destruct (IRect.isEmpty dstBounds); reflexivity.
Qed.

Lemma resolve_fails (ext : Externals) (ctx : Context) (f : FilterResult)
      (dstBounds : SkIRect) (preserveTransparency : bool) (st : Stats) :
  device_failure ctx ->
  deferred_or_failed (fst (fst (resolve ext ctx f dstBounds preserveTransparency st)))
                     st (snd (resolve ext ctx f dstBounds preserveTransparency st)).
Proof.
  intros H. unfold resolve.
  destruct (fImage f) as [image|]; [|left; reflexivity].
  destruct (if preserveTransparency then _ else _) as [dst|]; [|left; reflexivity].
  destruct (if _ && _ && _ then _ else _) as [origin|]; [left; reflexivity|].
  unfold bind. rewrite (AutoSurface_make_fails ctx dst st H). cbn.
  right. split; reflexivity.
Qed.

Lemma deferred_or_failed_image (p : option SkSpecialImage * SkIPoint) (st st' : Stats)
      (g : FilterResult) :
  deferred_or_failed (fst p) st st' ->
  (fst p = None -> fImage g = None) ->
  deferred_or_failed (fImage g) st st'.
Proof.
  intros [H | [H1 H2]] Hg; [left; exact H | right; split; [apply Hg, H1 | exact H2]].
Qed.

Lemma applyTransform_fails (ext : Externals) (ctx : Context) (f : FilterResult)
      (transform : SkMatrix) (sampling : SkSamplingOptions) (st : Stats) :
  device_failure ctx ->
  deferred_or_failed (fImage (fst (applyTransform ext ctx f transform sampling st)))
                     st (snd (applyTransform ext ctx f transform sampling st)).
Proof.
  intros H. unfold applyTransform.
  destruct (fImage f) as [image|]; [|left; reflexivity].
  destruct (IRect.isEmpty (desiredOutput ctx)); [left; reflexivity|].
  cbv zeta.
  match goal with
  | |- context [if ?c then None else ?e] =>
      destruct (if c then None else e) as [nextSampling|]; [left; reflexivity|]
  end.
  destruct (inverseMapRect ext transform (desiredOutput ctx)) as [tight|];
    [|left; reflexivity].
  unfold bind.
  pose proof (resolve_fails ext ctx f tight false st H) as R.
  destruct (resolve ext ctx f tight false st) as [p st'].
  cbn [fst snd] in R.
  destruct R as [-> | [Hp ->]]; [left; destruct (fst p); reflexivity|].
  rewrite Hp. right. split; reflexivity.
Qed.

Lemma applyCrop_fails (ext : Externals) (ctx : Context) (f : FilterResult)
      (crop : SkIRect) (tileMode : SkTileMode) (st : Stats) :
  device_failure ctx ->
  deferred_or_failed (fImage (fst (applyCrop ext ctx f crop tileMode st)))
                     st (snd (applyCrop ext ctx f crop tileMode st)).
Proof.
  intros H. unfold applyCrop.
  destruct (IRect.isEmpty crop || IRect.isEmpty (desiredOutput ctx)); [left; reflexivity|].
  destruct (fImage f) as [image|]; [|left; reflexivity].
  destruct (IRect.intersect crop (fLayerBounds f)) as [cc0|]; [|left; reflexivity].
  cbv zeta.
  destruct (IRect.intersect cc0 _) as [cc1|]; [|left; reflexivity].
  destruct (periodic_axis_transform _ _ _) as [periodic|].
  { apply applyTransform_fails, H. }
  destruct (normalize_crop _ _ _ _ _) as [[[tileMode' fitted] content] preserve].
  match goal with
  | |- context [if preserve then None else ?e] =>
      destruct (if preserve then None else e) as [origin|]; [left; reflexivity|]
  end.
  destruct (SkTileMode_eqb tileMode' kDecal); [left; reflexivity|].
  unfold bind.
  pose proof (resolve_fails ext ctx f fitted true st H) as R.
  destruct (resolve ext ctx f fitted true st) as [p st'].
  cbn [fst snd ret] in *.
  apply (deferred_or_failed_image p); [exact R|].
  intros Hp. rewrite updateTileMode_image. exact Hp.
Qed.

Lemma applyColorFilter_fails (ext : Externals) (ctx : Context) (f : FilterResult)
      (colorFilter : SkColorFilter) (st : Stats) :
  device_failure ctx ->
  deferred_or_failed (fImage (fst (applyColorFilter ext ctx f colorFilter st)))
                     st (snd (applyColorFilter ext ctx f colorFilter st)).
Proof.
  intros H. unfold applyColorFilter.
  destruct (IRect.isEmpty (desiredOutput ctx)); [left; reflexivity|].
  cbv zeta.
  destruct (affectsTransparentBlack colorFilter).
  2:{ destruct (match fImage f with Some _ => _ | None => _ end) as [[? ?]|];
        left; reflexivity. }
  destruct (match fImage f with Some _ => _ | None => _ end) as [[image bounds]|].
  - destruct (kRequiresLayerCrop _); [|left; reflexivity].
    unfold bind.
    match goal with
    | |- context [resolve ext ctx f ?d true st] =>
        pose proof (resolve_fails ext ctx f d true st H) as R;
        destruct (resolve ext ctx f d true st) as [p st']
    end.
    cbn [fst snd ret] in *.
    apply (deferred_or_failed_image p); [exact R|].
    intros Hp. rewrite updateTileMode_image. exact Hp.
  - unfold bind. rewrite (AutoSurface_make_fails ctx _ st H). cbn [fst snd ret].
    right. split; [|reflexivity]. rewrite updateTileMode_image. reflexivity.
Qed.

Lemma rescale_fails (ext : Externals) (ctx : Context) (f : FilterResult)
      (scaleW scaleH : spec_float) (enforceDecal : bool) (st : Stats) :
  device_failure ctx ->
  exists r,
    fst (rescale ext ctx f scaleW scaleH enforceDecal st) = Some r /\
    deferred_or_failed (fImage r) st (snd (rescale ext ctx f scaleW scaleH enforceDecal st)).
Proof.
  intros H. unfold rescale.
  destruct (fImage f) as [image0|];
    [|exists FilterResult_empty; split; [reflexivity | left; reflexivity]].
  destruct (IRect.intersect (fLayerBounds f) (desiredOutput ctx)) as [visible|];
    [|exists FilterResult_empty; split; [reflexivity | left; reflexivity]].
  destruct (F32.leb scaleW F32.zero || F32.leb scaleH F32.zero);
    [exists FilterResult_empty; split; [reflexivity | left; reflexivity]|].
  cbv zeta.
  destruct (_ && _ && negb _).
  { destruct (kHasLayerFillingEffect _); eexists; (split; [reflexivity | left; reflexivity]). }
  destruct (if _ && _ then _ else _) as [srcRect0 tileMode].
  destruct (IRect.isEmpty _);
    [exists FilterResult_empty; split; [reflexivity | left; reflexivity]|].
  unfold bind. cbn [rescale_loop isSome negb orb].
  destruct (step_scale _ _ scaleW _) as [sx xSteps'].
  destruct (step_scale _ _ scaleH _) as [sy ySteps'].
  unfold bind. rewrite (AutoSurface_make_fails ctx _ st H). cbn [surfDevice ret fst snd].
  exists FilterResult_empty. split; [reflexivity | right; split; reflexivity].
Qed.

Lemma Builder_merge_fails (ext : Externals)
      (renderAll : Backend -> SkIRect -> list DrawCmd -> Z -> Z -> SkColor4f)
      (ctx : Context) (inputs : list FilterResult) (st : Stats) :
  device_failure ctx ->
  deferred_or_failed (fImage (fst (Builder_merge ext renderAll ctx inputs st)))
                     st (snd (Builder_merge ext renderAll ctx inputs st)).
Proof.
  intros H.
  assert (G : forall l,
             deferred_or_failed
               (fImage (fst (bind (AutoSurface_make ctx
                                     (Builder_outputBounds ctx (Some (Union (map fLayerBounds l)))))
                               (fun surface =>
                                  bind (match surfDevice surface with
                                        | Some _ =>
                                            draw_inputs ext l
                                              (surface_localToDevice
                                                 (Builder_outputBounds ctx
                                                    (Some (Union (map fLayerBounds l)))))
                                              (surface_devClipBounds
                                                 (Builder_outputBounds ctx
                                                    (Some (Union (map fLayerBounds l)))))
                                        | None => ret []
                                        end)
                                       (fun drawn =>
                                          ret (FilterResult_of_pair
                                                 (snap_all renderAll ctx surface drawn))))
                               st)))
               st
               (snd (bind (AutoSurface_make ctx
                             (Builder_outputBounds ctx (Some (Union (map fLayerBounds l)))))
                       (fun surface =>
                          bind (match surfDevice surface with
                                | Some _ =>
                                    draw_inputs ext l
                                      (surface_localToDevice
                                         (Builder_outputBounds ctx
                                            (Some (Union (map fLayerBounds l)))))
                                      (surface_devClipBounds
                                         (Builder_outputBounds ctx
                                            (Some (Union (map fLayerBounds l)))))
                                | None => ret []
                                end)
                               (fun drawn =>
                                  ret (FilterResult_of_pair
                                         (snap_all renderAll ctx surface drawn))))
                       st))).
  { intros l. unfold bind. rewrite (AutoSurface_make_fails ctx _ st H).
    cbn [surfDevice ret fst snd]. right. split; reflexivity. }
  destruct inputs as [|a [|b rest]].
  - apply (G []).
  - left. reflexivity.
  - apply (G (a :: b :: rest)).
Qed.

(** X22. No operation invents an image when the backend cannot create a
    device: [resolve], [applyCrop], [applyColorFilter], [applyTransform],
    [rescale] (which still returns) and [Builder::merge] then either render
    nothing at all (the statistics are untouched) or return a result without
    an image, having counted exactly the one surface that failed and no
    shader-tiled draw. *)
Theorem no_image_without_device (ext : Externals)
        (renderAll : Backend -> SkIRect -> list DrawCmd -> Z -> Z -> SkColor4f)
        (ctx : Context) (f : FilterResult) (st : Stats) :
  device_failure ctx ->
  (forall dstBounds preserveTransparency,
      let out := resolve ext ctx f dstBounds preserveTransparency st in
      deferred_or_failed (fst (fst out)) st (snd out)) /\
  (forall crop tileMode,
      let out := applyCrop ext ctx f crop tileMode st in
      deferred_or_failed (fImage (fst out)) st (snd out)) /\
  (forall colorFilter,
      let out := applyColorFilter ext ctx f colorFilter st in
      deferred_or_failed (fImage (fst out)) st (snd out)) /\
  (forall transform sampling,
      let out := applyTransform ext ctx f transform sampling st in
      deferred_or_failed (fImage (fst out)) st (snd out)) /\
  (forall scaleW scaleH enforceDecal,
      let out := rescale ext ctx f scaleW scaleH enforceDecal st in
      exists r, fst out = Some r /\ deferred_or_failed (fImage r) st (snd out)) /\
  (forall inputs,
      let out := Builder_merge ext renderAll ctx inputs st in
      deferred_or_failed (fImage (fst out)) st (snd out)).
Proof.
  intros H. repeat split; intros; cbv zeta.
  - apply resolve_fails, H.
  - apply applyCrop_fails, H.
  - apply applyColorFilter_fails, H.
  - apply applyTransform_fails, H.
  - apply rescale_fails, H.
  - apply Builder_merge_fails, H.
Qed.

Lemma no_image_without_device_witness :
  let ctx := Build_Context (IRect.MakeWH 10 10)
               (Build_Backend (fun _ => None) 0 (fun _ _ _ _ => kTransparent)) 0 in
  device_failure ctx /\
  let out := applyColorFilter Reference.ext ctx Reference.source10 Reference.fillGreen
                              Reference.stats0 in
  deferred_or_failed (fImage (fst out)) Reference.stats0 (snd out).
Proof.
  intros ctx.
  assert (H : device_failure ctx) by (intros size; reflexivity).
  split; [exact H|].
  exact (proj1 (proj2 (proj2 (no_image_without_device Reference.ext
                                (fun _ _ _ _ _ => kTransparent) ctx Reference.source10
                                Reference.stats0 H)))
               Reference.fillGreen).
Defined.
